(** * Credential security core of the RF password manager popup

    A shallow embedding of the PIN, session, encryption and vault code of
    the extension popup:

    - [src/utils/pinAuth.js] (second part of
      [src/rf-password-manager/src/utils/eventLogger.js]): PIN digest,
      session obfuscation and expiry;
    - [src/utils/encryption.js] ([src/unnamed/part_011]): per-record key
      derivation and AES-GCM;
    - [src/rf-password-manager/src/components/PinSetup.jsx]: the enrollment
      form;
    - the popup component [RFPasswordManagerPopup] (in
      [src/rf-password-manager/public/detectLogin.js]): the load effect,
      [performSave] and [onClearCorrupted];

    and of the code around it:

    - [src/utils/eventLogger.js]: the event log and its statistics;
    - [src/rf-password-manager/src/components/PinPrompt.jsx] with
      [handlePinUnlock], and [onDelete], [onCheckSite] and
      [onSaveCredential] of the popup, with [canSave] of
      [src/components/AddPasswordPage.jsx] ([src/unnamed/part_007]);
    - the content script at the head of
      [src/rf-password-manager/public/detectLogin.js]: the login score;
    - [public/background.js] ([src/unnamed/part_006]): the login state
      and the badge of each tab.

    JavaScript strings are sequences of UTF-16 code units, [Uint8Array]s are
    lists of bytes, numbers that the code only uses as integers are [Z].
    The Web Crypto primitives (PBKDF2, AES-GCM, SHA-256) are an interface;
    the platform string functions the code calls ([toString(16)],
    [parseInt(_, 16)], [btoa]/[atob], [TextEncoder]/[TextDecoder]) are
    written out.  [chrome.storage.local] is a record of the three keys
    the code uses, and reads and writes of it always succeed. *)

From Stdlib Require Import ZArith List Bool Lia.
From Stdlib Require Import Init.Byte Strings.Byte.
From Stdlib Require Strings.String Strings.Ascii.
Import ListNotations.
Local Open Scope Z_scope.

(** ** JavaScript strings and numbers *)

Definition jsstring := list Z.

Definition is_code_unit (c : Z) : Prop := 0 <= c < 65536.

Definition wf_jsstring (s : jsstring) : Prop := Forall is_code_unit s.

(** [!!s] for a string: only the empty string is falsy. *)
Definition truthy (s : jsstring) : bool :=
  match s with
  | [] => false
  | _ :: _ => true
  end.

(** [!!o.f] for a field that is either missing or a string. *)
Definition truthy_field (f : option jsstring) : bool :=
  match f with
  | Some s => truthy s
  | None => false
  end.

Definition ToInt32 (z : Z) : Z := (z + 2 ^ 31) mod 2 ^ 32 - 2 ^ 31.

Definition ToUint16 (z : Z) : Z := z mod 65536.

(** [a ^ b]: both operands go through ToInt32. *)
Definition js_xor (a b : Z) : Z := Z.lxor (ToInt32 a) (ToInt32 b).

(** [a % b] takes the sign of the dividend. *)
Definition js_rem (a b : Z) : Z := Z.rem a b.

(** A number that may be [NaN], as [parseInt] returns it. *)
Definition nan_to_zero (n : option Z) : Z :=
  match n with
  | Some z => z
  | None => 0
  end.

(** ** Bytes ([Uint8Array] elements) *)

Definition byte_to_Z (b : byte) : Z := Z.of_N (Byte.to_N b).

(** Storing a number into a [Uint8Array] slot keeps it modulo 256. *)
Definition byte_of_Z (z : Z) : byte :=
  match Byte.of_N (Z.to_N (z mod 256)) with
  | Some b => b
  | None => x00
  end.

(** ** [Number.prototype.toString(16)], [padStart(2, '0')], [parseInt(_, 16)] *)

Definition hex_char (d : Z) : Z := if d <? 10 then 48 + d else 87 + d.

Fixpoint to_hex_digits (fuel : nat) (z : Z) (acc : jsstring) : jsstring :=
  match fuel with
  | O => acc
  | S fuel' =>
      let acc' := hex_char (z mod 16) :: acc in
      if z / 16 =? 0 then acc' else to_hex_digits fuel' (z / 16) acc'
  end.

(** An integer has at most as many hexadecimal digits as binary ones. *)
Definition toString16 (z : Z) : jsstring :=
  if z <? 0
  then 45 :: to_hex_digits (S (Z.to_nat (Z.log2 (- z)))) (- z) []
  else to_hex_digits (S (Z.to_nat (Z.log2 z))) z [].

Definition padStart2 (s : jsstring) : jsstring :=
  match s with
  | [] => [48; 48]
  | [c] => [48; c]
  | _ => s
  end.

Definition is_js_whitespace (c : Z) : bool :=
  ((9 <=? c) && (c <=? 13)) || (c =? 32) || (c =? 160) || (c =? 5760)
  || ((8192 <=? c) && (c <=? 8202)) || (c =? 8232) || (c =? 8233)
  || (c =? 8239) || (c =? 8287) || (c =? 12288) || (c =? 65279).

Fixpoint skip_whitespace (s : jsstring) : jsstring :=
  match s with
  | [] => []
  | c :: rest => if is_js_whitespace c then skip_whitespace rest else s
  end.

Definition hex_value (c : Z) : option Z :=
  if (48 <=? c) && (c <=? 57) then Some (c - 48)
  else if (97 <=? c) && (c <=? 102) then Some (c - 87)
  else if (65 <=? c) && (c <=? 70) then Some (c - 55)
  else None.

(** The longest prefix of hexadecimal digits; [None] when there is none. *)
Fixpoint hex_prefix (s : jsstring) (acc : option Z) : option Z :=
  match s with
  | [] => acc
  | c :: rest =>
      match hex_value c with
      | Some d => hex_prefix rest (Some (16 * nan_to_zero acc + d))
      | None => acc
      end
  end.

Definition strip_sign (s : jsstring) : Z * jsstring :=
  match s with
  | c :: rest =>
      if c =? 45 then (-1, rest)
      else if c =? 43 then (1, rest)
      else (1, s)
  | [] => (1, s)
  end.

Definition strip_0x (s : jsstring) : jsstring :=
  match s with
  | c :: x :: rest =>
      if (c =? 48) && ((x =? 120) || (x =? 88)) then rest else s
  | _ => s
  end.

(** [parseInt(s, 16)]; [None] is [NaN]. *)
Definition parseInt16 (s : jsstring) : option Z :=
  let (sign, digits) := strip_sign (skip_whitespace s) in
  option_map (Z.mul sign) (hex_prefix (strip_0x digits) None).

(** The substrings [s.substr(i, 2)] for [i = 0, 2, 4, ...] below
    [s.length]. *)
Fixpoint substr_pairs (s : jsstring) : list jsstring :=
  match s with
  | [] => []
  | [a] => [[a]]
  | a :: b :: rest => [a; b] :: substr_pairs rest
  end.

(** ** [src/utils/encryption.js]: conversion helpers *)

Definition arrayBufferToHex (buffer : list byte) : jsstring :=
  concat (map (fun b => padStart2 (toString16 (byte_to_Z b))) buffer).

(** [new Uint8Array(hex.length / 2)] has [floor(hex.length / 2)] slots,
    so the write for a trailing single character lands out of range and is
    dropped. *)
Fixpoint hexToUint8Array (hex : jsstring) : list byte :=
  match hex with
  | a :: b :: rest =>
      byte_of_Z (nan_to_zero (parseInt16 [a; b])) :: hexToUint8Array rest
  | _ => []
  end.

(** [btoa] on the binary string built from a buffer, and [atob] followed
    by the copy into a [Uint8Array].  [atob] is the forgiving-base64 decode
    of the platform: ASCII whitespace is dropped, one or two trailing [=]
    are dropped when the length is a multiple of four, and a remaining
    length of 1 modulo 4 or any character outside the alphabet raises. *)

Definition base64_char (i : Z) : Z :=
  if i <? 26 then 65 + i
  else if i <? 52 then 71 + i
  else if i <? 62 then i - 4
  else if i =? 62 then 43
  else 47.

Definition base64_index (c : Z) : option Z :=
  if (65 <=? c) && (c <=? 90) then Some (c - 65)
  else if (97 <=? c) && (c <=? 122) then Some (c - 71)
  else if (48 <=? c) && (c <=? 57) then Some (c + 4)
  else if c =? 43 then Some 62
  else if c =? 47 then Some 63
  else None.

Fixpoint base64_encode (bytes : list byte) : jsstring :=
  match bytes with
  | [] => []
  | [a] =>
      let n := byte_to_Z a in
      [base64_char (n / 4); base64_char (n mod 4 * 16); 61; 61]
  | [a; b] =>
      let n := 256 * byte_to_Z a + byte_to_Z b in
      [base64_char (n / 1024); base64_char (n / 16 mod 64);
       base64_char (n mod 16 * 4); 61]
  | a :: b :: c :: rest =>
      let n := 65536 * byte_to_Z a + 256 * byte_to_Z b + byte_to_Z c in
      base64_char (n / 262144) :: base64_char (n / 4096 mod 64)
      :: base64_char (n / 64 mod 64) :: base64_char (n mod 64)
      :: base64_encode rest
  end.

(** [btoa] raises on a character above U+00FF. *)
Definition btoa (binary : jsstring) : option jsstring :=
  if forallb (fun c => (0 <=? c) && (c <=? 255)) binary
  then Some (base64_encode (map byte_of_Z binary))
  else None.

Definition arrayBufferToBase64 (buffer : list byte) : option jsstring :=
  btoa (map byte_to_Z buffer).

Definition is_ascii_whitespace (c : Z) : bool :=
  (c =? 9) || (c =? 10) || (c =? 12) || (c =? 13) || (c =? 32).

Definition is_padding (s : jsstring) : bool :=
  match s with
  | [c] => c =? 61
  | [c; d] => (c =? 61) && (d =? 61)
  | _ => false
  end.

(** Drops the one or two [=] the string ends with. *)
Fixpoint strip_padding (s : jsstring) : jsstring :=
  match s with
  | [] => []
  | c :: rest => if is_padding s then [] else c :: strip_padding rest
  end.

Fixpoint base64_indices (s : jsstring) : option (list Z) :=
  match s with
  | [] => Some []
  | c :: rest =>
      match base64_index c, base64_indices rest with
      | Some i, Some l => Some (i :: l)
      | _, _ => None
      end
  end.

Fixpoint decode_sextets (l : list Z) : list byte :=
  match l with
  | a :: b :: c :: d :: rest =>
      let n := ((a * 64 + b) * 64 + c) * 64 + d in
      byte_of_Z (n / 65536) :: byte_of_Z (n / 256) :: byte_of_Z n
      :: decode_sextets rest
  | [a; b; c] =>
      let n := ((a * 64 + b) * 64 + c) / 4 in
      [byte_of_Z (n / 256); byte_of_Z n]
  | [a; b] => [byte_of_Z ((a * 64 + b) / 16)]
  | _ => []
  end.

Definition atob (data : jsstring) : option (list byte) :=
  let d1 := filter (fun c => negb (is_ascii_whitespace c)) data in
  let d2 := if (Z.of_nat (length d1) mod 4 =? 0) then strip_padding d1 else d1 in
  if Z.of_nat (length d2) mod 4 =? 1 then None
  else option_map decode_sextets (base64_indices d2).

Definition base64ToArrayBuffer (base64 : jsstring) : option (list byte) :=
  atob base64.

(** ** [TextEncoder.encode] and [TextDecoder.decode] (UTF-8)

    [encode] first converts the string to scalar values: a surrogate that
    is not part of a pair becomes U+FFFD.  [decode] is the decoder of
    [new TextDecoder()]: not fatal (a malformed sequence yields U+FFFD) and
    it drops one leading byte order mark. *)

Definition is_lead_surrogate (c : Z) : bool := (55296 <=? c) && (c <=? 56319).

Definition is_trail_surrogate (c : Z) : bool := (56320 <=? c) && (c <=? 57343).

Fixpoint code_points (s : jsstring) : list Z :=
  match s with
  | [] => []
  | c :: rest =>
      if is_lead_surrogate c then
        match rest with
        | d :: rest' =>
            if is_trail_surrogate d
            then (65536 + (c - 55296) * 1024 + (d - 56320)) :: code_points rest'
            else 65533 :: code_points rest
        | [] => [65533]
        end
      else if is_trail_surrogate c then 65533 :: code_points rest
      else c :: code_points rest
  end.

Definition utf8_encode_code_point (cp : Z) : list byte :=
  if cp <? 128 then [byte_of_Z cp]
  else if cp <? 2048 then
    [byte_of_Z (192 + cp / 64); byte_of_Z (128 + cp mod 64)]
  else if cp <? 65536 then
    [byte_of_Z (224 + cp / 4096); byte_of_Z (128 + cp / 64 mod 64);
     byte_of_Z (128 + cp mod 64)]
  else
    [byte_of_Z (240 + cp / 262144); byte_of_Z (128 + cp / 4096 mod 64);
     byte_of_Z (128 + cp / 64 mod 64); byte_of_Z (128 + cp mod 64)].

Definition TextEncoder_encode (text : jsstring) : list byte :=
  flat_map utf8_encode_code_point (code_points text).

(** The state of the UTF-8 decoder: the code point being assembled, the
    continuation bytes still needed, and the bounds for the next byte. *)
Record utf8_state := {
  u_code_point : Z;
  u_needed : Z;
  u_lower : Z;
  u_upper : Z
}.

Definition utf8_initial : utf8_state :=
  {| u_code_point := 0; u_needed := 0; u_lower := 128; u_upper := 191 |}.

(** A byte read when no sequence is open. *)
Definition utf8_lead (b : Z) : utf8_state * list Z :=
  if b <=? 127 then (utf8_initial, [b])
  else if (194 <=? b) && (b <=? 223) then
    ({| u_code_point := b mod 32; u_needed := 1;
        u_lower := 128; u_upper := 191 |}, [])
  else if (224 <=? b) && (b <=? 239) then
    ({| u_code_point := b mod 16; u_needed := 2;
        u_lower := if b =? 224 then 160 else 128;
        u_upper := if b =? 237 then 159 else 191 |}, [])
  else if (240 <=? b) && (b <=? 244) then
    ({| u_code_point := b mod 8; u_needed := 3;
        u_lower := if b =? 240 then 144 else 128;
        u_upper := if b =? 244 then 143 else 191 |}, [])
  else (utf8_initial, [65533]).

Definition utf8_step (st : utf8_state) (b : Z) : utf8_state * list Z :=
  if u_needed st =? 0 then utf8_lead b
  else if (b <? u_lower st) || (u_upper st <? b) then
    (* the byte is put back and read again with no sequence open *)
    let (st', out) := utf8_lead b in (st', 65533 :: out)
  else
    let cp := u_code_point st * 64 + b mod 64 in
    if u_needed st =? 1 then (utf8_initial, [cp])
    else ({| u_code_point := cp; u_needed := u_needed st - 1;
             u_lower := 128; u_upper := 191 |}, []).

Fixpoint utf8_run (st : utf8_state) (bytes : list byte) : list Z :=
  match bytes with
  | [] => if u_needed st =? 0 then [] else [65533]
  | b :: rest =>
      let (st', out) := utf8_step st (byte_to_Z b) in
      out ++ utf8_run st' rest
  end.

Definition utf16_units (cp : Z) : jsstring :=
  if cp <? 65536 then [cp]
  else [55296 + (cp - 65536) / 1024; 56320 + (cp - 65536) mod 1024].

Definition strip_bom (bytes : list byte) : list byte :=
  match bytes with
  | a :: b :: c :: rest =>
      if (byte_to_Z a =? 239) && (byte_to_Z b =? 187) && (byte_to_Z c =? 191)
      then rest else bytes
  | _ => bytes
  end.

Definition TextDecoder_decode (buffer : list byte) : jsstring :=
  flat_map utf16_units (utf8_run utf8_initial (strip_bom buffer)).

(** A string with no unpaired surrogate ([String.prototype.isWellFormed]). *)
Fixpoint isWellFormed (s : jsstring) : bool :=
  match s with
  | [] => true
  | c :: rest =>
      if is_lead_surrogate c then
        match rest with
        | d :: rest' => is_trail_surrogate d && isWellFormed rest'
        | [] => false
        end
      else negb (is_trail_surrogate c) && isWellFormed rest
  end.

(** ** [src/utils/pinAuth.js]: session obfuscation *)

Section SessionPin.

(** [chrome.runtime.id] *)
Variable extId : jsstring.

Fixpoint getSessionKey_loop (s : jsstring) (i key : Z) : Z :=
  match s with
  | [] => key
  | c :: rest => getSessionKey_loop rest (i + 1) (js_xor key (c * (i + 1)))
  end.

Definition getSessionKey : Z := getSessionKey_loop extId 0 0.

Fixpoint xor_with_key (key i : Z) (codes : list Z) : list Z :=
  match codes with
  | [] => []
  | c :: rest => js_xor c (js_rem (key + i) 256) :: xor_with_key key (i + 1) rest
  end.

Definition encryptSessionPin (pin : jsstring) : jsstring :=
  let bytes := xor_with_key getSessionKey 0 pin in
  concat (map (fun b => padStart2 (toString16 b)) bytes).

(** The [try] never throws on a string, so the [null] of the [catch] is
    not a possible result. *)
Definition decryptSessionPin (encrypted : jsstring) : jsstring :=
  let bytes := map (fun p => nan_to_zero (parseInt16 p)) (substr_pairs encrypted) in
  map ToUint16 (xor_with_key getSessionKey 0 bytes).

End SessionPin.

(** ** The platform's cryptography

    [crypto.subtle] is an interface here: PBKDF2 key derivation, AES-GCM
    with a 96-bit nonce, and the SHA-256 digest.  The one law the vault
    relies on is that AES-GCM decryption inverts encryption under the same
    key and nonce; decryption returns [None] when it rejects its input. *)

Class WebCrypto := {
  CryptoKey : Type;
  pbkdf2_sha256 : list byte -> list byte -> Z -> CryptoKey;
  aes_gcm_encrypt : CryptoKey -> list byte -> list byte -> list byte;
  aes_gcm_decrypt : CryptoKey -> list byte -> list byte -> option (list byte);
  sha256 : list byte -> list byte;
  aes_gcm_decrypt_encrypt :
    forall key nonce data,
      length nonce = 12%nat ->
      aes_gcm_decrypt key nonce (aes_gcm_encrypt key nonce data) = Some data
}.

(** A small instance on which the definitions can be run.  It makes no
    security claim: the key is the PIN bytes followed by the salt and the
    "ciphertext" is the data behind a one-byte checksum of key, nonce and
    data. *)
Module Toy.

Definition checksum (l : list byte) : byte :=
  byte_of_Z (fold_left (fun a b => 31 * a + byte_to_Z b + 7) l 0).

Definition encrypt (key nonce data : list byte) : list byte :=
  checksum (key ++ nonce ++ data) :: data.

Definition decrypt (key nonce data : list byte) : option (list byte) :=
  match data with
  | [] => None
  | tag :: body =>
      if Byte.eqb tag (checksum (key ++ nonce ++ body)) then Some body else None
  end.

Definition derive (pin salt : list byte) (iterations : Z) : list byte :=
  pin ++ salt.

Definition digest (data : list byte) : list byte := [checksum data].

#[export] Instance crypto : WebCrypto.
Proof.
  refine {| CryptoKey := list byte;
            pbkdf2_sha256 := derive;
            aes_gcm_encrypt := encrypt;
            aes_gcm_decrypt := decrypt;
            sha256 := digest |}.
  intros key nonce data _. unfold decrypt, encrypt.
  destruct (Byte.eqb _ _) eqn:E; [reflexivity|].
  apply Byte.eqb_false in E. congruence.
Defined.

End Toy.

(** [crypto.getRandomValues]: the generator is a stream of bytes and a
    position in it; a draw of [n] bytes returns the next [n] and advances. *)
Record rng := {
  entropy : nat -> byte;
  drawn : nat
}.

Definition getRandomValues (n : nat) (g : rng) : list byte * rng :=
  (map (entropy g) (seq (drawn g) n),
   {| entropy := entropy g; drawn := (drawn g + n)%nat |}).

Fixpoint jsstring_eqb (a b : jsstring) : bool :=
  match a, b with
  | [], [] => true
  | x :: a', y :: b' => (x =? y) && jsstring_eqb a' b'
  | _, _ => false
  end.

(** ** The data in [chrome.storage.local] *)

Section Vault.

Context {W : WebCrypto}.

(** The advisory metadata ([riskScore], [riskFactors]) is stored and passed
    around, never inspected. *)
Context {Meta : Type}.

(** A credential as it is stored or shown.  [iv] and [salt] are missing
    on a legacy record and on a decrypted one. *)
Record credential := {
  id : Z;
  site : jsstring;
  username : jsstring;
  password : jsstring;
  iv : option jsstring;
  salt : option jsstring;
  favicon : jsstring;
  riskScore : Meta;
  riskFactors : Meta
}.

(** The value under [rf_pin_session]. *)
Record session := {
  expiry : Z;
  ep : jsstring
}.

(** [rf_creds] is [None] when the key is missing or not an array. *)
Record storage := {
  rf_creds : option (list credential);
  rf_pin_hash : option jsstring;
  rf_pin_session : option session
}.

Definition stored_list (store : storage) : list credential :=
  match rf_creds store with
  | Some l => l
  | None => []
  end.

(** ** [src/utils/encryption.js] *)

Definition deriveKeyFromPin (pin : jsstring) (salt_bytes : list byte) : CryptoKey :=
  pbkdf2_sha256 (TextEncoder_encode pin) salt_bytes 100000.

Definition generateSalt (g : rng) : list byte * rng := getRandomValues 16 g.

Definition generateIV (g : rng) : list byte * rng := getRandomValues 12 g.

Definition encryptText (text : jsstring) (key : CryptoKey) (nonce : list byte)
  : option jsstring :=
  arrayBufferToBase64 (aes_gcm_encrypt key nonce (TextEncoder_encode text)).

Definition decryptText (encryptedText : jsstring) (key : CryptoKey)
  (nonce : list byte) : option jsstring :=
  match base64ToArrayBuffer encryptedText with
  | None => None
  | Some encryptedBuffer =>
      match aes_gcm_decrypt key nonce encryptedBuffer with
      | None => None
      | Some decryptedBuffer => Some (TextDecoder_decode decryptedBuffer)
      end
  end.

(** [None] stands for a rejected promise. *)
Definition encryptCredential (c : credential) (pin : jsstring) (g : rng)
  : option credential * rng :=
  let (salt_bytes, g1) := generateSalt g in
  let (nonce, g2) := generateIV g1 in
  let key := deriveKeyFromPin pin salt_bytes in
  (match encryptText (site c) key nonce with
   | None => None
   | Some encryptedSite =>
       match encryptText (username c) key nonce with
       | None => None
       | Some encryptedUsername =>
           match encryptText (password c) key nonce with
           | None => None
           | Some encryptedPassword =>
               Some {| id := id c;
                       site := encryptedSite;
                       username := encryptedUsername;
                       password := encryptedPassword;
                       iv := Some (arrayBufferToHex nonce);
                       salt := Some (arrayBufferToHex salt_bytes);
                       favicon := favicon c;
                       riskScore := riskScore c;
                       riskFactors := riskFactors c |}
           end
       end
   end, g2).

(** Reading [.length] of a missing [iv] or [salt] throws. *)
Definition decryptCredential (c : credential) (pin : jsstring)
  : option credential :=
  match iv c, salt c with
  | Some iv_hex, Some salt_hex =>
      let nonce := hexToUint8Array iv_hex in
      let key := deriveKeyFromPin pin (hexToUint8Array salt_hex) in
      match decryptText (site c) key nonce with
      | None => None
      | Some site' =>
          match decryptText (username c) key nonce with
          | None => None
          | Some username' =>
              match decryptText (password c) key nonce with
              | None => None
              | Some password' =>
                  Some {| id := id c;
                          site := site';
                          username := username';
                          password := password';
                          iv := None;
                          salt := None;
                          favicon := favicon c;
                          riskScore := riskScore c;
                          riskFactors := riskFactors c |}
              end
          end
      end
  | _, _ => None
  end.

(** ** [src/utils/pinAuth.js] *)

(** [chrome.runtime.id] *)
Variable extId : jsstring.

Definition hashPin (pin : jsstring) : jsstring :=
  arrayBufferToHex (sha256 (TextEncoder_encode pin)).

(** [storedHash] is [undefined] when no PIN was saved. *)
Definition verifyPin (pin : jsstring) (storedHash : option jsstring) : bool :=
  match storedHash with
  | Some h => jsstring_eqb (hashPin pin) h
  | None => false
  end.

Definition isPinSetup (store : storage) : bool :=
  truthy_field (rf_pin_hash store).

Definition savePin (pin : jsstring) (store : storage) : storage :=
  {| rf_creds := rf_creds store;
     rf_pin_hash := Some (hashPin pin);
     rf_pin_session := rf_pin_session store |}.

Definition remove_session (store : storage) : storage :=
  {| rf_creds := rf_creds store;
     rf_pin_hash := rf_pin_hash store;
     rf_pin_session := None |}.

Definition set_session (s : session) (store : storage) : storage :=
  {| rf_creds := rf_creds store;
     rf_pin_hash := rf_pin_hash store;
     rf_pin_session := Some s |}.

Definition isSessionUnlocked (store : storage) (now : Z) : bool * storage :=
  match rf_pin_session store with
  | None => (false, store)
  | Some s =>
      if now >? expiry s then (false, remove_session store) else (true, store)
  end.

Definition SESSION_DURATION_MINUTES : Z := 30.

Definition createSession (pin : jsstring) (now : Z) (store : storage) : storage :=
  set_session {| expiry := now + SESSION_DURATION_MINUTES * 60 * 1000;
                 ep := encryptSessionPin extId pin |} store.

(** The PIN handed to the callback ([None] for [null]) and the storage
    afterwards. *)
Definition getSessionPin (store : storage) (now : Z) : option jsstring * storage :=
  match rf_pin_session store with
  | None => (None, store)
  | Some s =>
      if now >? expiry s then (None, remove_session store)
      else if negb (truthy (ep s)) then (None, store)
      else (Some (decryptSessionPin extId (ep s)), store)
  end.

Definition clearSession (store : storage) : storage := remove_session store.

(** [Date.now()] is read once in [getSessionPin] and once more in
    [createSession]. *)
Definition extendSession (store : storage) (now now' : Z) : storage :=
  match getSessionPin store now with
  | (Some pin, store') =>
      if truthy pin then createSession pin now' store' else store'
  | (None, store') => store'
  end.

(** ** [src/components/PinSetup.jsx] *)

(** The three messages of [setError]: "PIN must be 4-6 digits", "PIN must
    contain only numbers", "PINs do not match". *)
Inductive pin_setup_error :=
| PinMustBe4To6Digits
| PinMustContainOnlyNumbers
| PinsDoNotMatch.

Definition is_digit (c : Z) : bool := (48 <=? c) && (c <=? 57).

(** [/^\d+$/.test(pin)] *)
Definition all_digits (pin : jsstring) : bool :=
  truthy pin && forallb is_digit pin.

(** [inr pin] is the call [onPinSet(pin)]. *)
Definition handleSubmit (pin confirmPin : jsstring) : pin_setup_error + jsstring :=
  if (Z.of_nat (length pin) <? 4) || (Z.of_nat (length pin) >? 6)
  then inl PinMustBe4To6Digits
  else if negb (all_digits pin) then inl PinMustContainOnlyNumbers
  else if negb (jsstring_eqb pin confirmPin) then inl PinsDoNotMatch
  else inr pin.

(** ** [src/RFPasswordManagerPopup.jsx]: the popup component *)

Record popup := {
  pinSetupRequired : bool;
  pinUnlocked : bool;
  pinPromptVisible : bool;
  currentPin : option jsstring;
  credentials : list credential;
  tamperedCount : Z
}.

(** [handlePinSetup], the [onPinSet] of the setup form. *)
Definition handlePinSetup (pin : jsstring) (now : Z) (ui : popup) (store : storage)
  : popup * storage :=
  let store1 := savePin pin store in
  let store2 := createSession pin now store1 in
  ({| pinSetupRequired := false;
      pinUnlocked := true;
      pinPromptVisible := pinPromptVisible ui;
      currentPin := Some pin;
      credentials := credentials ui;
      tamperedCount := tamperedCount ui |}, store2).

(** Submitting the setup form: the error shown, if any, with the popup
    and the storage afterwards. *)
Definition enroll (pin confirmPin : jsstring) (now : Z) (ui : popup)
  (store : storage) : option pin_setup_error * popup * storage :=
  match handleSubmit pin confirmPin with
  | inl e => (Some e, ui, store)
  | inr p => let (ui', store') := handlePinSetup p now ui store in (None, ui', store')
  end.

(** [cred.iv && cred.salt] *)
Definition is_encrypted (c : credential) : bool :=
  truthy_field (iv c) && truthy_field (salt c).

(** [!cred.iv && !cred.salt && cred.password] *)
Definition is_plaintext (c : credential) : bool :=
  negb (truthy_field (iv c)) && negb (truthy_field (salt c)) && truthy (password c).

(** The decryption loop of the load effect. *)
Fixpoint load_decrypt (pin : jsstring) (creds : list credential)
  (decryptedList : list credential) (tamperedCredentials : Z)
  : list credential * Z :=
  match creds with
  | [] => (decryptedList, tamperedCredentials)
  | cred :: rest =>
      if is_encrypted cred then
        match decryptCredential cred pin with
        | Some decrypted =>
            load_decrypt pin rest (decryptedList ++ [decrypted]) tamperedCredentials
        | None =>
            load_decrypt pin rest decryptedList (tamperedCredentials + 1)
        end
      else load_decrypt pin rest (decryptedList ++ [cred]) tamperedCredentials
  end.

(** The encryption loop of the migration; a failed encryption is
    skipped. *)
Fixpoint migrate_encrypt (pin : jsstring) (plaintextCreds : list credential)
  (encryptedMigrated : list credential) (g : rng) : list credential * rng :=
  match plaintextCreds with
  | [] => (encryptedMigrated, g)
  | plainCred :: rest =>
      match encryptCredential plainCred pin g with
      | (Some encrypted, g') =>
          migrate_encrypt pin rest (encryptedMigrated ++ [encrypted]) g'
      | (None, g') => migrate_encrypt pin rest encryptedMigrated g'
      end
  end.

(** The callback of [currentStorageList.map]. *)
Definition replace_migrated (encryptedMigrated : list credential)
  (cred : credential) : credential :=
  if is_plaintext cred then
    match find (fun e => id e =? id cred) encryptedMigrated with
    | Some encrypted => encrypted
    | None => cred
    end
  else cred.

(** The migration block: the list written to [rf_creds], if one is
    written, and the generator afterwards.  [shown] is the display list,
    [stored] the list read from storage when the effect started. *)
Definition migrate (pin : option jsstring) (stored shown : list credential)
  (g : rng) : option (list credential) * rng :=
  let plaintextCreds := filter is_plaintext shown in
  match plaintextCreds, pin with
  | _ :: _, Some p =>
      if truthy p then
        let (encryptedMigrated, g') := migrate_encrypt p plaintextCreds [] g in
        match encryptedMigrated with
        | _ :: _ => (Some (map (replace_migrated encryptedMigrated) stored), g')
        | [] => (None, g')
        end
      else (None, g)
  | _, _ => (None, g)
  end.

Definition write_creds (written : option (list credential)) (store : storage)
  : storage :=
  match written with
  | Some l => {| rf_creds := Some l;
                 rf_pin_hash := rf_pin_hash store;
                 rf_pin_session := rf_pin_session store |}
  | None => store
  end.

(** What one run of the load effect with a PIN in hand computes: the
    display list, the count of rejected records, and the list written
    back by the migration. *)
Record loaded := {
  visible : list credential;
  tampered : Z;
  migrated : option (list credential);
  rng_after : rng
}.

Definition load (pin : jsstring) (stored : list credential) (g : rng) : loaded :=
  let (shown, tamperedCredentials) :=
    match stored with
    | _ :: _ => load_decrypt pin stored [] 0
    | [] => (stored, 0)
    end in
  let (written, g') := migrate (Some pin) stored shown g in
  {| visible := shown; tampered := tamperedCredentials;
     migrated := written; rng_after := g' |}.

(** The load effect of the component. *)
Definition loadEffect (ui : popup) (store : storage) (now : Z) (g : rng)
  : popup * storage * rng :=
  if negb (pinUnlocked ui) then (ui, store, g)
  else
    let stored := stored_list store in
    let (session_pin, store1) := getSessionPin store now in
    match session_pin with
    | Some pin =>
        if truthy pin then
          let r := load pin stored g in
          ({| pinSetupRequired := pinSetupRequired ui;
              pinUnlocked := pinUnlocked ui;
              pinPromptVisible := pinPromptVisible ui;
              currentPin := Some pin;
              credentials := visible r;
              tamperedCount :=
                if tampered r >? 0 then tampered r else tamperedCount ui |},
           write_creds (migrated r) store1, rng_after r)
        else
          if existsb is_encrypted stored then
            ({| pinSetupRequired := pinSetupRequired ui;
                pinUnlocked := pinUnlocked ui;
                pinPromptVisible := true;
                currentPin := currentPin ui;
                credentials := credentials ui;
                tamperedCount := tamperedCount ui |}, store1, g)
          else
            ({| pinSetupRequired := pinSetupRequired ui;
                pinUnlocked := pinUnlocked ui;
                pinPromptVisible := pinPromptVisible ui;
                currentPin := currentPin ui;
                credentials := stored;
                tamperedCount := tamperedCount ui |}, store1, g)
    | None =>
        if existsb is_encrypted stored then
          ({| pinSetupRequired := pinSetupRequired ui;
              pinUnlocked := pinUnlocked ui;
              pinPromptVisible := true;
              currentPin := currentPin ui;
              credentials := credentials ui;
              tamperedCount := tamperedCount ui |}, store1, g)
        else
          ({| pinSetupRequired := pinSetupRequired ui;
              pinUnlocked := pinUnlocked ui;
              pinPromptVisible := pinPromptVisible ui;
              currentPin := currentPin ui;
              credentials := stored;
              tamperedCount := tamperedCount ui |}, store1, g)
    end.

(** The display loop of [performSave]. *)
Fixpoint save_decrypt (pin : jsstring) (finalStorageList : list credential)
  (decryptedForDisplay : list credential) : list credential :=
  match finalStorageList with
  | [] => decryptedForDisplay
  | cred :: rest =>
      if is_encrypted cred then
        match decryptCredential cred pin with
        | Some dec => save_decrypt pin rest (decryptedForDisplay ++ [dec])
        | None => save_decrypt pin rest (decryptedForDisplay ++ [cred])
        end
      else save_decrypt pin rest (decryptedForDisplay ++ [cred])
  end.

Fixpoint trim_start (s : jsstring) : jsstring :=
  match s with
  | [] => []
  | c :: rest => if is_js_whitespace c then trim_start rest else s
  end.

Definition trim (s : jsstring) : jsstring :=
  rev (trim_start (rev (trim_start s))).

Definition is_alphanumeric (c : Z) : bool :=
  ((65 <=? c) && (c <=? 90)) || ((97 <=? c) && (c <=? 122)) || is_digit c.

(** The password check at the head of [performSave]. *)
Definition password_accepted (form_password : jsstring) : bool :=
  let pwd := trim form_password in
  truthy pwd && (6 <=? Z.of_nat (length pwd))
  && existsb is_digit pwd && existsb (fun c => negb (is_alphanumeric c)) pwd.

(** The fields of the save form. *)
Record form := {
  form_site : jsstring;
  form_username : jsstring;
  form_password : jsstring
}.

(** [performSave].  The normalised site and the favicon come from the
    [URL] parser and are arguments here, as are the risk score and
    factors taken from [siteRisk].  The result is [None] when the
    password is refused or the encryption fails; otherwise the list
    written to [rf_creds] and the list handed to [setCredentials]. *)
Definition performSave (f : form) (normalizedSite favicon_url : jsstring)
  (score factors : Meta) (pin : jsstring) (now : Z)
  (store : storage) (g : rng)
  : option (list credential * list credential) * rng :=
  if negb (password_accepted (form_password f)) then (None, g)
  else
    let newCred := {| id := now;
                      site := normalizedSite;
                      username := form_username f;
                      password := form_password f;
                      iv := None;
                      salt := None;
                      favicon := favicon_url;
                      riskScore := score;
                      riskFactors := factors |} in
    match encryptCredential newCred pin g with
    | (None, g') => (None, g')
    | (Some encryptedCred, g') =>
        let finalStorageList := encryptedCred :: stored_list store in
        (Some (finalStorageList, save_decrypt pin finalStorageList []), g')
    end.

(** The loop of [onClearCorrupted]. *)
Fixpoint purge (pin : jsstring) (storedList : list credential)
  (validCredentials : list credential) (removedCount : Z)
  : list credential * Z :=
  match storedList with
  | [] => (validCredentials, removedCount)
  | cred :: rest =>
      if is_encrypted cred then
        match decryptCredential cred pin with
        | Some _ => purge pin rest (validCredentials ++ [cred]) removedCount
        | None => purge pin rest validCredentials (removedCount + 1)
        end
      else purge pin rest (validCredentials ++ [cred]) removedCount
  end.

(** [onClearCorrupted]: the cleaned list is written, the count is reset
    and the load effect is triggered again; it runs at [now']. *)
Definition onClearCorrupted (ui : popup) (store : storage) (now now' : Z)
  (g : rng) : popup * storage * rng :=
  let (session_pin, store1) := getSessionPin store now in
  match session_pin with
  | Some pin =>
      if truthy pin then
        let (validCredentials, removedCount) := purge pin (stored_list store) [] 0 in
        let ui1 := {| pinSetupRequired := pinSetupRequired ui;
                      pinUnlocked := pinUnlocked ui;
                      pinPromptVisible := pinPromptVisible ui;
                      currentPin := currentPin ui;
                      credentials := credentials ui;
                      tamperedCount := 0 |} in
        loadEffect ui1 (write_creds (Some validCredentials) store1) now' g
      else (ui, store1, g)
  | None => (ui, store1, g)
  end.

End Vault.

Arguments credential : clear implicits.
Arguments storage : clear implicits.
Arguments popup : clear implicits.
Arguments loaded : clear implicits.

(** ** The specification's vocabulary *)

(** The PIN policy in the words of the specification: 4 to 6 characters,
    each of them a decimal digit. *)
Definition pin_policy (pin : jsstring) : bool :=
  (4 <=? Z.of_nat (length pin)) && (Z.of_nat (length pin) <=? 6)
  && forallb is_digit pin.

(** The specification's [InvalidPinFormat]: the two messages about the
    shape of the PIN, not the one about the confirmation field. *)
Definition InvalidPinFormat (e : pin_setup_error) : bool :=
  match e with
  | PinMustBe4To6Digits | PinMustContainOnlyNumbers => true
  | PinsDoNotMatch => false
  end.

(** The validity test the code applies to a stored session. *)
Definition session_valid {Meta : Type} (store : storage Meta) (now : Z) : bool :=
  match rf_pin_session store with
  | Some s => negb (now >? expiry s)
  | None => false
  end.

(** ** Auxiliary notions for the proofs *)

(** The two characters [b.toString(16).padStart(2, '0')] of a byte. *)
Definition hex_of_byte (b : byte) : jsstring := padStart2 (toString16 (byte_to_Z b)).

Definition is_byte_value (v : Z) : Prop := 0 <= v < 256.

(** The 6-bit groups that base64 writes for a buffer, before padding. *)
Fixpoint sextets (bytes : list byte) : list Z :=
  match bytes with
  | [] => []
  | [a] =>
      let n := byte_to_Z a in [n / 4; n mod 4 * 16]
  | [a; b] =>
      let n := 256 * byte_to_Z a + byte_to_Z b in
      [n / 1024; n / 16 mod 64; n mod 16 * 4]
  | a :: b :: c :: rest =>
      let n := 65536 * byte_to_Z a + 256 * byte_to_Z b + byte_to_Z c in
      n / 262144 :: n / 4096 mod 64 :: n / 64 mod 64 :: n mod 64 :: sextets rest
  end.

(** A Unicode scalar value: a code point that is not a surrogate. *)
Definition is_scalar_value (cp : Z) : Prop :=
  0 <= cp < 55296 \/ 57344 <= cp < 1114112.

(** The string begins with U+FEFF. *)
Definition starts_with_bom (s : jsstring) : bool :=
  match s with
  | c :: _ => c =? 65279
  | [] => false
  end.

(** A string that [TextEncoder] and [TextDecoder] carry unchanged: 16-bit
    code units, no unpaired surrogate, no U+FEFF in front. *)
Definition text_safe (s : jsstring) : Prop :=
  wf_jsstring s /\ isWellFormed s = true /\ starts_with_bom s = false.

(** The record [encryptCredential] builds from the bytes it draws. *)
Definition encrypted_with {W : WebCrypto} {Meta : Type} (c : credential Meta)
  (pin : jsstring) (salt_bytes nonce : list byte) : credential Meta :=
  let key := deriveKeyFromPin pin salt_bytes in
  let enc text := base64_encode (aes_gcm_encrypt key nonce (TextEncoder_encode text)) in
  {| id := id c;
     site := enc (site c);
     username := enc (username c);
     password := enc (password c);
     iv := Some (arrayBufferToHex nonce);
     salt := Some (arrayBufferToHex salt_bytes);
     favicon := favicon c;
     riskScore := riskScore c;
     riskFactors := riskFactors c |}.

(** [decryptCredential(encryptCredential(c, pin), pin)] *)
Definition decrypt_after_encrypt {W : WebCrypto} {Meta : Type}
  (c : credential Meta) (pin : jsstring) (g : rng) : option (credential Meta) :=
  match fst (encryptCredential c pin g) with
  | Some e => decryptCredential e pin
  | None => None
  end.

(** How the load effect shows one stored record: decrypted, verbatim, or
    not at all. *)
Definition shown_as {W : WebCrypto} {Meta : Type} (pin : jsstring)
  (c : credential Meta) : list (credential Meta) :=
  if is_encrypted c then
    match decryptCredential c pin with
    | Some d => [d]
    | None => []
    end
  else [c].

(** An encrypted record that the PIN does not open. *)
Definition rejected {W : WebCrypto} {Meta : Type} (pin : jsstring)
  (c : credential Meta) : bool :=
  is_encrypted c &&
  match decryptCredential c pin with
  | Some _ => false
  | None => true
  end.

(** An encrypted record that the PIN opens. *)
Definition opened {W : WebCrypto} {Meta : Type} (pin : jsstring)
  (c : credential Meta) : bool :=
  is_encrypted c &&
  match decryptCredential c pin with
  | Some _ => true
  | None => false
  end.

(** How [performSave] shows one record of the list it has written. *)
Definition saved_as {W : WebCrypto} {Meta : Type} (pin : jsstring)
  (c : credential Meta) : credential Meta :=
  if is_encrypted c then
    match decryptCredential c pin with
    | Some d => d
    | None => c
    end
  else c.

(** A record that the load effect neither decrypts nor migrates: exactly
    one of [iv] and [salt] is truthy, or neither is and the password is
    falsy. *)
Definition unclassified {Meta : Type} (c : credential Meta) : Prop :=
  (truthy_field (iv c) = true /\ truthy_field (salt c) = false)
  \/ (truthy_field (iv c) = false /\ truthy_field (salt c) = true)
  \/ (truthy_field (iv c) = false /\ truthy_field (salt c) = false
      /\ truthy (password c) = false).

(** The list under [rf_creds] once a load has run. *)
Definition persisted_after {Meta : Type} (stored : list (credential Meta))
  (r : loaded Meta) : list (credential Meta) :=
  match migrated r with
  | Some l => l
  | None => stored
  end.

(** [e] is [c] as [encryptCredential] writes it under [pin], for some
    draw of 16 salt bytes and 12 nonce bytes. *)
Definition encryption_of {W : WebCrypto} {Meta : Type} (pin : jsstring)
  (c e : credential Meta) : Prop :=
  exists salt_bytes nonce,
    length salt_bytes = 16%nat /\ length nonce = 12%nat
    /\ e = encrypted_with c pin salt_bytes nonce.

(** What the migration makes of one stored record: a record picked by the
    migration filter gives way to an encrypted record with its id that the
    PIN opens, any other record stays. *)
Definition migrated_from {W : WebCrypto} {Meta : Type} (pin : jsstring)
  (c c' : credential Meta) : Prop :=
  if is_plaintext c
  then is_encrypted c' = true /\ id c' = id c /\ decryptCredential c' pin <> None
  else c' = c.

(** ** Data for the examples *)

Module Example.

(** An extension id: 32 letters between [a] and [p]. *)
Definition extId : jsstring :=
  [97; 98; 99; 100; 101; 102; 103; 104; 105; 106; 107; 108; 109; 110; 111; 112;
   112; 111; 110; 109; 108; 107; 106; 105; 104; 103; 102; 101; 100; 99; 98; 97].

(** ["1234"] and ["4321"] *)
Definition pin : jsstring := [49; 50; 51; 52].

Definition other_pin : jsstring := [52; 51; 50; 49].

Definition empty_storage : storage unit :=
  {| rf_creds := None; rf_pin_hash := None; rf_pin_session := None |}.

Definition locked_popup : popup unit :=
  {| pinSetupRequired := true; pinUnlocked := false; pinPromptVisible := false;
     currentPin := None; credentials := []; tamperedCount := 0 |}.

Definition generator : rng :=
  {| entropy := fun n => byte_of_Z (Z.of_nat n * 37 + 11); drawn := 0 |}.

(** A legacy record for ["gmail.com"], ["a@b.com"], ["Abc123!"]. *)
Definition legacy : credential unit :=
  {| id := 1;
     site := [103; 109; 97; 105; 108; 46; 99; 111; 109];
     username := [97; 64; 98; 46; 99; 111; 109];
     password := [65; 98; 99; 49; 50; 51; 33];
     iv := None; salt := None;
     favicon := []; riskScore := tt; riskFactors := tt |}.

(** The same record with the site ["\uFEFFa"], and with the site
    ["\uD800"], a lead surrogate on its own. *)
Definition with_site (s : jsstring) : credential unit :=
  {| id := id legacy; site := s; username := username legacy;
     password := password legacy; iv := None; salt := None;
     favicon := favicon legacy; riskScore := tt; riskFactors := tt |}.

Definition bom_site : credential unit := with_site [65279; 97].

Definition surrogate_site : credential unit := with_site [55296].

(** The legacy record as another PIN encrypts it. *)
Definition foreign : credential unit :=
  encrypted_with (W := Toy.crypto) legacy other_pin
    (fst (getRandomValues 16 generator))
    (fst (getRandomValues 12 (snd (getRandomValues 16 generator)))).

(** A stored record with an [iv] and a [salt] whose [site] was
    overwritten with ["!"], which is not base64. *)
Definition garbled : credential unit :=
  {| id := 4; site := [33]; username := username foreign;
     password := password foreign; iv := iv foreign; salt := salt foreign;
     favicon := []; riskScore := tt; riskFactors := tt |}.

(** The same record with an [iv] field that holds the empty string:
    both fields are there, [cred.iv && cred.salt] is falsy. *)
Definition garbled_empty_iv : credential unit :=
  {| id := 5; site := [33]; username := username foreign;
     password := password foreign; iv := Some []; salt := salt foreign;
     favicon := []; riskScore := tt; riskFactors := tt |}.

(** A legacy record with an empty password, and a record that has an
    [iv] field holding the empty string and no [salt]. *)
Definition empty_password : credential unit :=
  {| id := 2; site := site legacy; username := username legacy;
     password := []; iv := None; salt := None;
     favicon := []; riskScore := tt; riskFactors := tt |}.

Definition empty_iv : credential unit :=
  {| id := 3; site := site legacy; username := username legacy;
     password := password legacy; iv := Some []; salt := None;
     favicon := []; riskScore := tt; riskFactors := tt |}.

Definition save_form : form :=
  {| form_site := site legacy; form_username := username legacy;
     form_password := password legacy |}.

Definition storage_with (l : list (credential unit)) : storage unit :=
  {| rf_creds := Some l; rf_pin_hash := None; rf_pin_session := None |}.

End Example.

(** * The code around the vault core

    The event log, the unlock prompt, deletion, the gate in front of
    [performSave], and the login score of the content script. *)

(** ** [src/utils/eventLogger.js] *)

(** The values of the [EventTypes] object.  A property the object does not
    have reads as [undefined], which is [None] here; the popup logs
    rejected and purged credentials under [EventTypes.SECURITY_THREAT],
    and the object has no such key. *)
Module EventTypes.

Import Stdlib.Strings.String.

Definition js (s : string) : jsstring :=
  List.map (fun a => Z.of_nat (Ascii.nat_of_ascii a)) (list_ascii_of_string s).

Definition PASSWORD_SAVED : jsstring := js "password_saved".
Definition PASSWORD_DELETED : jsstring := js "password_deleted".
Definition PASSWORD_AUTOFILLED : jsstring := js "password_autofilled".
Definition PASSWORD_COPIED : jsstring := js "password_copied".
Definition PASSWORD_REVEALED : jsstring := js "password_revealed".
Definition PHISHING_DETECTED : jsstring := js "phishing_detected".
Definition SITE_VERIFIED_SAFE : jsstring := js "site_verified_safe".
Definition AUTOFILL_BLOCKED : jsstring := js "autofill_blocked".
Definition PIN_CREATED : jsstring := js "pin_created".
Definition PIN_VERIFIED : jsstring := js "pin_verified".
Definition PIN_FAILED : jsstring := js "pin_failed".
Definition SESSION_EXPIRED : jsstring := js "session_expired".
Definition MANAGER_ENABLED : jsstring := js "manager_enabled".
Definition MANAGER_DISABLED : jsstring := js "manager_disabled".
Definition VAULT_LOCKED : jsstring := js "vault_locked".
Definition VAULT_UNLOCKED : jsstring := js "vault_unlocked".

Definition SECURITY_THREAT : option jsstring := None.

End EventTypes.

Section EventLog.

(** The context object spread into an entry ([domain], [url],
    [riskScore], ...).  No caller passes a key that would overwrite [id],
    [timestamp] or [event]. *)
Context {Data : Type}.

(** An entry of [rf_event_logs].  The timestamp is the instant in
    milliseconds that the stored ISO string denotes; the id is the text
    built from [Date.now()] and [Math.random()]. *)
Record log_entry := {
  log_id : jsstring;
  log_timestamp : Z;
  log_event : option jsstring;
  log_data : Data
}.

Definition MAX_LOGS : nat := 500.

(** [Array.isArray(result.rf_event_logs) ? result.rf_event_logs : []] *)
Definition stored_logs (rf_event_logs : option (list log_entry)) : list log_entry :=
  match rf_event_logs with
  | Some logs => logs
  | None => []
  end.

(** [logEvent]: the list written back to [rf_event_logs]. *)
Definition logEvent (eventType : option jsstring) (data : Data)
  (ident : jsstring) (now : Z) (rf_event_logs : option (list log_entry))
  : list log_entry :=
  let logEntry := {| log_id := ident; log_timestamp := now;
                     log_event := eventType; log_data := data |} in
  let logs := logEntry :: stored_logs rf_event_logs in
  if (MAX_LOGS <? length logs)%nat then firstn MAX_LOGS logs else logs.

Definition getEventLogs (rf_event_logs : option (list log_entry)) : list log_entry :=
  stored_logs rf_event_logs.

(** [===] and the comparison of [includes] on event types. *)
Definition event_eqb (a b : option jsstring) : bool :=
  match a, b with
  | Some x, Some y => jsstring_eqb x y
  | None, None => true
  | _, _ => false
  end.

(** [eventTypes] is the array, a single type being the array of it. *)
Definition getLogsByType (eventTypes : list (option jsstring))
  (rf_event_logs : option (list log_entry)) : list log_entry :=
  filter (fun log => existsb (event_eqb (log_event log)) eventTypes)
         (getEventLogs rf_event_logs).

Definition getLogsByDateRange (startDate endDate : Z)
  (rf_event_logs : option (list log_entry)) : list log_entry :=
  filter (fun log => (startDate <=? log_timestamp log)
                     && (log_timestamp log <=? endDate))
         (getEventLogs rf_event_logs).

Definition getSecurityLogs (rf_event_logs : option (list log_entry))
  : list log_entry :=
  getLogsByType [Some EventTypes.PHISHING_DETECTED;
                 Some EventTypes.AUTOFILL_BLOCKED;
                 Some EventTypes.PIN_FAILED] rf_event_logs.

Record log_stats := {
  totalLogs : Z;
  passwordsSaved : Z;
  passwordsDeleted : Z;
  autofillsPerformed : Z;
  phishingDetections : Z;
  autofillsBlocked : Z;
  safeSitesVerified : Z;
  pinFailures : Z
}.

(** [logs.filter(l => l.event === t).length] *)
Definition count_event (t : jsstring) (logs : list log_entry) : Z :=
  Z.of_nat (length (filter (fun l => event_eqb (log_event l) (Some t)) logs)).

Definition getLogStats (rf_event_logs : option (list log_entry)) : log_stats :=
  let logs := getEventLogs rf_event_logs in
  {| totalLogs := Z.of_nat (length logs);
     passwordsSaved := count_event EventTypes.PASSWORD_SAVED logs;
     passwordsDeleted := count_event EventTypes.PASSWORD_DELETED logs;
     autofillsPerformed := count_event EventTypes.PASSWORD_AUTOFILLED logs;
     phishingDetections := count_event EventTypes.PHISHING_DETECTED logs;
     autofillsBlocked := count_event EventTypes.AUTOFILL_BLOCKED logs;
     safeSitesVerified := count_event EventTypes.SITE_VERIFIED_SAFE logs;
     pinFailures := count_event EventTypes.PIN_FAILED logs |}.

Definition clearEventLogs : option (list log_entry) := Some [].

(** A call of [logEvent]: its arguments with the id and the clock it
    reads. *)
Record log_call := {
  call_event : option jsstring;
  call_data : Data;
  call_id : jsstring;
  call_now : Z
}.

Definition entry_of (c : log_call) : log_entry :=
  {| log_id := call_id c; log_timestamp := call_now c;
     log_event := call_event c; log_data := call_data c |}.

(** Calls of [logEvent] one after the other, each reading what the one
    before wrote. *)
Fixpoint logEvents (calls : list log_call)
  (rf_event_logs : option (list log_entry)) : option (list log_entry) :=
  match calls with
  | [] => rf_event_logs
  | c :: rest =>
      logEvents rest
        (Some (logEvent (call_event c) (call_data c) (call_id c) (call_now c)
                 rf_event_logs))
  end.

End EventLog.

Arguments log_entry : clear implicits.
Arguments log_call : clear implicits.

(** ** [src/components/PinPrompt.jsx] and [handlePinUnlock] *)

(** The messages of the prompt: "Please enter your PIN", "Incorrect PIN
    (n/3 attempts)", "Too many failed attempts. Please try again later." *)
Inductive prompt_error :=
| PleaseEnterYourPin
| IncorrectPin (newAttempts : Z)
| TooManyFailedAttempts.

(** The state of the prompt; [cancel_scheduled] is the pending
    [setTimeout(onCancel, 2000)]. *)
Record pin_prompt := {
  prompt_pin : jsstring;
  prompt_error_shown : option prompt_error;
  attempts : Z;
  cancel_scheduled : bool
}.

Definition initial_prompt : pin_prompt :=
  {| prompt_pin := []; prompt_error_shown := None; attempts := 0;
     cancel_scheduled := false |}.

(** [disabled={attempts >= 3}] on the input and on the button. *)
Definition prompt_disabled (p : pin_prompt) : bool := attempts p >=? 3.

(** The callback handed to [onUnlock]. *)
Definition prompt_after (p : pin_prompt) (success : bool) : pin_prompt :=
  if success then
    {| prompt_pin := []; prompt_error_shown := None; attempts := 0;
       cancel_scheduled := cancel_scheduled p |}
  else
    let newAttempts := attempts p + 1 in
    if newAttempts >=? 3 then
      {| prompt_pin := []; prompt_error_shown := Some TooManyFailedAttempts;
         attempts := newAttempts; cancel_scheduled := true |}
    else
      {| prompt_pin := []; prompt_error_shown := Some (IncorrectPin newAttempts);
         attempts := newAttempts; cancel_scheduled := cancel_scheduled p |}.

Section Unlocking.

Context {W : WebCrypto} {Meta Data : Type}.

(** [chrome.runtime.id] and the [{}] that [logEvent] takes by default. *)
Variable extId : jsstring.
Variable no_data : Data.

(** The display loop of [handlePinUnlock]. *)
Fixpoint unlock_decrypt (pin : jsstring) (creds : list (credential Meta))
  (decryptedList : list (credential Meta)) : list (credential Meta) :=
  match creds with
  | [] => decryptedList
  | cred :: rest =>
      if is_encrypted cred then
        match decryptCredential cred pin with
        | Some d => unlock_decrypt pin rest (decryptedList ++ [d])
        | None => unlock_decrypt pin rest (decryptedList ++ [cred])
        end
      else unlock_decrypt pin rest (decryptedList ++ [cred])
  end.

(** What [handlePinUnlock] leaves behind. *)
Record unlocked := {
  unlock_valid : bool;
  unlock_popup : popup Meta;
  unlock_storage : storage Meta;
  unlock_logs : option (list (log_entry Data))
}.

(** [handlePinUnlock], with the id that [logEvent] draws and the two
    readings of the clock, [now] in [createSession] and [log_now] in
    [logEvent].  The fields of
    the component that [popup] does not have ([vaultLocked],
    [autofillEnabled], the pending action) are left out; the display list
    is the one set by the load inside the handler. *)
Definition handlePinUnlock (pin : jsstring) (now log_now : Z) (ident : jsstring)
  (ui : popup Meta) (store : storage Meta)
  (rf_event_logs : option (list (log_entry Data))) : unlocked :=
  if verifyPin pin (rf_pin_hash store) then
    let stored := stored_list store in
    {| unlock_valid := true;
       unlock_popup :=
         {| pinSetupRequired := pinSetupRequired ui;
            pinUnlocked := true;
            pinPromptVisible := false;
            currentPin := Some pin;
            credentials :=
              match stored with
              | _ :: _ => unlock_decrypt pin stored []
              | [] => []
              end;
            tamperedCount := tamperedCount ui |};
       unlock_storage := createSession extId pin now store;
       unlock_logs :=
         Some (logEvent (Some EventTypes.PIN_VERIFIED) no_data ident log_now
                 rf_event_logs) |}
  else
    {| unlock_valid := false;
       unlock_popup := ui;
       unlock_storage := store;
       unlock_logs :=
         Some (logEvent (Some EventTypes.PIN_FAILED) no_data ident log_now
                 rf_event_logs) |}.

(** The prompt with the popup, the storage and the log it acts on. *)
Record prompt_world := {
  w_prompt : pin_prompt;
  w_popup : popup Meta;
  w_storage : storage Meta;
  w_logs : option (list (log_entry Data))
}.

(** [handleSubmit] of the prompt with [handlePinUnlock] as [onUnlock]. *)
Definition PinPrompt_handleSubmit (now log_now : Z) (ident : jsstring)
  (w : prompt_world) : prompt_world :=
  let p := w_prompt w in
  if negb (truthy (prompt_pin p)) then
    {| w_prompt := {| prompt_pin := prompt_pin p;
                      prompt_error_shown := Some PleaseEnterYourPin;
                      attempts := attempts p;
                      cancel_scheduled := cancel_scheduled p |};
       w_popup := w_popup w; w_storage := w_storage w; w_logs := w_logs w |}
  else
    let r := handlePinUnlock (prompt_pin p) now log_now ident (w_popup w)
               (w_storage w) (w_logs w) in
    {| w_prompt := prompt_after p (unlock_valid r);
       w_popup := unlock_popup r;
       w_storage := unlock_storage r;
       w_logs := unlock_logs r |}.

(** The user types [pin] and submits. *)
Definition type_and_submit (pin : jsstring) (now log_now : Z) (ident : jsstring)
  (w : prompt_world) : prompt_world :=
  PinPrompt_handleSubmit now log_now ident
    {| w_prompt := {| prompt_pin := pin;
                      prompt_error_shown := prompt_error_shown (w_prompt w);
                      attempts := attempts (w_prompt w);
                      cancel_scheduled := cancel_scheduled (w_prompt w) |};
       w_popup := w_popup w; w_storage := w_storage w; w_logs := w_logs w |}.

(** Submissions one after the other: the PIN typed, the two readings of
    the clock and the log id of each. *)
Fixpoint submissions (tries : list (jsstring * Z * Z * jsstring))
  (w : prompt_world) : prompt_world :=
  match tries with
  | [] => w
  | (pin, now, log_now, ident) :: rest =>
      submissions rest (type_and_submit pin now log_now ident w)
  end.

(** ** [onDelete] *)

(** [onDelete]: [persist] writes the filtered list, the display list is
    filtered the same way, and the deletion is logged when the record was
    on display. *)
Definition onDelete (ident_deleted : Z) (log_ident : jsstring) (now : Z)
  (domain_data : jsstring -> Data)
  (ui : popup Meta) (store : storage Meta)
  (rf_event_logs : option (list (log_entry Data)))
  : popup Meta * storage Meta * option (list (log_entry Data)) :=
  let deletedCred := find (fun c => id c =? ident_deleted) (credentials ui) in
  let filteredEncrypted :=
    filter (fun c => negb (id c =? ident_deleted)) (stored_list store) in
  let filteredDecrypted :=
    filter (fun c => negb (id c =? ident_deleted)) (credentials ui) in
  ({| pinSetupRequired := pinSetupRequired ui;
      pinUnlocked := pinUnlocked ui;
      pinPromptVisible := pinPromptVisible ui;
      currentPin := currentPin ui;
      credentials := filteredDecrypted;
      tamperedCount := tamperedCount ui |},
   write_creds (Some filteredEncrypted) store,
   match deletedCred with
   | Some c =>
       Some (logEvent (Some EventTypes.PASSWORD_DELETED) (domain_data (site c))
               log_ident now rf_event_logs)
   | None => rf_event_logs
   end).

End Unlocking.

Arguments unlocked : clear implicits.
Arguments prompt_world : clear implicits.

(** ** [onCheckSite], [onSaveCredential] and the Save button *)

(** What [queryLocalModel] comes back with: the verdict worked out from
    its answer ([phishing_label], or the probability against the
    threshold), or the error it throws. *)
Inductive model_reply :=
| Verdict (isPhishing : bool)
| SERVER_OFFLINE
| SERVER_TIMEOUT
| OtherFailure.

(** The fields of [siteRisk] that the save path reads.  [status] is
    ['phishing'] ([Some true]) or ['legit'] ([Some false]) and is missing
    on the objects built in the [catch] block; [serverOffline] is missing
    on the object built from an answer, which reads as false. *)
Record site_risk := {
  risk_status : option bool;
  risk_serverOffline : bool
}.

(** [onCheckSite]: the value of [siteRisk] once the check has returned. *)
Definition onCheckSite (urlRaw : jsstring) (autofillEnabled : bool)
  (reply : model_reply) : option site_risk :=
  let s := trim urlRaw in
  if negb (truthy s) then None
  else if negb autofillEnabled then None
  else
    match reply with
    | Verdict isPhishing =>
        Some {| risk_status := Some isPhishing; risk_serverOffline := false |}
    | SERVER_OFFLINE | SERVER_TIMEOUT =>
        Some {| risk_status := None; risk_serverOffline := true |}
    | OtherFailure =>
        Some {| risk_status := None; risk_serverOffline := false |}
    end.

(** [!siteRisk] and [siteRisk && siteRisk.serverOffline] *)
Definition no_risk (siteRisk : option site_risk) : bool :=
  match siteRisk with
  | None => true
  | Some _ => false
  end.

Definition server_offline (siteRisk : option site_risk) : bool :=
  match siteRisk with
  | Some risk => risk_serverOffline risk
  | None => false
  end.

(** [canSave] of [src/components/AddPasswordPage.jsx]: the Save button is
    disabled when it is false. *)
Definition canSave (form_username form_password : jsstring)
  (siteRisk : option site_risk) : bool :=
  let username := trim form_username in
  let password := trim form_password in
  let passwordMinLen := 6 in
  let usernameMissing := Z.of_nat (length username) =? 0 in
  let passwordMissing := Z.of_nat (length password) =? 0 in
  let hasNumber := existsb is_digit password in
  let hasSpecial := existsb (fun c => negb (is_alphanumeric c)) password in
  let passwordTooShort :=
    (Z.of_nat (length password) >? 0)
    && (Z.of_nat (length password) <? passwordMinLen) in
  let passwordMissingNumber :=
    (Z.of_nat (length password) >? 0) && negb hasNumber in
  let passwordMissingSpecial :=
    (Z.of_nat (length password) >? 0) && negb hasSpecial in
  let passwordTooWeak :=
    (Z.of_nat (length password) >? 0)
    && (passwordTooShort || passwordMissingNumber || passwordMissingSpecial) in
  negb (server_offline siteRisk) && negb usernameMissing
  && negb passwordMissing && negb passwordTooWeak.

(** Where a submission of the Add form ends: one of the messages, the
    start of a site check, the prompt for the PIN, or [performSave] with
    the PIN it is given. *)
Inductive save_outcome :=
| AutofillIsDisabled
| PleaseEnterTheSiteUrl
| PleaseEnterThePassword
| PleaseEnterTheUsername
| PasswordTooShort
| PasswordNeedsNumber
| PasswordNeedsSpecial
| CheckingSiteSafety
| WaitForPhishingCheck
| ServerIsOffline
| PhishingCheckRequired
| PerformSave (pin : jsstring)
| SessionExpiredPrompt
| KeyUnavailable.

Section SaveGate.

Context {Meta : Type}.
Variable extId : jsstring.

(** [onSaveCredential] up to the call of [performSave]: the checks in
    the order of the source, then the PIN from the session, else the PIN
    in the component's state, else the answer of [isSessionUnlocked]. *)
Definition onSaveCredential (f : form) (autofillEnabled siteChecking : bool)
  (siteRisk : option site_risk) (ui : popup Meta) (store : storage Meta)
  (now : Z) : save_outcome :=
  let s := trim (form_site f) in
  if negb autofillEnabled then AutofillIsDisabled
  else if negb (truthy s) then PleaseEnterTheSiteUrl
  else
    let p := trim (form_password f) in
    if negb (truthy p) then PleaseEnterThePassword
    else
      let u := trim (form_username f) in
      if negb (truthy u) then PleaseEnterTheUsername
      else
        let minLen := 6 in
        let hasNumber := existsb is_digit p in
        let hasSpecial := existsb (fun c => negb (is_alphanumeric c)) p in
        if Z.of_nat (length p) <? minLen then PasswordTooShort
        else if negb hasNumber then PasswordNeedsNumber
        else if negb hasSpecial then PasswordNeedsSpecial
        else if truthy s && no_risk siteRisk && negb siteChecking && autofillEnabled
        then CheckingSiteSafety
        else if siteChecking then WaitForPhishingCheck
        else if server_offline siteRisk then ServerIsOffline
        else if truthy s && no_risk siteRisk && autofillEnabled
        then PhishingCheckRequired
        else
          let (session_pin, store1) := getSessionPin extId store now in
          let without_pin :=
            if negb (fst (isSessionUnlocked store1 now))
            then SessionExpiredPrompt else KeyUnavailable in
          let from_state :=
            match currentPin ui with
            | Some pin => if truthy pin then PerformSave pin else without_pin
            | None => without_pin
            end in
          match session_pin with
          | Some pin => if truthy pin then PerformSave pin else from_state
          | None => from_state
          end.

End SaveGate.

(** ** [public/detectLogin.js] *)

(** [scorePage] on what it reads from the page: the number of visible
    password inputs, whether an input near one of them looks like a user
    name, whether the title has a login keyword or the URL has "login",
    whether title or URL has a sign-up keyword. *)
Definition scorePage (pwCount : Z) (userFound loginKeyword signupKeyword : bool)
  : Z :=
  if pwCount =? 0 then 0
  else
    let score := Z.min 4 (pwCount * 2) in
    let score := if userFound then score + 2 else score in
    let score := if loginKeyword then score + 1 else score in
    let score := if signupKeyword then score - 2 else score in
    Z.max 0 score.

(** The [login] flag that [checkAndNotify] sends. *)
Definition checkAndNotify (pwCount : Z) (userFound loginKeyword signupKeyword : bool)
  : bool :=
  scorePage pwCount userFound loginKeyword signupKeyword >=? 3.

(** ** [public/background.js] *)

(** The [status] of [update-phishing-status]: ['phishing'], ['legit'], or
    anything else. *)
Inductive phishing_status := StatusPhishing | StatusLegit | StatusOther.

(** What [setBadge] puts on the icon of a tab: the red warning, the green
    check, [LOG], or nothing. *)
Inductive badge := BadgeWarning | BadgeLegit | BadgeLogin | BadgeClear.

(** [Map.prototype.set] on the frames of a tab, in insertion order. *)
Fixpoint frames_set (frameId : Z) (v : bool) (frames : list (Z * bool))
  : list (Z * bool) :=
  match frames with
  | [] => [(frameId, v)]
  | (k, old) :: rest =>
      if k =? frameId then (k, v) :: rest
      else (k, old) :: frames_set frameId v rest
  end.

(** The variables of the service worker, by tab id, and the badge last
    set on each tab. *)
Record background := {
  tabState : Z -> option (list (Z * bool));
  phishingState : Z -> option phishing_status;
  bg_autofillEnabled : bool;
  badges : Z -> option badge
}.

(** The worker as it starts. *)
Definition bg_initial : background :=
  {| tabState := fun _ => None; phishingState := fun _ => None;
     bg_autofillEnabled := true; badges := fun _ => None |}.

Definition computeTabLogin (st : background) (tabId : Z) : bool :=
  match tabState st tabId with
  | None => false
  | Some frames => existsb snd frames
  end.

Definition setBadge (tabId : Z) (login : bool) (st : background) : background :=
  let b :=
    match phishingState st tabId with
    | Some StatusPhishing => BadgeWarning
    | Some StatusLegit => BadgeLegit
    | _ => if login then BadgeLogin else BadgeClear
    end in
  {| tabState := tabState st; phishingState := phishingState st;
     bg_autofillEnabled := bg_autofillEnabled st;
     badges := fun t => if t =? tabId then Some b else badges st t |}.

(** The messages and tab events the worker listens to.  [open_tabs] is
    what [chrome.tabs.query({})] answers. *)
Inductive bg_event :=
| SetAutofillEnabled (enabled : bool) (open_tabs : list Z)
| StorageChanged (newValue : bool) (open_tabs : list Z)
| LoginDetection (tabId frameId : Z) (login : bool)
| UpdatePhishingStatus (tabId : Z) (status : phishing_status)
| TabLoading (tabId : Z)
| TabRemoved (tabId : Z).

(** The switch is set; turning it off empties [tabState] and resets the
    badge of every open tab. *)
Definition switch_autofill (enabled : bool) (open_tabs : list Z)
  (st : background) : background :=
  if negb enabled then
    fold_left (fun s t => setBadge t false s) open_tabs
      {| tabState := fun _ => None; phishingState := phishingState st;
         bg_autofillEnabled := false; badges := badges st |}
  else
    {| tabState := tabState st; phishingState := phishingState st;
       bg_autofillEnabled := true; badges := badges st |}.

Definition bg_step (e : bg_event) (st : background) : background :=
  match e with
  | SetAutofillEnabled enabled open_tabs => switch_autofill enabled open_tabs st
  | StorageChanged newValue open_tabs => switch_autofill newValue open_tabs st
  | LoginDetection tabId frameId login =>
      if negb (bg_autofillEnabled st) then
        setBadge tabId false
          {| tabState := fun t => if t =? tabId then None else tabState st t;
             phishingState := phishingState st;
             bg_autofillEnabled := bg_autofillEnabled st;
             badges := badges st |}
      else
        let frames :=
          match tabState st tabId with
          | Some frames => frames
          | None => []
          end in
        let st1 :=
          {| tabState := fun t => if t =? tabId
                                  then Some (frames_set frameId login frames)
                                  else tabState st t;
             phishingState := phishingState st;
             bg_autofillEnabled := bg_autofillEnabled st;
             badges := badges st |} in
        setBadge tabId (computeTabLogin st1 tabId && bg_autofillEnabled st1) st1
  | UpdatePhishingStatus tabId status =>
      if tabId =? 0 then st
      else
        let st1 :=
          {| tabState := tabState st;
             phishingState := fun t => if t =? tabId then Some status
                                       else phishingState st t;
             bg_autofillEnabled := bg_autofillEnabled st;
             badges := badges st |} in
        setBadge tabId (bg_autofillEnabled st1 && computeTabLogin st1 tabId) st1
  | TabLoading tabId =>
      setBadge tabId false
        {| tabState := fun t => if t =? tabId then None else tabState st t;
           phishingState := fun t => if t =? tabId then None
                                     else phishingState st t;
           bg_autofillEnabled := bg_autofillEnabled st;
           badges := badges st |}
  | TabRemoved tabId =>
      {| tabState := fun t => if t =? tabId then None else tabState st t;
         phishingState := fun t => if t =? tabId then None
                                   else phishingState st t;
         bg_autofillEnabled := bg_autofillEnabled st;
         badges := badges st |}
  end.

(** The answer to [query-login-state]. *)
Definition query_login_state (st : background) (tabId : Z) : bool :=
  bg_autofillEnabled st && computeTabLogin st tabId.

(** The worker after the events of a list, first to last. *)
Definition bg_run (events : list bg_event) (st : background) : background :=
  fold_left (fun s e => bg_step e s) events st.

(** An event that is not a login detection for the tab. *)
Definition no_detection_for (tabId : Z) (e : bg_event) : bool :=
  match e with
  | LoginDetection t _ _ => negb (t =? tabId)
  | _ => true
  end.

(** An event after which the worker holds no frame report of the tab:
    the switch going off, or the tab loading or closing. *)
Definition forgets_tab (tabId : Z) (e : bg_event) : bool :=
  match e with
  | SetAutofillEnabled enabled _ | StorageChanged enabled _ => negb enabled
  | TabLoading t | TabRemoved t => t =? tabId
  | _ => false
  end.

(** An event that leaves the verdict stored for the tab alone. *)
Definition keeps_verdict (tabId : Z) (e : bg_event) : bool :=
  match e with
  | UpdatePhishingStatus t _ | TabLoading t | TabRemoved t => negb (t =? tabId)
  | _ => true
  end.

(** The frames of a tab other than one. *)
Definition other_frames (st : background) (tabId frameId : Z) : list (Z * bool) :=
  match tabState st tabId with
  | Some frames => filter (fun kv => negb (fst kv =? frameId)) frames
  | None => []
  end.

(** The frame ids of a tab are pairwise distinct, as the keys of a
    [Map] are. *)
Definition frames_wf (st : background) : Prop :=
  forall t frames, tabState st t = Some frames -> NoDup (map fst frames).

(** ** Auxiliary notions for the code around the vault core *)

(** The PIN typed in a submission of the prompt. *)
Definition try_pin (t : jsstring * Z * Z * jsstring) : jsstring :=
  let '(pin, _, _, _) := t in pin.

(** A submission that [verifyPin] turns down against the stored hash. *)
Definition refused_try {W : WebCrypto} {Meta : Type} (store : storage Meta)
  (t : jsstring * Z * Z * jsstring) : Prop :=
  verifyPin (try_pin t) (rf_pin_hash store) = false.

(** A digit as [toString(16)] writes it. *)
Definition is_lower_hex (c : Z) : bool :=
  ((48 <=? c) && (c <=? 57)) || ((97 <=? c) && (c <=? 102)).

(** What [TextEncoder] and [TextDecoder] make of a string: every
    unpaired surrogate becomes U+FFFD, and one U+FEFF in front is
    dropped. *)
Definition drop_bom (cps : list Z) : list Z :=
  match cps with
  | cp :: rest => if cp =? 65279 then rest else cps
  | [] => []
  end.

Definition toWellFormed_without_bom (s : jsstring) : jsstring :=
  flat_map utf16_units (drop_bom (code_points s)).

(** A character that [atob] neither skips nor decodes: not in the
    alphabet, not ASCII whitespace, not [=]. *)
Definition not_base64 (c : Z) : bool :=
  match base64_index c with
  | Some _ => false
  | None => negb (is_ascii_whitespace c) && negb (c =? 61)
  end.

(** ** More data for the examples *)

Module Sample.

(** The legacy record as ["1234"] encrypts it. *)
Definition own : credential unit :=
  encrypted_with (W := Toy.crypto) Example.legacy Example.pin
    (fst (getRandomValues 16 Example.generator))
    (fst (getRandomValues 12 (snd (getRandomValues 16 Example.generator)))).

(** A storage where ["1234"] is enrolled, with a session opened at 0. *)
Definition enrolled (l : list (credential unit)) : storage unit :=
  savePin (W := Toy.crypto) Example.pin (Example.storage_with l).

Definition vault (l : list (credential unit)) : storage unit :=
  createSession Example.extId Example.pin 0 (enrolled l).

Definition open_popup (shown : list (credential unit)) : popup unit :=
  {| pinSetupRequired := false; pinUnlocked := true; pinPromptVisible := false;
     currentPin := None; credentials := shown; tamperedCount := 0 |}.

(** The prompt as it opens over a locked vault, and three wrong PINs with
    an empty submission in between. *)
Definition prompt (l : list (credential unit)) : prompt_world unit unit :=
  {| w_prompt := initial_prompt; w_popup := Example.locked_popup;
     w_storage := enrolled l; w_logs := None |}.

Definition wrong_tries : list (jsstring * Z * Z * jsstring) :=
  [(Example.other_pin, 1, 1, [49]); ([52; 52; 52; 52], 2, 2, [50]);
   ([48; 48; 48; 48], 3, 3, [51])].

Definition tries_with_empty : list (jsstring * Z * Z * jsstring) :=
  [(Example.other_pin, 1, 1, [49]); ([], 2, 2, [50]);
   ([48; 48; 48; 48], 3, 3, [51])].

(** A record whose [username] holds ["a b!"]. *)
Definition scribbled : credential unit :=
  {| id := 6; site := site own; username := [97; 32; 98; 33];
     password := password own; iv := iv own; salt := salt own;
     favicon := []; riskScore := tt; riskFactors := tt |}.

(** A site that the model calls phishing. *)
Definition phishing_risk : option site_risk :=
  onCheckSite (site Example.legacy) true (Verdict true).

End Sample.

(** * Verified properties *)

(** ** Bytes and hexadecimal text *)

Lemma byte_of_to_Z (b : byte) : byte_of_Z (byte_to_Z b) = b.
Proof. destruct b; reflexivity. Qed.

Lemma byte_to_Z_range (b : byte) : 0 <= byte_to_Z b < 256.
Proof.
  unfold byte_to_Z. pose proof (Byte.to_N_bounded b). lia.
Qed.

Lemma byte_to_of_Z (z : Z) : 0 <= z < 256 -> byte_to_Z (byte_of_Z z) = z.
Proof.
  intros Hz. unfold byte_of_Z, byte_to_Z.
  rewrite Z.mod_small by lia.
  destruct (Byte.of_N (Z.to_N z)) eqn:E.
  - apply Byte.to_of_N in E. lia.
  - apply Byte.of_N_None_iff in E. lia.
Qed.

Lemma byte_of_Z_inj (x y : Z) :
  0 <= x < 256 -> 0 <= y < 256 -> byte_of_Z x = byte_of_Z y -> x = y.
Proof.
  intros Hx Hy E. rewrite <- (byte_to_of_Z x Hx), <- (byte_to_of_Z y Hy).
  now rewrite E.
Qed.

Lemma hex_of_byte_digits (b : byte) :
  hex_of_byte b = [hex_char (byte_to_Z b / 16); hex_char (byte_to_Z b mod 16)].
Proof. destruct b; reflexivity. Qed.

Lemma parseInt16_hex_of_byte (b : byte) :
  parseInt16 (hex_of_byte b) = Some (byte_to_Z b).
Proof. destruct b; reflexivity. Qed.

Lemma hex_of_byte_two (b : byte) : exists h l, hex_of_byte b = [h; l].
Proof. rewrite hex_of_byte_digits. eauto. Qed.

Lemma arrayBufferToHex_cons (b : byte) (l : list byte) :
  arrayBufferToHex (b :: l) = hex_of_byte b ++ arrayBufferToHex l.
Proof. reflexivity. Qed.

Lemma hexToUint8Array_arrayBufferToHex (l : list byte) :
  hexToUint8Array (arrayBufferToHex l) = l.
Proof.
  induction l as [|b l IH]; [reflexivity|].
  rewrite arrayBufferToHex_cons.
  destruct (hex_of_byte_two b) as (h & lo & E).
  pose proof (parseInt16_hex_of_byte b) as P. rewrite E in *.
  cbn [app hexToUint8Array]. rewrite P, IH. cbn [nan_to_zero].
  now rewrite byte_of_to_Z.
Qed.

Lemma arrayBufferToHex_length (l : list byte) :
  length (arrayBufferToHex l) = (2 * length l)%nat.
Proof.
  induction l as [|b l IH]; [reflexivity|].
  rewrite arrayBufferToHex_cons, length_app, IH.
  destruct (hex_of_byte_two b) as (h & lo & ->). cbn [length]. lia.
Qed.

Lemma arrayBufferToHex_truthy (l : list byte) :
  l <> [] -> truthy (arrayBufferToHex l) = true.
Proof.
  destruct l as [|b l]; [congruence|]. intros _.
  rewrite arrayBufferToHex_cons.
  now destruct (hex_of_byte_two b) as (h & lo & ->).
Qed.

Lemma arrayBufferToHex_inj (l l' : list byte) :
  arrayBufferToHex l = arrayBufferToHex l' -> l = l'.
Proof.
  intros E. rewrite <- (hexToUint8Array_arrayBufferToHex l), E.
  apply hexToUint8Array_arrayBufferToHex.
Qed.

Lemma getRandomValues_length (n : nat) (g : rng) :
  length (fst (getRandomValues n g)) = n.
Proof. cbn. now rewrite length_map, length_seq. Qed.

(** ** The session obfuscation *)

Lemma ToInt32_small (z : Z) : 0 <= z < 2 ^ 31 -> ToInt32 z = z.
Proof.
  intros H. unfold ToInt32. rewrite Z.mod_small; lia.
Qed.

Lemma lxor_below (n a b : Z) :
  0 <= n -> 0 <= a < 2 ^ n -> 0 <= b < 2 ^ n -> 0 <= Z.lxor a b < 2 ^ n.
Proof.
  intros Hn Ha Hb.
  assert (Hnn : 0 <= Z.lxor a b) by (apply Z.lxor_nonneg; lia).
  split; [exact Hnn|].
  destruct (Z.eq_dec (Z.lxor a b) 0) as [E|E].
  - rewrite E. apply Z.pow_pos_nonneg; lia.
  - assert (0 < n).
    { destruct (Z.eq_dec n 0) as [->|]; [|lia].
      change (2 ^ 0) with 1 in *. assert (a = 0) by lia. assert (b = 0) by lia.
      subst. now cbn in E. }
    apply Z.log2_lt_pow2; [lia|].
    eapply Z.le_lt_trans; [apply Z.log2_lxor; lia|].
    apply Z.max_lub_lt.
    + destruct (Z.eq_dec a 0) as [->|]; [cbn; lia|]. apply Z.log2_lt_pow2; lia.
    + destruct (Z.eq_dec b 0) as [->|]; [cbn; lia|]. apply Z.log2_lt_pow2; lia.
Qed.

Lemma js_xor_small (n a b : Z) :
  0 <= n <= 31 -> 0 <= a < 2 ^ n -> 0 <= b < 2 ^ n ->
  js_xor a b = Z.lxor a b /\ 0 <= js_xor a b < 2 ^ n.
Proof.
  intros Hn Ha Hb.
  assert (2 ^ n <= 2 ^ 31) by (apply Z.pow_le_mono_r; lia).
  unfold js_xor. rewrite !ToInt32_small by lia.
  split; [reflexivity|]. apply lxor_below; lia.
Qed.

Lemma js_xor_involutive (c k : Z) :
  is_byte_value c -> is_byte_value k ->
  is_byte_value (js_xor c k) /\ js_xor (js_xor c k) k = c.
Proof.
  unfold is_byte_value. intros Hc Hk.
  destruct (js_xor_small 8 c k) as [E R]; try (cbn; lia).
  change (2 ^ 8) with 256 in R. split; [exact R|].
  destruct (js_xor_small 8 (js_xor c k) k) as [E' _]; try (cbn; lia).
  rewrite E', E, Z.lxor_assoc, Z.lxor_nilpotent, Z.lxor_0_r. reflexivity.
Qed.

Lemma js_rem_byte (k : Z) : 0 <= k -> is_byte_value (js_rem k 256).
Proof.
  intros Hk. unfold is_byte_value, js_rem.
  rewrite Z.rem_mod_nonneg by lia. apply Z.mod_pos_bound. lia.
Qed.

Lemma xor_with_key_involutive (key : Z) (codes : list Z) :
  0 <= key -> Forall is_byte_value codes ->
  forall i, 0 <= i ->
    Forall is_byte_value (xor_with_key key i codes)
    /\ xor_with_key key i (xor_with_key key i codes) = codes.
Proof.
  intros Hk. induction 1 as [|c codes Hc _ IH]; intros i Hi; cbn [xor_with_key].
  - split; [constructor | reflexivity].
  - destruct (js_xor_involutive c (js_rem (key + i) 256) Hc) as [R E];
      [apply js_rem_byte; lia|].
    destruct (IH (i + 1)) as [R' E']; [lia|].
    split; [constructor; assumption|]. now rewrite E, E'.
Qed.

(** A list of byte values written as two hexadecimal characters each and
    read back pair by pair. *)
Lemma hex_pairs_roundtrip (values : list Z) :
  Forall is_byte_value values ->
  map (fun p => nan_to_zero (parseInt16 p))
      (substr_pairs (concat (map (fun b => padStart2 (toString16 b)) values)))
  = values.
Proof.
  induction 1 as [|v values Hv _ IH]; [reflexivity|].
  cbn [map concat].
  rewrite <- (byte_to_of_Z v Hv) at 1.
  fold (hex_of_byte (byte_of_Z v)).
  destruct (hex_of_byte_two (byte_of_Z v)) as (h & lo & E).
  pose proof (parseInt16_hex_of_byte (byte_of_Z v)) as P. rewrite E in *.
  cbn [app substr_pairs map]. rewrite P, IH. cbn [nan_to_zero].
  now rewrite byte_to_of_Z.
Qed.

Lemma getSessionKey_loop_nonneg (s : jsstring) :
  forall i key,
    0 <= i -> 0 <= key < 2 ^ 31 ->
    Forall is_code_unit s -> i + Z.of_nat (length s) <= 32768 ->
    0 <= getSessionKey_loop s i key < 2 ^ 31.
Proof.
  induction s as [|c s IH]; intros i key Hi Hk Hs Hl; cbn [getSessionKey_loop].
  - exact Hk.
  - inversion Hs as [|? ? Hc Hs']; subst. unfold is_code_unit in Hc.
    cbn [length] in Hl.
    apply IH; [lia| |assumption|lia].
    apply (js_xor_small 31); [lia|lia|]. nia.
Qed.

(** For an extension id of at most 32768 characters the products
    [charCode * (i + 1)] stay below 2^31 and the key is not negative. *)
Lemma getSessionKey_nonneg (extId : jsstring) :
  wf_jsstring extId -> Z.of_nat (length extId) <= 32768 ->
  0 <= getSessionKey extId.
Proof.
  intros Hw Hl. unfold getSessionKey.
  apply getSessionKey_loop_nonneg; try assumption; lia.
Qed.

Lemma decryptSessionPin_encryptSessionPin (extId pin : jsstring) :
  0 <= getSessionKey extId -> Forall is_byte_value pin ->
  decryptSessionPin extId (encryptSessionPin extId pin) = pin.
Proof.
  intros Hk Hp. unfold decryptSessionPin, encryptSessionPin.
  destruct (xor_with_key_involutive (getSessionKey extId) pin Hk Hp 0) as [R E];
    [lia|].
  rewrite hex_pairs_roundtrip by exact R. rewrite E.
  clear - Hp. induction Hp as [|c pin Hc _ IH]; [reflexivity|].
  cbn [map]. rewrite IH. unfold ToUint16, is_byte_value in *.
  rewrite Z.mod_small by lia. reflexivity.
Qed.

Lemma pin_policy_bytes (pin : jsstring) :
  pin_policy pin = true -> Forall is_byte_value pin.
Proof.
  unfold pin_policy. intros H.
  apply andb_prop in H as [_ H]. rewrite forallb_forall in H.
  apply Forall_forall. intros c Hc. specialize (H c Hc).
  unfold is_digit, is_byte_value in *. lia.
Qed.

Lemma pin_policy_truthy (pin : jsstring) : pin_policy pin = true -> truthy pin = true.
Proof.
  unfold pin_policy. destruct pin; [cbn; discriminate | reflexivity].
Qed.

Lemma encryptSessionPin_truthy (extId pin : jsstring) :
  0 <= getSessionKey extId -> Forall is_byte_value pin ->
  truthy pin = true -> truthy (encryptSessionPin extId pin) = true.
Proof.
  intros Hk Hp Ht.
  destruct (truthy (encryptSessionPin extId pin)) eqn:E; [reflexivity|].
  destruct (encryptSessionPin extId pin) eqn:E'; [|discriminate].
  pose proof (decryptSessionPin_encryptSessionPin extId pin Hk Hp) as R.
  rewrite E' in R. cbn in R. subst pin. discriminate.
Qed.

(** C8. The session obfuscation is reversible: for an extension id of at
    most 32768 UTF-16 code units (Chrome's ids have 32) and a PIN of 4 to 6
    decimal digits, [decryptSessionPin (encryptSessionPin pin) = pin]; both
    directions depend on the extension id only through [getSessionKey],
    so two ids with the same key give the same transform. *)
Theorem session_pin_roundtrip (extId pin : jsstring) :
  wf_jsstring extId -> Z.of_nat (length extId) <= 32768 ->
  pin_policy pin = true ->
  decryptSessionPin extId (encryptSessionPin extId pin) = pin
  /\ forall extId' text,
       getSessionKey extId' = getSessionKey extId ->
       encryptSessionPin extId' text = encryptSessionPin extId text
       /\ decryptSessionPin extId' text = decryptSessionPin extId text.
Proof.
  intros Hw Hl Hp. split.
  - apply decryptSessionPin_encryptSessionPin.
    + now apply getSessionKey_nonneg.
    + now apply pin_policy_bytes.
  - intros extId' text E. unfold encryptSessionPin, decryptSessionPin.
    now rewrite E.
Qed.

Lemma session_pin_roundtrip_witness :
  decryptSessionPin Example.extId (encryptSessionPin Example.extId Example.pin)
  = Example.pin.
Proof.
  refine (proj1 (session_pin_roundtrip Example.extId Example.pin _ _ _)).
  - repeat constructor; unfold is_code_unit; lia.
  - cbn. lia.
  - reflexivity.
Defined.

(** ** Session expiry *)

Section Sessions.

Context {Meta : Type}.
Variable extId : jsstring.

Implicit Types (store : storage Meta) (s : session).

Lemma getSessionPin_cases store now :
  getSessionPin extId store now =
    match rf_pin_session store with
    | None => (None, store)
    | Some s =>
        if now <=? expiry s then
          (if truthy (ep s) then Some (decryptSessionPin extId (ep s)) else None,
           store)
        else (None, remove_session store)
    end.
Proof.
  unfold getSessionPin. destruct (rf_pin_session store) as [s|]; [|reflexivity].
  rewrite Z.gtb_ltb.
  destruct (Z.ltb_spec (expiry s) now), (Z.leb_spec now (expiry s)); try lia;
    [reflexivity|]. now destruct (truthy (ep s)).
Qed.

Lemma decryptSessionPin_truthy (text : jsstring) :
  truthy text = true -> truthy (decryptSessionPin extId text) = true.
Proof.
  unfold decryptSessionPin. destruct text as [|a [|b text]]; [discriminate| |];
    reflexivity.
Qed.

(** C5, as the code has it.  For a stored session with a non-empty [ep]:
    while [now <= expiry], the boundary [now = expiry] included,
    [getSessionPin] hands out the de-obfuscated PIN and leaves the session
    in place; once [now > expiry] it removes the session and hands out
    [null]. *)
Theorem getSessionPin_boundary store s now :
  rf_pin_session store = Some s -> truthy (ep s) = true ->
  getSessionPin extId store now =
    if now <=? expiry s
    then (Some (decryptSessionPin extId (ep s)), store)
    else (None, remove_session store).
Proof.
  intros Hs He. rewrite getSessionPin_cases, Hs, He. reflexivity.
Qed.

Lemma extendSession_cases store now now' :
  extendSession extId store now now' =
    match rf_pin_session store with
    | None => store
    | Some s =>
        if now <=? expiry s then
          if truthy (ep s)
          then createSession extId (decryptSessionPin extId (ep s)) now' store
          else store
        else remove_session store
    end.
Proof.
  unfold extendSession. rewrite getSessionPin_cases.
  destruct (rf_pin_session store) as [s|]; [|reflexivity].
  destruct (now <=? expiry s); [|reflexivity].
  destruct (truthy (ep s)) eqn:E; [|reflexivity].
  now rewrite decryptSessionPin_truthy.
Qed.

(** C9, as the code has it.  (a) A session made by [createSession] at
    [t0] for a policy PIN and read no later than its expiry is persisted
    again with the same [ep] and with expiry [now' + 30 min], [now']
    being the clock when it is written; the expiry moves by [now' - t0],
    which is zero when both calls fall in the same millisecond.  (b) With
    no session stored nothing changes.  (c) An expired session is
    removed.  (d) Whenever the stored session is missing or expired, no
    session is stored afterwards. *)
Theorem extendSession_spec store now now' :
  wf_jsstring extId -> Z.of_nat (length extId) <= 32768 ->
  (forall pin t0 s,
      pin_policy pin = true ->
      s = {| expiry := t0 + 30 * 60 * 1000; ep := encryptSessionPin extId pin |} ->
      rf_pin_session store = Some s ->
      now <= expiry s ->
      exists s',
        extendSession extId store now now' = set_session s' store
        /\ ep s' = ep s
        /\ expiry s' = now' + 30 * 60 * 1000
        /\ expiry s' - expiry s = now' - t0)
  /\ (rf_pin_session store = None ->
      extendSession extId store now now' = store)
  /\ (forall s,
         rf_pin_session store = Some s -> now > expiry s ->
         extendSession extId store now now' = remove_session store)
  /\ (session_valid store now = false ->
      rf_pin_session (extendSession extId store now now') = None).
Proof.
  intros Hw Hl. rewrite extendSession_cases.
  pose proof (getSessionKey_nonneg extId Hw Hl) as Hk.
  repeat split.
  - intros pin t0 s Hp -> Hs Hnow. rewrite Hs. cbn [expiry ep] in *.
    destruct (Z.leb_spec now (t0 + 30 * 60 * 1000)); [|lia].
    pose proof (pin_policy_bytes pin Hp) as Hb.
    rewrite encryptSessionPin_truthy
      by (try assumption; now apply pin_policy_truthy).
    rewrite decryptSessionPin_encryptSessionPin by assumption.
    eexists. split; [reflexivity|]. cbn [ep expiry].
    unfold SESSION_DURATION_MINUTES. repeat split; lia.
  - now intros ->.
  - intros s -> Hnow. destruct (Z.leb_spec now (expiry s)); [lia|reflexivity].
  - unfold session_valid.
    destruct (rf_pin_session store) as [s|] eqn:Hs; [|now rewrite Hs].
    rewrite Z.gtb_ltb. intros Hv. apply negb_false_iff in Hv.
    apply Z.ltb_lt in Hv.
    destruct (Z.leb_spec now (expiry s)); [lia|reflexivity].
Qed.

End Sessions.

Lemma getSessionPin_boundary_witness :
  let store := createSession Example.extId Example.pin 0 Example.empty_storage in
  getSessionPin Example.extId store 1800000 = (Some Example.pin, store)
  /\ getSessionPin Example.extId store 1800001 = (None, Example.empty_storage).
Proof.
  intros store.
  pose (s := {| expiry := 1800000;
                ep := encryptSessionPin Example.extId Example.pin |}).
  split.
  - rewrite (getSessionPin_boundary Example.extId store s 1800000);
      reflexivity.
  - rewrite (getSessionPin_boundary Example.extId store s 1800001);
      reflexivity.
Defined.

(** C5 as stated fails at the boundary: at [now = expiry] the PIN is
    still handed out and the session is not removed.  And a stored session
    whose [ep] is the empty string yields [null] before its expiry. *)
Lemma getSessionPin_at_expiry :
  (let store := createSession Example.extId Example.pin 0 Example.empty_storage in
   exists s,
     rf_pin_session store = Some s
     /\ expiry s = 1800000
     /\ fst (getSessionPin Example.extId store 1800000) = Some Example.pin
     /\ fst (getSessionPin Example.extId store 1800000) <> None
     /\ rf_pin_session (snd (getSessionPin Example.extId store 1800000)) = Some s)
  /\ (let store := set_session {| expiry := 1800000; ep := [] |}
                     Example.empty_storage in
      fst (getSessionPin Example.extId store 0) = None).
Proof.
  split.
  - intros store.
    exists {| expiry := 1800000; ep := encryptSessionPin Example.extId Example.pin |}.
    repeat split; vm_compute; try reflexivity. discriminate.
  - reflexivity.
Qed.

Lemma extendSession_spec_witness :
  let store := createSession Example.extId Example.pin 0 Example.empty_storage in
  exists s',
    extendSession Example.extId store 60000 60001 = set_session s' store
    /\ ep s' = encryptSessionPin Example.extId Example.pin
    /\ expiry s' = 1860001.
Proof.
  intros store.
  assert (Hw : wf_jsstring Example.extId)
    by (repeat constructor; unfold is_code_unit; lia).
  assert (Hl : Z.of_nat (length Example.extId) <= 32768) by (cbn; lia).
  destruct (extendSession_spec Example.extId store 60000 60001 Hw Hl)
    as (Ha & _).
  destruct (Ha Example.pin 0 _ eq_refl eq_refl eq_refl) as (s' & E & Hep & Hex & _);
    [cbn; lia|].
  exists s'. repeat split; assumption.
Defined.

(** C9 as stated fails three times.  A session extended in the
    millisecond it was created keeps its expiry, so the new expiry is not
    strictly later.  An expired session is removed from storage, so the
    persisted state does change.  And an [ep] that [encryptSessionPin]
    does not produce, here ["AB"] in capitals, is written back as the
    encoding of what it decodes to, here ["ab"]. *)
Lemma extendSession_not_strict_and_removes :
  (let store := createSession Example.extId Example.pin 5000 Example.empty_storage in
   (exists s s',
       rf_pin_session store = Some s
       /\ rf_pin_session (extendSession Example.extId store 5000 5000) = Some s'
       /\ ~ expiry s < expiry s')
   /\ session_valid store 1805001 = false
   /\ extendSession Example.extId store 1805001 1805001 <> store)
  /\ (let store := set_session {| expiry := 1800000; ep := [65; 66] |}
                     Example.empty_storage in
      option_map ep (rf_pin_session (extendSession Example.extId store 0 1))
      = Some [97; 98]).
Proof.
  split; [intros store; split; [|split] |].
  - exists {| expiry := 1805000; ep := encryptSessionPin Example.extId Example.pin |}.
    exists {| expiry := 1805000; ep := encryptSessionPin Example.extId Example.pin |}.
    repeat split; try (vm_compute; reflexivity). cbn. lia.
  - reflexivity.
  - intros E. apply (f_equal (@rf_pin_session unit)) in E.
    vm_compute in E. discriminate E.
  - vm_compute. reflexivity.
Qed.

(** ** Enrollment *)

Lemma handleSubmit_policy (pin confirmPin : jsstring) :
  handleSubmit pin confirmPin =
    if pin_policy pin then
      if jsstring_eqb pin confirmPin then inr pin else inl PinsDoNotMatch
    else if (Z.of_nat (length pin) <? 4) || (Z.of_nat (length pin) >? 6)
         then inl PinMustBe4To6Digits
         else inl PinMustContainOnlyNumbers.
Proof.
  unfold handleSubmit, pin_policy, all_digits. rewrite Z.gtb_ltb.
  destruct (Z.ltb_spec (Z.of_nat (length pin)) 4),
           (Z.ltb_spec 6 (Z.of_nat (length pin))),
           (Z.leb_spec 4 (Z.of_nat (length pin))),
           (Z.leb_spec (Z.of_nat (length pin)) 6); try lia; cbn [orb andb negb];
    try reflexivity.
  assert (truthy pin = true) as -> by (destruct pin; [cbn in *; lia | reflexivity]).
  cbn [andb]. destruct (forallb is_digit pin); cbn [negb]; [|reflexivity].
  now destruct (jsstring_eqb pin confirmPin).
Qed.

(** C7. Submitting the setup form with a PIN that is not 4 to 6 decimal
    digits shows one of the two format errors and leaves the popup and the
    storage, hence [rf_pin_hash], as they were; a digest is only ever
    written for a PIN that meets the policy, and it is the digest of that
    PIN (the remaining failure, for a policy PIN, is a confirmation field
    that differs). *)
Theorem enroll_policy {W : WebCrypto} {Meta : Type} (extId pin confirmPin : jsstring)
  (now : Z) (ui : popup Meta) (store : storage Meta) :
  let '(err, ui', store') := enroll extId pin confirmPin now ui store in
  if pin_policy pin then
    (err = None /\ rf_pin_hash store' = Some (hashPin pin))
    \/ (err = Some PinsDoNotMatch /\ ui' = ui /\ store' = store)
  else
    (exists e, err = Some e /\ InvalidPinFormat e = true)
    /\ ui' = ui /\ store' = store.
Proof.
  unfold enroll. rewrite handleSubmit_policy.
  destruct (pin_policy pin).
  - destruct (jsstring_eqb pin confirmPin); cbn; auto.
  - destruct (_ || _); cbn; repeat split; eauto.
Qed.

(** ** Base64 *)

Lemma list_ind3 {A : Type} (P : list A -> Prop) :
  P [] -> (forall a, P [a]) -> (forall a b, P [a; b]) ->
  (forall a b c l, P l -> P (a :: b :: c :: l)) ->
  forall l, P l.
Proof.
  intros H0 H1 H2 H3.
  enough (forall l, P l /\ (forall a, P (a :: l)) /\ (forall a b, P (a :: b :: l)))
    as H by (intros l; apply H).
  induction l as [|x l (IH0 & IH1 & IH2)]; repeat split; auto.
Qed.

Lemma byte_of_Z_eq (z : Z) (b : byte) : z mod 256 = byte_to_Z b -> byte_of_Z z = b.
Proof.
  intros E. rewrite <- (byte_of_to_Z b), <- E. unfold byte_of_Z.
  now rewrite Z.mod_mod by lia.
Qed.

Lemma base64_index_char (i : Z) :
  0 <= i < 64 -> base64_index (base64_char i) = Some i.
Proof.
  intros Hi. unfold base64_char.
  destruct (Z.ltb_spec i 26); [|destruct (Z.ltb_spec i 52);
    [|destruct (Z.ltb_spec i 62); [|destruct (Z.eqb_spec i 62)]]];
    unfold base64_index;
    repeat match goal with
      | |- context [?a <=? ?b] => destruct (Z.leb_spec a b); try lia; cbn [andb]
      | |- context [?a =? ?b] => destruct (Z.eqb_spec a b); try lia
      end; f_equal; lia.
Qed.

Lemma base64_char_plain (i : Z) :
  0 <= i < 64 ->
  is_ascii_whitespace (base64_char i) = false /\ (base64_char i =? 61) = false.
Proof.
  intros Hi. unfold base64_char, is_ascii_whitespace.
  destruct (Z.ltb_spec i 26); [|destruct (Z.ltb_spec i 52);
    [|destruct (Z.ltb_spec i 62); [|destruct (Z.eqb_spec i 62)]]];
    repeat match goal with
      | |- context [?a =? ?b] => destruct (Z.eqb_spec a b); try lia
      end; split; reflexivity.
Qed.

Lemma sextets_range (bytes : list byte) :
  Forall (fun i => 0 <= i < 64) (sextets bytes).
Proof.
  induction bytes as [| a | a b | a b c l IH] using list_ind3; cbn [sextets].
  - constructor.
  - pose proof (byte_to_Z_range a).
    repeat constructor; Z.div_mod_to_equations; lia.
  - pose proof (byte_to_Z_range a). pose proof (byte_to_Z_range b).
    repeat constructor; Z.div_mod_to_equations; lia.
  - pose proof (byte_to_Z_range a). pose proof (byte_to_Z_range b).
    pose proof (byte_to_Z_range c).
    repeat (constructor; [Z.div_mod_to_equations; lia|]). exact IH.
Qed.

Lemma decode_sextets_sextets (bytes : list byte) :
  decode_sextets (sextets bytes) = bytes.
Proof.
  induction bytes as [| a | a b | a b c l IH] using list_ind3;
    cbn [sextets decode_sextets app].
  - reflexivity.
  - pose proof (byte_to_Z_range a). f_equal.
    apply byte_of_Z_eq. Z.div_mod_to_equations; lia.
  - pose proof (byte_to_Z_range a). pose proof (byte_to_Z_range b).
    f_equal; [|f_equal]; apply byte_of_Z_eq; Z.div_mod_to_equations; lia.
  - pose proof (byte_to_Z_range a). pose proof (byte_to_Z_range b).
    pose proof (byte_to_Z_range c). rewrite IH.
    f_equal; [|f_equal; [|f_equal]]; apply byte_of_Z_eq;
      Z.div_mod_to_equations; lia.
Qed.

Lemma base64_indices_chars (l : list Z) :
  Forall (fun i => 0 <= i < 64) l -> base64_indices (map base64_char l) = Some l.
Proof.
  induction 1 as [|i l Hi _ IH]; [reflexivity|].
  cbn [map base64_indices]. now rewrite base64_index_char, IH.
Qed.

Lemma strip_padding_plain (c : Z) (s : jsstring) :
  (c =? 61) = false -> strip_padding (c :: s) = c :: strip_padding s.
Proof.
  intros Hc. cbn [strip_padding]. unfold is_padding. rewrite Hc.
  now destruct s as [|d [|e s]].
Qed.

Lemma filter_plain (c : Z) (s : jsstring) :
  is_ascii_whitespace c = false ->
  filter (fun c => negb (is_ascii_whitespace c)) (c :: s)
  = c :: filter (fun c => negb (is_ascii_whitespace c)) s.
Proof. intros Hc. cbn [filter]. now rewrite Hc. Qed.

Ltac sextet_bounds :=
  repeat match goal with
    | b : byte |- _ =>
        lazymatch goal with
        | _ : 0 <= byte_to_Z b < 256 |- _ => fail
        | _ => pose proof (byte_to_Z_range b)
        end
    end.

Ltac plain_chars :=
  repeat match goal with
    | |- context [base64_char ?i] =>
        lazymatch goal with
        | _ : is_ascii_whitespace (base64_char i) = false |- _ => fail
        | _ =>
            let H := fresh "Hp" in
            assert (H : 0 <= i < 64) by (Z.div_mod_to_equations; lia);
            destruct (base64_char_plain i H); clear H
        end
    end.

Lemma base64_encode_no_whitespace (bytes : list byte) :
  filter (fun c => negb (is_ascii_whitespace c)) (base64_encode bytes)
  = base64_encode bytes.
Proof.
  induction bytes as [| a | a b | a b c l IH] using list_ind3;
    cbn [base64_encode]; sextet_bounds; plain_chars;
    rewrite ?filter_plain by assumption; try reflexivity.
  now rewrite IH.
Qed.

Lemma base64_encode_length (bytes : list byte) :
  Z.of_nat (length (base64_encode bytes)) mod 4 = 0.
Proof.
  induction bytes as [| a | a b | a b c l IH] using list_ind3;
    cbn [base64_encode length]; try reflexivity.
  rewrite !Nat2Z.inj_succ. Z.div_mod_to_equations. lia.
Qed.

Lemma sextets_length (bytes : list byte) :
  Z.of_nat (length (sextets bytes)) mod 4 <> 1.
Proof.
  induction bytes as [| a | a b | a b c l IH] using list_ind3;
    cbn [sextets length]; try (cbn; lia).
  rewrite !Nat2Z.inj_succ. Z.div_mod_to_equations. lia.
Qed.

Lemma strip_padding_base64_encode (bytes : list byte) :
  strip_padding (base64_encode bytes) = map base64_char (sextets bytes).
Proof.
  induction bytes as [| a | a b | a b c l IH] using list_ind3;
    cbn [base64_encode sextets map]; sextet_bounds; plain_chars;
    rewrite ?strip_padding_plain by assumption; try reflexivity.
  now rewrite IH.
Qed.

Lemma atob_base64_encode (bytes : list byte) :
  atob (base64_encode bytes) = Some bytes.
Proof.
  unfold atob. rewrite base64_encode_no_whitespace, base64_encode_length.
  cbn [Z.eqb]. rewrite strip_padding_base64_encode, length_map.
  destruct (Z.eqb_spec (Z.of_nat (length (sextets bytes)) mod 4) 1) as [E|_];
    [now apply sextets_length in E|].
  rewrite base64_indices_chars by apply sextets_range.
  cbn [option_map]. now rewrite decode_sextets_sextets.
Qed.

Lemma arrayBufferToBase64_total (buffer : list byte) :
  arrayBufferToBase64 buffer = Some (base64_encode buffer).
Proof.
  unfold arrayBufferToBase64, btoa.
  assert (forallb (fun c => (0 <=? c) && (c <=? 255)) (map byte_to_Z buffer) = true) as ->.
  { apply forallb_forall. intros c Hc. apply in_map_iff in Hc as (b & <- & _).
    pose proof (byte_to_Z_range b). lia. }
  rewrite map_map. f_equal. f_equal.
  rewrite <- (map_id buffer) at 2. apply map_ext. apply byte_of_to_Z.
Qed.

Lemma base64ToArrayBuffer_arrayBufferToBase64 (buffer : list byte) :
  exists text,
    arrayBufferToBase64 buffer = Some text /\ base64ToArrayBuffer text = Some buffer.
Proof.
  exists (base64_encode buffer). split; [apply arrayBufferToBase64_total|].
  apply atob_base64_encode.
Qed.

(** ** UTF-8 *)

Lemma list_ind2 {A : Type} (P : list A -> Prop) :
  P [] -> (forall a, P [a]) ->
  (forall a b l, P l -> P (b :: l) -> P (a :: b :: l)) ->
  forall l, P l.
Proof.
  intros H0 H1 H2.
  enough (forall l, P l /\ (forall a, P (a :: l))) as H by (intros l; apply H).
  induction l as [|x l (IH0 & IH1)]; split; auto.
Qed.

Ltac split_tests :=
  repeat match goal with
    | |- context [?a <=? ?b] => destruct (Z.leb_spec a b); try lia
    | |- context [?a <? ?b] => destruct (Z.ltb_spec a b); try lia
    | |- context [?a =? ?b] => destruct (Z.eqb_spec a b); try lia
    end.

Lemma code_points_scalar (s : jsstring) :
  wf_jsstring s -> isWellFormed s = true ->
  Forall is_scalar_value (code_points s)
  /\ flat_map utf16_units (code_points s) = s.
Proof.
  unfold wf_jsstring.
  induction s as [| c | c d s IH0 IH1] using list_ind2; intros Hw Hf.
  - split; [constructor | reflexivity].
  - inversion Hw as [|? ? Hc _]; subst. unfold is_code_unit in Hc.
    cbn [isWellFormed code_points] in *.
    unfold is_lead_surrogate, is_trail_surrogate, is_scalar_value in *.
    revert Hf. split_tests; cbn; try discriminate; intros _.
    all: split; [repeat constructor; lia|].
    all: unfold utf16_units; split_tests; reflexivity.
  - inversion Hw as [|? ? Hc Hw']; subst.
    inversion Hw' as [|? ? Hd Hw'']; subst.
    unfold is_code_unit in Hc, Hd.
    change (isWellFormed (c :: d :: s))
      with (if is_lead_surrogate c
            then is_trail_surrogate d && isWellFormed s
            else negb (is_trail_surrogate c) && isWellFormed (d :: s)) in Hf.
    change (code_points (c :: d :: s))
      with (if is_lead_surrogate c then
              if is_trail_surrogate d
              then (65536 + (c - 55296) * 1024 + (d - 56320)) :: code_points s
              else 65533 :: code_points (d :: s)
            else if is_trail_surrogate c then 65533 :: code_points (d :: s)
            else c :: code_points (d :: s)).
    destruct (is_lead_surrogate c) eqn:Lc.
    + apply andb_prop in Hf as [Td Hf]. rewrite Td.
      destruct (IH0 Hw'' Hf) as [S E].
      unfold is_lead_surrogate, is_trail_surrogate in Lc, Td.
      split.
      * constructor; [unfold is_scalar_value; lia | exact S].
      * cbn [flat_map]. rewrite E. unfold utf16_units.
        destruct (Z.ltb_spec (65536 + (c - 55296) * 1024 + (d - 56320)) 65536);
          [lia|].
        cbn [app]. f_equal; [|f_equal]; Z.div_mod_to_equations; lia.
    + apply andb_prop in Hf as [Tc Hf]. apply negb_true_iff in Tc. rewrite Tc.
      destruct (IH1 Hw' Hf) as [S E].
      unfold is_lead_surrogate, is_trail_surrogate in Lc, Tc.
      split.
      * constructor; [unfold is_scalar_value; lia | exact S].
      * cbn [flat_map]. rewrite E. unfold utf16_units.
        destruct (Z.ltb_spec c 65536); [reflexivity | lia].
Qed.

Lemma utf8_run_cons (st : utf8_state) (b : byte) (rest : list byte) :
  utf8_run st (b :: rest) =
    snd (utf8_step st (byte_to_Z b))
    ++ utf8_run (fst (utf8_step st (byte_to_Z b))) rest.
Proof.
  cbn [utf8_run]. now destruct (utf8_step st (byte_to_Z b)).
Qed.

Lemma utf8_run_byte (st : utf8_state) (z : Z) (rest : list byte) :
  0 <= z < 256 ->
  utf8_run st (byte_of_Z z :: rest) =
    snd (utf8_step st z) ++ utf8_run (fst (utf8_step st z)) rest.
Proof.
  intros Hz. now rewrite utf8_run_cons, byte_to_of_Z.
Qed.

Lemma utf8_step_lead (b : Z) : utf8_step utf8_initial b = utf8_lead b.
Proof. reflexivity. Qed.

Lemma utf8_step_last (cp lower upper b : Z) :
  lower <= b <= upper ->
  utf8_step {| u_code_point := cp; u_needed := 1;
               u_lower := lower; u_upper := upper |} b
  = (utf8_initial, [cp * 64 + b mod 64]).
Proof.
  intros Hb. unfold utf8_step. cbn [u_needed u_lower u_upper u_code_point].
  split_tests. reflexivity.
Qed.

Lemma utf8_step_more (cp needed lower upper b : Z) :
  1 < needed -> lower <= b <= upper ->
  utf8_step {| u_code_point := cp; u_needed := needed;
               u_lower := lower; u_upper := upper |} b
  = ({| u_code_point := cp * 64 + b mod 64; u_needed := needed - 1;
        u_lower := 128; u_upper := 191 |}, []).
Proof.
  intros Hn Hb. unfold utf8_step. cbn [u_needed u_lower u_upper u_code_point].
  split_tests. reflexivity.
Qed.

Lemma utf8_run_code_point (cp : Z) (rest : list byte) :
  is_scalar_value cp ->
  utf8_run utf8_initial (utf8_encode_code_point cp ++ rest)
  = cp :: utf8_run utf8_initial rest.
Proof.
  unfold is_scalar_value, utf8_encode_code_point. intros Hcp.
  destruct (Z.ltb_spec cp 128); [|destruct (Z.ltb_spec cp 2048);
    [|destruct (Z.ltb_spec cp 65536)]]; cbn [app].
  - rewrite utf8_run_byte, utf8_step_lead by lia. unfold utf8_lead.
    split_tests. reflexivity.
  - rewrite utf8_run_byte, utf8_step_lead by (Z.div_mod_to_equations; lia).
    unfold utf8_lead at 1 2.
    destruct (Z.leb_spec (192 + cp / 64) 127); [Z.div_mod_to_equations; lia|].
    destruct (Z.leb_spec 194 (192 + cp / 64)); [|Z.div_mod_to_equations; lia].
    destruct (Z.leb_spec (192 + cp / 64) 223); [|Z.div_mod_to_equations; lia].
    cbn [andb fst snd app].
    rewrite utf8_run_byte, utf8_step_last by (Z.div_mod_to_equations; lia).
    cbn [fst snd app]. f_equal. Z.div_mod_to_equations; lia.
  - rewrite utf8_run_byte, utf8_step_lead by (Z.div_mod_to_equations; lia).
    unfold utf8_lead at 1 2.
    destruct (Z.leb_spec (224 + cp / 4096) 127); [Z.div_mod_to_equations; lia|].
    destruct (Z.leb_spec 194 (224 + cp / 4096)); [|Z.div_mod_to_equations; lia].
    destruct (Z.leb_spec (224 + cp / 4096) 223); [Z.div_mod_to_equations; lia|].
    destruct (Z.leb_spec 224 (224 + cp / 4096)); [|Z.div_mod_to_equations; lia].
    destruct (Z.leb_spec (224 + cp / 4096) 239); [|Z.div_mod_to_equations; lia].
    cbn [andb fst snd app].
    rewrite utf8_run_byte, utf8_step_more;
      try (split_tests; Z.div_mod_to_equations; lia).
    cbn [fst snd app Z.sub Z.pos_sub Pos.pred_double].
    rewrite utf8_run_byte, utf8_step_last by (Z.div_mod_to_equations; lia).
    cbn [fst snd app]. f_equal. Z.div_mod_to_equations; lia.
  - rewrite utf8_run_byte, utf8_step_lead by (Z.div_mod_to_equations; lia).
    unfold utf8_lead at 1 2.
    destruct (Z.leb_spec (240 + cp / 262144) 127); [Z.div_mod_to_equations; lia|].
    destruct (Z.leb_spec 194 (240 + cp / 262144)); [|Z.div_mod_to_equations; lia].
    destruct (Z.leb_spec (240 + cp / 262144) 223); [Z.div_mod_to_equations; lia|].
    destruct (Z.leb_spec 224 (240 + cp / 262144)); [|Z.div_mod_to_equations; lia].
    destruct (Z.leb_spec (240 + cp / 262144) 239); [Z.div_mod_to_equations; lia|].
    destruct (Z.leb_spec 240 (240 + cp / 262144)); [|Z.div_mod_to_equations; lia].
    destruct (Z.leb_spec (240 + cp / 262144) 244); [|Z.div_mod_to_equations; lia].
    cbn [andb fst snd app].
    rewrite utf8_run_byte, utf8_step_more;
      try (split_tests; Z.div_mod_to_equations; lia).
    cbn [fst snd app Z.sub Z.pos_sub Pos.pred_double].
    rewrite utf8_run_byte, utf8_step_more by (Z.div_mod_to_equations; lia).
    cbn [fst snd app Z.sub Z.pos_sub Pos.pred_double].
    rewrite utf8_run_byte, utf8_step_last by (Z.div_mod_to_equations; lia).
    cbn [fst snd app]. f_equal. Z.div_mod_to_equations; lia.
Qed.

Lemma utf8_run_code_points (cps : list Z) :
  Forall is_scalar_value cps ->
  utf8_run utf8_initial (flat_map utf8_encode_code_point cps) = cps.
Proof.
  induction 1 as [|cp cps Hcp _ IH]; [reflexivity|].
  cbn [flat_map]. now rewrite utf8_run_code_point, IH.
Qed.

Lemma strip_bom_other (a b c : Z) (rest : list byte) :
  0 <= a < 256 -> 0 <= b < 256 -> 0 <= c < 256 ->
  ~ (a = 239 /\ b = 187 /\ c = 191) ->
  strip_bom (byte_of_Z a :: byte_of_Z b :: byte_of_Z c :: rest)
  = byte_of_Z a :: byte_of_Z b :: byte_of_Z c :: rest.
Proof.
  intros Ha Hb Hc H. unfold strip_bom. rewrite !byte_to_of_Z by assumption.
  split_tests; reflexivity.
Qed.

Lemma strip_bom_first (a : Z) (rest : list byte) :
  0 <= a < 256 -> a <> 239 ->
  strip_bom (byte_of_Z a :: rest) = byte_of_Z a :: rest.
Proof.
  intros Ha H. unfold strip_bom. destruct rest as [|b [|c rest]]; try reflexivity.
  rewrite byte_to_of_Z by assumption. split_tests; reflexivity.
Qed.

Lemma strip_bom_code_point (cp : Z) (rest : list byte) :
  is_scalar_value cp -> cp <> 65279 ->
  strip_bom (utf8_encode_code_point cp ++ rest) = utf8_encode_code_point cp ++ rest.
Proof.
  unfold is_scalar_value, utf8_encode_code_point. intros Hcp Hne.
  destruct (Z.ltb_spec cp 128); [|destruct (Z.ltb_spec cp 2048);
    [|destruct (Z.ltb_spec cp 65536)]]; cbn [app].
  - apply strip_bom_first; lia.
  - apply strip_bom_first; Z.div_mod_to_equations; lia.
  - apply strip_bom_other; Z.div_mod_to_equations; lia.
  - apply strip_bom_first; Z.div_mod_to_equations; lia.
Qed.

Lemma code_points_head (s : jsstring) :
  isWellFormed s = true -> starts_with_bom s = false ->
  match code_points s with
  | cp :: _ => cp <> 65279
  | [] => True
  end.
Proof.
  destruct s as [|c s]; [constructor|]. cbn [isWellFormed code_points starts_with_bom].
  unfold is_lead_surrogate, is_trail_surrogate.
  intros Hf Hb. apply Z.eqb_neq in Hb.
  destruct ((55296 <=? c) && (c <=? 56319)) eqn:L.
  - destruct s as [|d s]; [discriminate|].
    apply andb_prop in Hf as [Td _]. rewrite Td. lia.
  - apply andb_prop in Hf as [Tc _]. apply negb_true_iff in Tc. now rewrite Tc.
Qed.

(** A well-formed string that does not begin with U+FEFF survives the trip
    through [TextEncoder] and [TextDecoder]. *)
Lemma TextDecoder_decode_encode (s : jsstring) :
  wf_jsstring s -> isWellFormed s = true -> starts_with_bom s = false ->
  TextDecoder_decode (TextEncoder_encode s) = s.
Proof.
  intros Hw Hf Hb. unfold TextDecoder_decode, TextEncoder_encode.
  destruct (code_points_scalar s Hw Hf) as [S E].
  pose proof (code_points_head s Hf Hb) as Hh.
  assert (strip_bom (flat_map utf8_encode_code_point (code_points s))
          = flat_map utf8_encode_code_point (code_points s)) as ->.
  { destruct (code_points s) as [|cp cps]; [reflexivity|].
    cbn [flat_map]. inversion S; subst. now apply strip_bom_code_point. }
  now rewrite utf8_run_code_points.
Qed.

(** ** Record encryption *)

Section Records.

Context {W : WebCrypto} {Meta : Type}.

Implicit Types (c d e : credential Meta) (pin : jsstring) (g : rng).

Lemma encryptText_total (text : jsstring) (key : CryptoKey) (nonce : list byte) :
  encryptText text key nonce
  = Some (base64_encode (aes_gcm_encrypt key nonce (TextEncoder_encode text))).
Proof. apply arrayBufferToBase64_total. Qed.

Lemma decryptText_encrypted (text : jsstring) (key : CryptoKey) (nonce : list byte) :
  length nonce = 12%nat ->
  decryptText (base64_encode (aes_gcm_encrypt key nonce (TextEncoder_encode text)))
              key nonce
  = Some (TextDecoder_decode (TextEncoder_encode text)).
Proof.
  intros Hn. unfold decryptText, base64ToArrayBuffer.
  now rewrite atob_base64_encode, aes_gcm_decrypt_encrypt.
Qed.

Lemma encryptCredential_total c pin g :
  encryptCredential c pin g
  = (Some (encrypted_with c pin
             (fst (getRandomValues 16 g))
             (fst (getRandomValues 12 (snd (getRandomValues 16 g))))),
     snd (getRandomValues 12 (snd (getRandomValues 16 g)))).
Proof.
  unfold encryptCredential, generateSalt, generateIV.
  destruct (getRandomValues 16 g) as [salt_bytes g1].
  destruct (getRandomValues 12 g1) as [nonce g2] eqn:E.
  cbn [fst snd]. rewrite E. cbn [fst snd]. now rewrite !encryptText_total.
Qed.

Lemma encrypted_with_is_encrypted c pin (salt_bytes nonce : list byte) :
  salt_bytes <> [] -> nonce <> [] ->
  is_encrypted (encrypted_with c pin salt_bytes nonce) = true.
Proof.
  intros Hs Hn. unfold is_encrypted. cbn [iv salt encrypted_with truthy_field].
  now rewrite !arrayBufferToHex_truthy.
Qed.

Lemma decryptCredential_encrypted_with c pin (salt_bytes nonce : list byte) :
  length nonce = 12%nat ->
  decryptCredential (encrypted_with c pin salt_bytes nonce) pin
  = Some {| id := id c;
            site := TextDecoder_decode (TextEncoder_encode (site c));
            username := TextDecoder_decode (TextEncoder_encode (username c));
            password := TextDecoder_decode (TextEncoder_encode (password c));
            iv := None;
            salt := None;
            favicon := favicon c;
            riskScore := riskScore c;
            riskFactors := riskFactors c |}.
Proof.
  intros Hn. unfold decryptCredential.
  cbn [iv salt site username password id favicon riskScore riskFactors
       encrypted_with].
  rewrite !hexToUint8Array_arrayBufferToHex.
  now rewrite !decryptText_encrypted.
Qed.

(** C1, as the code has it.  For a record with exactly the seven fields
    (no [iv], no [salt]) whose [site], [username] and [password] are
    well-formed strings that do not begin with U+FEFF, and for every PIN
    and every state of the random generator, encryption succeeds and
    decrypting its result with the same PIN gives the record back. *)
Theorem decryptCredential_encryptCredential c pin g :
  iv c = None -> salt c = None ->
  text_safe (site c) -> text_safe (username c) -> text_safe (password c) ->
  exists e,
    fst (encryptCredential c pin g) = Some e
    /\ decryptCredential e pin = Some c.
Proof.
  intros Hiv Hsalt (Ws & Fs & Bs) (Wu & Fu & Bu) (Wp & Fp & Bp).
  rewrite encryptCredential_total. cbn [fst]. eexists. split; [reflexivity|].
  rewrite decryptCredential_encrypted_with by apply getRandomValues_length.
  rewrite !TextDecoder_decode_encode by assumption.
  destruct c; cbn in *; now subst.
Qed.

End Records.

Lemma decryptCredential_encryptCredential_witness :
  exists e,
    fst (encryptCredential (W := Toy.crypto)
           Example.legacy Example.pin Example.generator) = Some e
    /\ decryptCredential (W := Toy.crypto) e Example.pin = Some Example.legacy.
Proof.
  apply (decryptCredential_encryptCredential (W := Toy.crypto) Example.legacy).
  - reflexivity.
  - reflexivity.
  - repeat split; try reflexivity. repeat constructor; unfold is_code_unit; lia.
  - repeat split; try reflexivity. repeat constructor; unfold is_code_unit; lia.
  - repeat split; try reflexivity. repeat constructor; unfold is_code_unit; lia.
Defined.

(** C1 as stated fails for two kinds of string: [TextDecoder] drops a
    leading U+FEFF, and [TextEncoder] replaces an unpaired surrogate by
    U+FFFD.  Both records are encrypted and decrypted without error, and
    come back with another [site]. *)
Lemma decrypt_after_encrypt_changes_site :
  (decrypt_after_encrypt (W := Toy.crypto) Example.bom_site Example.pin
     Example.generator = Some (Example.with_site [97])
   /\ Example.with_site [97] <> Example.bom_site)
  /\ (decrypt_after_encrypt (W := Toy.crypto) Example.surrogate_site Example.pin
        Example.generator = Some (Example.with_site [65533])
      /\ Example.with_site [65533] <> Example.surrogate_site).
Proof.
  repeat split; try (vm_compute; reflexivity); discriminate.
Qed.

(** ** The load effect *)

Section Loading.

Context {W : WebCrypto} {Meta : Type}.

Implicit Types (c d e : credential Meta) (pin : jsstring) (g : rng)
  (stored shown : list (credential Meta)).

Lemma load_decrypt_spec pin stored :
  forall decryptedList tamperedCredentials,
    load_decrypt pin stored decryptedList tamperedCredentials
    = (decryptedList ++ flat_map (shown_as pin) stored,
       tamperedCredentials + Z.of_nat (length (filter (rejected pin) stored))).
Proof.
  induction stored as [|c stored IH]; intros acc t; cbn [load_decrypt].
  - cbn. now rewrite app_nil_r, Z.add_0_r.
  - cbn [flat_map filter]. unfold shown_as at 1, rejected at 1.
    destruct (is_encrypted c); cbn [andb].
    + destruct (decryptCredential c pin) as [d|]; rewrite IH.
      * now rewrite <- app_assoc.
      * cbn [length app]. f_equal. lia.
    + rewrite IH. now rewrite <- app_assoc.
Qed.

Lemma load_visible pin stored g :
  visible (load pin stored g) = flat_map (shown_as pin) stored.
Proof.
  unfold load. destruct stored as [|c stored].
  - cbn [flat_map]. now destruct (migrate _ _ _ _).
  - rewrite load_decrypt_spec. cbn [app].
    now destruct (migrate _ _ _ _).
Qed.

Lemma load_tampered pin stored g :
  tampered (load pin stored g) = Z.of_nat (length (filter (rejected pin) stored)).
Proof.
  unfold load. destruct stored as [|c stored].
  - cbn [filter length]. now destruct (migrate _ _ _ _).
  - rewrite load_decrypt_spec. rewrite Z.add_0_l.
    now destruct (migrate _ _ _ _).
Qed.

Lemma load_migrated pin stored g :
  migrated (load pin stored g)
  = fst (migrate (Some pin) stored (flat_map (shown_as pin) stored) g)
  /\ rng_after (load pin stored g)
     = snd (migrate (Some pin) stored (flat_map (shown_as pin) stored) g).
Proof.
  unfold load. destruct stored as [|c stored].
  - cbn [flat_map]. now destruct (migrate _ _ _ _).
  - rewrite load_decrypt_spec. cbn [app].
    now destruct (migrate _ _ _ _).
Qed.

Lemma decryptCredential_not_encrypted c d pin :
  decryptCredential c pin = Some d -> is_encrypted d = false.
Proof.
  unfold decryptCredential. intros H.
  repeat match type of H with
    | match ?x with _ => _ end = _ => destruct x; try discriminate
    end.
  now inversion H.
Qed.

Lemma decryptCredential_id c d pin :
  decryptCredential c pin = Some d -> id d = id c.
Proof.
  unfold decryptCredential. intros H.
  repeat match type of H with
    | match ?x with _ => _ end = _ => destruct x; try discriminate
    end.
  now inversion H.
Qed.

Lemma shown_not_encrypted pin stored d :
  In d (flat_map (shown_as pin) stored) -> is_encrypted d = false.
Proof.
  intros H. apply in_flat_map in H as (c & _ & Hd). unfold shown_as in Hd.
  destruct (is_encrypted c) eqn:E.
  - destruct (decryptCredential c pin) as [d'|] eqn:D; [|contradiction].
    destruct Hd as [<-|[]]. eapply decryptCredential_not_encrypted, D.
  - now destruct Hd as [<-|[]].
Qed.

Lemma opened_rejected_count pin stored :
  (length (filter (opened pin) stored) + length (filter (rejected pin) stored))%nat
  = length (filter is_encrypted stored).
Proof.
  induction stored as [|c stored IH]; [reflexivity|].
  cbn [filter]. unfold opened at 1, rejected at 1.
  destruct (is_encrypted c); cbn [andb]; [|exact IH].
  destruct (decryptCredential c pin); cbn [length]; lia.
Qed.

(** C2, as the code has it.  One run of the load effect with a PIN in
    hand goes through the stored list in order.  A record whose [iv] and
    [salt] are both truthy (present and not empty) is given to
    [decryptCredential]: when that succeeds the decrypted record is in
    the display list; when it fails the record is not in the display list
    and adds exactly one to the count of rejected records.  So the
    records opened plus the count make up the records with a truthy [iv]
    and [salt].  Every other record is shown as it is stored. *)
Theorem load_fail_closed pin stored g :
  let r := load pin stored g in
  visible r = flat_map (shown_as pin) stored
  /\ (forall c d,
         In c stored -> is_encrypted c = true ->
         decryptCredential c pin = Some d -> In d (visible r))
  /\ (forall c,
         In c stored -> is_encrypted c = true ->
         decryptCredential c pin = None -> ~ In c (visible r))
  /\ tampered r = Z.of_nat (length (filter (rejected pin) stored))
  /\ (forall before c after,
         stored = before ++ c :: after -> rejected pin c = true ->
         tampered r = tampered (load pin (before ++ after) g) + 1)
  /\ Z.of_nat (length (filter (opened pin) stored)) + tampered r
     = Z.of_nat (length (filter is_encrypted stored)).
Proof.
  intros r. subst r. rewrite load_visible, load_tampered.
  repeat split.
  - intros c d Hc He Hd. apply in_flat_map. exists c. split; [exact Hc|].
    unfold shown_as. rewrite He, Hd. now left.
  - intros c Hc He Hd Hin.
    apply (shown_not_encrypted pin stored c) in Hin. congruence.
  - intros before c after -> Hr. rewrite load_tampered.
    rewrite !filter_app. cbn [filter]. rewrite Hr.
    rewrite !length_app. cbn [length]. lia.
  - rewrite <- (opened_rejected_count pin stored). lia.
Qed.

(** The popup after the effect has run with a session PIN. *)
Lemma loadEffect_with_pin (extId : jsstring) (ui : popup Meta)
  (store : storage Meta) (now : Z) g pin :
  pinUnlocked ui = true ->
  fst (getSessionPin extId store now) = Some pin -> truthy pin = true ->
  let r := load pin (stored_list store) g in
  let '(ui', store', _) := loadEffect extId ui store now g in
  credentials ui' = visible r
  /\ tamperedCount ui' = (if tampered r >? 0 then tampered r else tamperedCount ui)
  /\ stored_list store' = persisted_after (stored_list store) r.
Proof.
  intros Hu Hp Ht. unfold loadEffect. rewrite Hu. cbn [negb].
  destruct (getSessionPin extId store now) as [sp store1] eqn:G.
  cbn [fst] in Hp. subst sp. rewrite Ht. cbn.
  repeat split.
  unfold persisted_after, write_creds, stored_list.
  assert (rf_creds store1 = rf_creds store) as E.
  { unfold getSessionPin in G. destruct (rf_pin_session store) as [s|].
    - destruct (now >? expiry s); [inversion G; reflexivity|].
      destruct (negb (truthy (ep s))); now inversion G.
    - now inversion G. }
  destruct (migrated _); [reflexivity|]. now rewrite E.
Qed.

(** ** Saving and purging *)

Lemma save_decrypt_spec pin stored :
  forall decryptedForDisplay,
    save_decrypt pin stored decryptedForDisplay
    = decryptedForDisplay ++ map (saved_as pin) stored.
Proof.
  induction stored as [|c stored IH]; intros acc; cbn [save_decrypt map].
  - now rewrite app_nil_r.
  - unfold saved_as at 1. destruct (is_encrypted c).
    + destruct (decryptCredential c pin); rewrite IH; now rewrite <- app_assoc.
    + rewrite IH. now rewrite <- app_assoc.
Qed.

Lemma performSave_spec (f : form) (normalizedSite favicon_url : jsstring)
  (score factors : Meta) pin (now : Z) (store : storage Meta) g :
  performSave f normalizedSite favicon_url score factors pin now store g
  = if negb (password_accepted (form_password f)) then (None, g)
    else
      let e := encrypted_with
                 {| id := now; site := normalizedSite;
                    username := form_username f; password := form_password f;
                    iv := None; salt := None; favicon := favicon_url;
                    riskScore := score; riskFactors := factors |}
                 pin (fst (getRandomValues 16 g))
                 (fst (getRandomValues 12 (snd (getRandomValues 16 g)))) in
      (Some (e :: stored_list store, map (saved_as pin) (e :: stored_list store)),
       snd (getRandomValues 12 (snd (getRandomValues 16 g)))).
Proof.
  unfold performSave. destruct (negb _); [reflexivity|].
  rewrite encryptCredential_total, save_decrypt_spec. reflexivity.
Qed.

(** C3 fails in [performSave].  Whenever it saves, every record that was
    already stored, is encrypted and is refused by [decryptCredential]
    under the PIN is handed to [setCredentials] as it is stored, that is
    as ciphertext. *)
Theorem performSave_shows_rejected (f : form) (normalizedSite favicon_url : jsstring)
  (score factors : Meta) pin (now : Z) (store : storage Meta) g
  (written shown : list (credential Meta)) (g' : rng) c :
  performSave f normalizedSite favicon_url score factors pin now store g
  = (Some (written, shown), g') ->
  In c (stored_list store) -> is_encrypted c = true ->
  decryptCredential c pin = None ->
  In c shown.
Proof.
  rewrite performSave_spec. intros H Hc He Hd.
  destruct (negb (password_accepted (form_password f))); [discriminate|].
  cbv zeta in H.
  match type of H with
  | (Some (_, ?l), _) = _ => assert (E : shown = l) by congruence
  end.
  rewrite E, map_cons. apply in_cons, in_map_iff. exists c. split; [|exact Hc].
  unfold saved_as. now rewrite He, Hd.
Qed.

Lemma purge_spec pin stored :
  forall validCredentials removedCount,
    purge pin stored validCredentials removedCount
    = (validCredentials ++ filter (fun c => negb (rejected pin c)) stored,
       removedCount + Z.of_nat (length (filter (rejected pin) stored))).
Proof.
  induction stored as [|c stored IH]; intros acc t; cbn [purge].
  - cbn. now rewrite app_nil_r, Z.add_0_r.
  - cbn [filter].
    destruct (is_encrypted c) eqn:E;
      [destruct (decryptCredential c pin) as [d|] eqn:D|]; rewrite IH.
    + replace (rejected pin c) with false by (unfold rejected; now rewrite E, D).
      cbn [negb]. now rewrite <- app_assoc.
    + replace (rejected pin c) with true by (unfold rejected; now rewrite E, D).
      cbn [negb length]. f_equal. lia.
    + replace (rejected pin c) with false by (unfold rejected; now rewrite E).
      cbn [negb]. now rewrite <- app_assoc.
Qed.

End Loading.

(** A record whose [site] is not base64 is refused whatever the cipher. *)
Lemma decryptCredential_garbled {W : WebCrypto} (pin : jsstring) :
  is_encrypted Example.garbled = true
  /\ decryptCredential Example.garbled pin = None.
Proof. split; reflexivity. Qed.

Lemma performSave_shows_rejected_witness :
  match fst (performSave (W := Toy.crypto) Example.save_form
               (site Example.legacy) [] tt tt Example.pin 77
               (Example.storage_with [Example.garbled]) Example.generator) with
  | Some (_, shown) => In Example.garbled shown
  | None => False
  end.
Proof.
  destruct (performSave (W := Toy.crypto) Example.save_form
              (site Example.legacy) [] tt tt Example.pin 77
              (Example.storage_with [Example.garbled]) Example.generator)
    as [[[written shown]|] g'] eqn:E; cbn [fst].
  - apply (performSave_shows_rejected (W := Toy.crypto) _ _ _ _ _ _ _ _ _ _ _ _
             Example.garbled E).
    + left. reflexivity.
    + reflexivity.
    + reflexivity.
  - vm_compute in E. discriminate E.
Defined.

(** C2 as stated fails for a stored record that has both fields with an
    empty [iv]: [decryptCredential] would refuse it, yet the load effect
    does not try, shows it as it is stored and does not count it. *)
Lemma load_shows_garbled_empty_iv :
  let r := load (W := Toy.crypto) Example.pin [Example.garbled_empty_iv]
             Example.generator in
  iv Example.garbled_empty_iv <> None /\ salt Example.garbled_empty_iv <> None
  /\ decryptCredential (W := Toy.crypto) Example.garbled_empty_iv Example.pin = None
  /\ In Example.garbled_empty_iv (visible r)
  /\ tampered r = 0.
Proof.
  repeat split; try discriminate; try reflexivity. left. reflexivity.
Qed.

(** The same stored record is kept out of the display list by the load
    effect. *)
Lemma load_hides_garbled :
  let r := load (W := Toy.crypto) Example.pin [Example.garbled] Example.generator in
  visible r = [] /\ tampered r = 1.
Proof. split; reflexivity. Qed.

(** ** Migration of legacy records *)

Section Migration.

Context {W : WebCrypto} {Meta : Type}.

Implicit Types (c d e : credential Meta) (pin : jsstring) (g : rng)
  (stored shown : list (credential Meta)).

Lemma encryption_of_opened pin c e :
  encryption_of pin c e ->
  is_encrypted e = true /\ id e = id c /\ decryptCredential e pin <> None.
Proof.
  intros (sb & n & Hs & Hn & ->). repeat split.
  - apply encrypted_with_is_encrypted; intros ->; discriminate.
  - rewrite decryptCredential_encrypted_with by assumption. discriminate.
Qed.

Lemma is_encrypted_not_plaintext c :
  is_encrypted c = true -> is_plaintext c = false.
Proof.
  unfold is_encrypted, is_plaintext. intros H.
  apply andb_prop in H as [-> _]. reflexivity.
Qed.

Lemma is_plaintext_not_encrypted c :
  is_plaintext c = true -> is_encrypted c = false.
Proof.
  intros H. destruct (is_encrypted c) eqn:E; [|reflexivity].
  apply is_encrypted_not_plaintext in E. congruence.
Qed.

Lemma migrate_encrypt_spec pin (plaintextCreds : list (credential Meta)) :
  forall encryptedMigrated g,
  exists es,
    fst (migrate_encrypt pin plaintextCreds encryptedMigrated g)
    = encryptedMigrated ++ es
    /\ Forall2 (encryption_of pin) plaintextCreds es.
Proof.
  induction plaintextCreds as [|c l IH]; intros acc g; cbn [migrate_encrypt].
  - exists []. split; [now rewrite app_nil_r | constructor].
  - rewrite encryptCredential_total.
    destruct (IH (acc ++ [encrypted_with c pin
                            (fst (getRandomValues 16 g))
                            (fst (getRandomValues 12 (snd (getRandomValues 16 g))))])
                (snd (getRandomValues 12 (snd (getRandomValues 16 g)))))
      as (es & E & F).
    eexists (_ :: es). split; [rewrite E; now rewrite <- app_assoc|].
    constructor; [|exact F].
    do 2 eexists. repeat split; apply getRandomValues_length.
Qed.

Lemma replace_migrated_other (es : list (credential Meta)) c :
  is_plaintext c = false -> replace_migrated es c = c.
Proof. unfold replace_migrated. now intros ->. Qed.

Lemma map_replace_migrated_fixed (es : list (credential Meta)) stored :
  Forall (fun c => is_plaintext c = false) stored ->
  map (replace_migrated es) stored = stored.
Proof.
  induction 1 as [|c stored Hc _ IH]; [reflexivity|].
  cbn [map]. now rewrite replace_migrated_other, IH.
Qed.

Lemma map_replace_migrated_nil stored :
  map (replace_migrated []) stored = stored.
Proof.
  induction stored as [|c stored IH]; [reflexivity|].
  cbn [map]. rewrite IH. unfold replace_migrated. cbn [find].
  now destruct (is_plaintext c).
Qed.

(** The list a load leaves under [rf_creds]. *)
Lemma persisted_after_load pin stored g :
  exists es,
    persisted_after stored (load pin stored g) = map (replace_migrated es) stored
    /\ (truthy pin = true ->
        Forall2 (encryption_of pin)
                (filter is_plaintext (flat_map (shown_as pin) stored)) es).
Proof.
  unfold persisted_after. destruct (load_migrated pin stored g) as [-> _].
  unfold migrate.
  destruct (filter is_plaintext (flat_map (shown_as pin) stored))
    as [|c0 l0] eqn:F.
  - exists []. cbn [fst]. split; [|constructor].
    now rewrite map_replace_migrated_nil.
  - destruct (truthy pin) eqn:T.
    + destruct (migrate_encrypt_spec pin (c0 :: l0) [] g) as (es & E & F2).
      destruct (migrate_encrypt pin (c0 :: l0) [] g) as [em g'].
      cbn [fst app] in E. subst em. exists es.
      inversion F2 as [|? e ? es' ? ?]; subst.
      cbn [fst]. split; [reflexivity | intros _; exact F2].
    + exists []. cbn [fst]. split; [|discriminate].
      now rewrite map_replace_migrated_nil.
Qed.

Lemma stored_plaintext_shown pin stored c :
  In c stored -> is_plaintext c = true ->
  In c (filter is_plaintext (flat_map (shown_as pin) stored)).
Proof.
  intros Hc Hp. apply filter_In. split; [|exact Hp].
  apply in_flat_map. exists c. split; [exact Hc|].
  unfold shown_as. rewrite (is_plaintext_not_encrypted c Hp). now left.
Qed.

Lemma find_encryption pin (l es : list (credential Meta)) c :
  Forall2 (encryption_of pin) l es -> In c l ->
  exists e c',
    find (fun e => id e =? id c) es = Some e
    /\ In c' l /\ id c' = id c /\ encryption_of pin c' e.
Proof.
  induction 1 as [|c0 e0 l es H0 _ IH]; intros Hc; [contradiction|].
  cbn [find]. destruct (Z.eqb_spec (id e0) (id c)) as [E|N].
  - exists e0, c0. repeat split; [now left| |exact H0].
    destruct (encryption_of_opened pin c0 e0 H0) as (_ & I & _). congruence.
  - destruct Hc as [->|Hc].
    + destruct (encryption_of_opened pin c e0 H0) as (_ & I & _). contradiction.
    + destruct (IH Hc) as (e & c' & F & Hin & I & En).
      exists e, c'. repeat split; auto. now right.
Qed.

Lemma migrated_from_replace pin stored (es : list (credential Meta)) :
  Forall2 (encryption_of pin)
          (filter is_plaintext (flat_map (shown_as pin) stored)) es ->
  forall part,
    incl part stored ->
    Forall2 (migrated_from pin) part (map (replace_migrated es) part).
Proof.
  intros F. induction part as [|c part IH]; intros Hi; cbn [map];
    constructor.
  - unfold migrated_from, replace_migrated.
    destruct (is_plaintext c) eqn:P; [|reflexivity].
    assert (In c stored) as Hc by (apply Hi; now left).
    destruct (find_encryption pin _ es c F (stored_plaintext_shown pin stored c Hc P))
      as (e & c' & -> & _ & I & En).
    destruct (encryption_of_opened pin c' e En) as (E1 & E2 & E3).
    repeat split; congruence.
  - apply IH. intros x Hx. apply Hi. now right.
Qed.

Lemma migrated_from_stable pin stored stored' :
  Forall2 (migrated_from pin) stored stored' ->
  Forall (fun c => is_plaintext c = false) stored'
  /\ length (filter (rejected pin) stored') = length (filter (rejected pin) stored).
Proof.
  induction 1 as [|c c' stored stored' H _ [IH1 IH2]]; [split; [constructor|reflexivity]|].
  unfold migrated_from in H. cbn [filter].
  destruct (is_plaintext c) eqn:P.
  - destruct H as (E & _ & D). split.
    + constructor; [now apply is_encrypted_not_plaintext | exact IH1].
    + replace (rejected pin c') with false
        by (unfold rejected; rewrite E; now destruct (decryptCredential c' pin)).
      replace (rejected pin c) with false
        by (unfold rejected; now rewrite (is_plaintext_not_encrypted c P)).
      exact IH2.
  - subst c'. split; [constructor; assumption|].
    destruct (rejected pin c); cbn [length]; congruence.
Qed.

Lemma NoDup_map_inj {A B : Type} (f : A -> B) (l : list A) (a b : A) :
  NoDup (map f l) -> In a l -> In b l -> f a = f b -> a = b.
Proof.
  induction l as [|x l IH]; [contradiction|].
  cbn [map]. intros N Ha Hb E. inversion N as [|? ? Hx N']; subst.
  destruct Ha as [<-|Ha], Hb as [<-|Hb]; auto.
  - exfalso. apply Hx. rewrite E. now apply in_map.
  - exfalso. apply Hx. rewrite <- E. now apply in_map.
Qed.

Lemma shown_as_id pin c d : In d (shown_as pin c) -> id d = id c.
Proof.
  unfold shown_as. destruct (is_encrypted c).
  - destruct (decryptCredential c pin) as [d'|] eqn:D; [|contradiction].
    intros [<-|[]]. eapply decryptCredential_id, D.
  - now intros [<-|[]].
Qed.

(** When the stored ids are pairwise distinct, the record that replaces
    a migrated one is the encryption of that very record. *)
Lemma migrated_encryption_of pin stored (es : list (credential Meta)) :
  NoDup (map id stored) ->
  Forall2 (encryption_of pin)
          (filter is_plaintext (flat_map (shown_as pin) stored)) es ->
  forall c,
    In c stored -> is_plaintext c = true ->
    encryption_of pin c (replace_migrated es c).
Proof.
  intros N F c Hc P. unfold replace_migrated. rewrite P.
  destruct (find_encryption pin _ es c F (stored_plaintext_shown pin stored c Hc P))
    as (e & c' & -> & Hin & I & En).
  apply filter_In in Hin as [Hin _].
  apply in_flat_map in Hin as (c0 & Hc0 & Hs).
  pose proof (shown_as_id pin c0 c' Hs) as I0.
  assert (c0 = c) as -> by (apply (NoDup_map_inj id stored); congruence).
  unfold shown_as in Hs. rewrite (is_plaintext_not_encrypted c P) in Hs.
  destruct Hs as [<-|[]]. exact En.
Qed.

(** C4, as the code has it.  With a non-empty PIN, one load puts, in
    place of every stored record the migration filter picks (no truthy
    [iv], no truthy [salt], a non-empty password), an encrypted record
    with the same id that the PIN opens, and leaves every other record
    as it is; when the stored ids are pairwise distinct, that record is
    the encryption of the record it replaces.  No record picked by the
    filter is left.  A second load on the resulting list leaves the list
    as it is and rejects exactly as many records as the first; its count
    is 0 when the PIN opens every encrypted record that was stored. *)
Theorem load_migrates pin stored g :
  truthy pin = true ->
  let r1 := load pin stored g in
  let stored' := persisted_after stored r1 in
  let r2 := load pin stored' (rng_after r1) in
  Forall2 (migrated_from pin) stored stored'
  /\ (NoDup (map id stored) ->
      forall n c c',
        nth_error stored n = Some c -> nth_error stored' n = Some c' ->
        is_plaintext c = true -> encryption_of pin c c')
  /\ Forall (fun c => is_plaintext c = false) stored'
  /\ persisted_after stored' r2 = stored'
  /\ tampered r2 = tampered r1
  /\ (Forall (fun c => rejected pin c = false) stored -> tampered r2 = 0).
Proof.
  intros T r1 stored' r2.
  destruct (persisted_after_load pin stored g) as (es & E & F).
  specialize (F T).
  assert (M : Forall2 (migrated_from pin) stored stored').
  { subst stored' r1. rewrite E.
    apply (migrated_from_replace pin stored es F). apply incl_refl. }
  destruct (migrated_from_stable pin stored stored' M) as [P C].
  assert (T2 : tampered r2 = tampered r1).
  { subst r2 r1. now rewrite !load_tampered, C. }
  repeat split; try assumption.
  - intros N n c c' Hn Hn' Pc. subst stored' r1. rewrite E in Hn'.
    rewrite nth_error_map, Hn in Hn'. cbn [option_map] in Hn'.
    injection Hn' as <-.
    apply (migrated_encryption_of pin stored es N F).
    + eapply nth_error_In, Hn.
    + exact Pc.
  - destruct (persisted_after_load pin stored' (rng_after r1)) as (es2 & E2 & _).
    subst r2. rewrite E2. now apply map_replace_migrated_fixed.
  - intros R. rewrite T2. subst r1. rewrite load_tampered.
    replace (filter (rejected pin) stored) with (@nil (credential Meta)); [reflexivity|].
    symmetry. clear - R. induction R as [|c l Hc _ IH]; [reflexivity|].
    cbn [filter]. now rewrite Hc.
Qed.

Lemma unclassified_neither c :
  unclassified c -> is_encrypted c = false /\ is_plaintext c = false.
Proof.
  unfold unclassified, is_encrypted, is_plaintext.
  intros [[-> ->]|[[-> ->]|(-> & -> & ->)]]; split; reflexivity.
Qed.

(** C10, as the code has it.  A stored record of which exactly one of
    [iv] and [salt] is truthy, or neither is and the password is falsy,
    is shown as it is stored, at its place among the records shown; it
    does not count as rejected; and it is still at its place in the list
    under [rf_creds] after the load, migration or not. *)
Theorem load_leaves_unclassified pin before c after g :
  unclassified c ->
  let stored := before ++ c :: after in
  let r := load pin stored g in
  shown_as pin c = [c]
  /\ visible r = flat_map (shown_as pin) before ++ c :: flat_map (shown_as pin) after
  /\ rejected pin c = false
  /\ tampered r = tampered (load pin (before ++ after) g)
  /\ (forall es, replace_migrated es c = c)
  /\ nth_error (persisted_after stored r) (length before) = Some c.
Proof.
  intros U stored r. destruct (unclassified_neither c U) as [E P].
  assert (S : shown_as pin c = [c]) by (unfold shown_as; now rewrite E).
  assert (R : rejected pin c = false) by (unfold rejected; now rewrite E).
  repeat split; try assumption.
  - subst r stored. rewrite load_visible, flat_map_app. cbn [flat_map].
    now rewrite S.
  - subst r stored. rewrite !load_tampered, !filter_app. cbn [filter].
    now rewrite R.
  - intros es. now apply replace_migrated_other.
  - destruct (persisted_after_load pin stored g) as (es & E' & _).
    subst r. rewrite E'. subst stored. rewrite map_app. cbn [map].
    rewrite nth_error_app2 by (rewrite length_map; lia).
    rewrite length_map, Nat.sub_diag. cbn [nth_error].
    now rewrite replace_migrated_other.
Qed.

End Migration.

Lemma load_migrates_witness :
  let stored := [Example.legacy; Example.foreign; Example.empty_password] in
  let r1 := load (W := Toy.crypto) Example.pin stored Example.generator in
  let r2 := load (W := Toy.crypto) Example.pin (persisted_after stored r1)
              (rng_after r1) in
  Forall (fun c => is_plaintext c = false) (persisted_after stored r1)
  /\ persisted_after (persisted_after stored r1) r2 = persisted_after stored r1
  /\ tampered r2 = tampered r1.
Proof.
  intros stored r1 r2.
  destruct (load_migrates (W := Toy.crypto) Example.pin stored Example.generator
              eq_refl) as (_ & _ & P & S & T & _).
  repeat split; assumption.
Defined.

(** C4 as stated fails twice.  A legacy record with an empty password is
    not picked by the migration filter: it is still stored without [iv]
    and [salt] after the load.  And a stored record that cannot be
    decrypted is rejected again by the second load, whose count is then
    1. *)
Lemma load_keeps_plaintext_and_rejections :
  (let stored := [Example.empty_password] in
   let r1 := load (W := Toy.crypto) Example.pin stored Example.generator in
   persisted_after stored r1 = [Example.empty_password]
   /\ iv Example.empty_password = None /\ salt Example.empty_password = None)
  /\ (let stored := [Example.legacy; Example.garbled] in
      let r1 := load (W := Toy.crypto) Example.pin stored Example.generator in
      let r2 := load (W := Toy.crypto) Example.pin (persisted_after stored r1)
                  (rng_after r1) in
      iv Example.legacy = None /\ salt Example.legacy = None
      /\ tampered r2 = 1 /\ tampered r2 <> 0).
Proof.
  repeat split; try (vm_compute; reflexivity). vm_compute. discriminate.
Qed.

Lemma load_leaves_unclassified_witness :
  let stored := [Example.legacy; Example.empty_password] in
  let r := load (W := Toy.crypto) Example.pin stored Example.generator in
  visible r = [Example.legacy; Example.empty_password]
  /\ nth_error (persisted_after stored r) 1 = Some Example.empty_password.
Proof.
  intros stored r.
  assert (U : unclassified Example.empty_password)
    by (right; right; repeat split; reflexivity).
  destruct (load_leaves_unclassified (W := Toy.crypto) Example.pin
              [Example.legacy] Example.empty_password [] Example.generator U)
    as (_ & V & _ & _ & _ & N).
  split; [exact V | exact N].
Defined.

(** C10 as stated fails for a record that has an [iv] field holding the
    empty string and no [salt] field: it has exactly one of the two
    fields, yet the migration filter picks it and the load writes an
    encrypted record in its place. *)
Lemma empty_iv_is_migrated :
  let stored := [Example.empty_iv] in
  let r := load (W := Toy.crypto) Example.pin stored Example.generator in
  iv Example.empty_iv = Some [] /\ salt Example.empty_iv = None
  /\ is_plaintext Example.empty_iv = true
  /\ persisted_after stored r
     = [encrypted_with (W := Toy.crypto) Example.empty_iv Example.pin
          (fst (getRandomValues 16 Example.generator))
          (fst (getRandomValues 12 (snd (getRandomValues 16 Example.generator))))]
  /\ persisted_after stored r <> stored.
Proof.
  repeat split; try (vm_compute; reflexivity). vm_compute. discriminate.
Qed.

(** ** What the text codec does to a record, whatever the cipher *)

Lemma decrypt_after_encrypt_spec {W : WebCrypto} {Meta : Type}
  (c : credential Meta) (pin : jsstring) (g : rng) :
  decrypt_after_encrypt c pin g
  = Some {| id := id c;
            site := TextDecoder_decode (TextEncoder_encode (site c));
            username := TextDecoder_decode (TextEncoder_encode (username c));
            password := TextDecoder_decode (TextEncoder_encode (password c));
            iv := None;
            salt := None;
            favicon := favicon c;
            riskScore := riskScore c;
            riskFactors := riskFactors c |}.
Proof.
  unfold decrypt_after_encrypt. rewrite encryptCredential_total. cbn [fst].
  apply decryptCredential_encrypted_with, getRandomValues_length.
Qed.

Lemma decrypt_after_encrypt_bom {W : WebCrypto} (pin : jsstring) (g : rng) :
  decrypt_after_encrypt Example.bom_site pin g = Some (Example.with_site [97]).
Proof. rewrite decrypt_after_encrypt_spec. reflexivity. Qed.

Lemma decrypt_after_encrypt_surrogate {W : WebCrypto} (pin : jsstring) (g : rng) :
  decrypt_after_encrypt Example.surrogate_site pin g
  = Some (Example.with_site [65533]).
Proof. rewrite decrypt_after_encrypt_spec. reflexivity. Qed.

(** ** Salt and nonce of an encryption *)

Section Draws.

Context {W : WebCrypto} {Meta : Type}.

(** Every call of [encryptCredential] succeeds, takes the next 16 bytes
    of the generator as salt and the 12 after them as nonce, and leaves
    the generator 28 bytes further. *)
Lemma encryptCredential_draws (c : credential Meta) (pin : jsstring) (g : rng) :
  let salt_bytes := map (entropy g) (seq (drawn g) 16) in
  let nonce := map (entropy g) (seq (drawn g + 16) 12) in
  encryptCredential c pin g
  = (Some (encrypted_with c pin salt_bytes nonce),
     {| entropy := entropy g; drawn := (drawn g + 16 + 12)%nat |}).
Proof. intros salt_bytes nonce. now rewrite encryptCredential_total. Qed.

(** Two encryptions whose salts differ store different [salt] fields,
    and likewise for the nonce and the [iv] field, whatever the records
    and the PINs. *)
Lemma encrypted_with_distinct (c c' : credential Meta) (pin pin' : jsstring)
  (salt_bytes salt_bytes' nonce nonce' : list byte) :
  (salt_bytes <> salt_bytes' ->
   salt (encrypted_with c pin salt_bytes nonce)
   <> salt (encrypted_with c' pin' salt_bytes' nonce'))
  /\ (nonce <> nonce' ->
      iv (encrypted_with c pin salt_bytes nonce)
      <> iv (encrypted_with c' pin' salt_bytes' nonce')).
Proof.
  cbn [salt iv encrypted_with]. split; intros N E; apply N;
    injection E as E; now apply arrayBufferToHex_inj.
Qed.

End Draws.

(** ** Presence and truthiness of [iv] and [salt] *)

(** [encryptCredential] always writes a 24-character [iv] and a
    32-character [salt].  For records whose [iv] and [salt], when present,
    are not empty, the test [cred.iv && cred.salt] is the presence of both
    fields. *)
Lemma is_encrypted_presence {Meta : Type} (c : credential Meta) :
  iv c <> Some [] -> salt c <> Some [] ->
  (is_encrypted c = true <-> iv c <> None /\ salt c <> None).
Proof.
  unfold is_encrypted, truthy_field. intros Hi Hs.
  destruct (iv c) as [[|x i]|], (salt c) as [[|y s]|]; cbn; split;
    try congruence; try tauto; intros H; try discriminate H;
    try (split; discriminate); destruct H; congruence.
Qed.

Lemma encrypted_with_lengths {W : WebCrypto} {Meta : Type} (c : credential Meta)
  (pin : jsstring) (salt_bytes nonce : list byte) :
  length salt_bytes = 16%nat -> length nonce = 12%nat ->
  exists iv_hex salt_hex,
    iv (encrypted_with c pin salt_bytes nonce) = Some iv_hex
    /\ salt (encrypted_with c pin salt_bytes nonce) = Some salt_hex
    /\ length iv_hex = 24%nat /\ length salt_hex = 32%nat.
Proof.
  intros Hs Hn. do 2 eexists. repeat split; cbn [iv salt encrypted_with];
    rewrite arrayBufferToHex_length; lia.
Qed.

(** ** The scenario of the specification

    PIN ["1234"]; save [gmail.com], [a@b.com], [Abc123!]; a load with the
    PIN shows exactly that record and rejects none; a load with another PIN
    shows nothing and rejects one. *)
Lemma scenario_save_then_load :
  match fst (performSave (W := Toy.crypto) Example.save_form
               (site Example.legacy) [] tt tt Example.pin 1
               Example.empty_storage Example.generator) with
  | Some (written, shown) =>
      shown = [Example.legacy]
      /\ (let r := load (W := Toy.crypto) Example.pin written Example.generator in
          visible r = [Example.legacy] /\ tampered r = 0
          /\ persisted_after written r = written)
      /\ (let r := load (W := Toy.crypto) Example.other_pin written
                     Example.generator in
          visible r = [] /\ tampered r = 1)
  | None => False
  end.
Proof. vm_compute. repeat split. Qed.

(** ** Purging and locking *)

Section Purging.

Context {W : WebCrypto} {Meta : Type}.

Implicit Types (pin : jsstring) (stored : list (credential Meta)).

Lemma filter_rejected_kept pin stored :
  filter (rejected pin) (filter (fun c => negb (rejected pin c)) stored) = [].
Proof.
  induction stored as [|c stored IH]; [reflexivity|].
  cbn [filter]. destruct (rejected pin c) eqn:R; cbn [negb]; [exact IH|].
  cbn [filter]. now rewrite R.
Qed.

Lemma shown_kept pin stored :
  flat_map (shown_as pin) (filter (fun c => negb (rejected pin c)) stored)
  = flat_map (shown_as pin) stored.
Proof.
  induction stored as [|c stored IH]; [reflexivity|].
  cbn [filter flat_map]. destruct (rejected pin c) eqn:R; cbn [negb].
  - rewrite IH. unfold rejected in R. unfold shown_as.
    destruct (is_encrypted c); [|discriminate].
    now destruct (decryptCredential c pin).
  - cbn [flat_map]. now rewrite IH.
Qed.

(** [onClearCorrupted] keeps the records the load effect shows, reports
    how many it dropped, and the load that follows rejects nothing and
    shows what the load before showed. *)
Lemma purge_then_load pin stored (g : rng) :
  let kept := fst (purge pin stored [] 0) in
  kept = filter (fun c => negb (rejected pin c)) stored
  /\ snd (purge pin stored [] 0) = tampered (load pin stored g)
  /\ tampered (load pin kept g) = 0
  /\ visible (load pin kept g) = visible (load pin stored g).
Proof.
  intros kept. subst kept. rewrite purge_spec. cbn [fst snd app].
  rewrite !load_tampered, !load_visible, filter_rejected_kept, shown_kept.
  repeat split.
Qed.

(** [clearSession] removes the session whatever the state, and doing it
    twice is doing it once. *)
Lemma clearSession_idempotent (store : storage Meta) :
  rf_pin_session (clearSession store) = None
  /\ clearSession (clearSession store) = clearSession store.
Proof. split; reflexivity. Qed.

(** [isSessionUnlocked] and [getSessionPin] agree on when a session has
    expired. *)
Lemma isSessionUnlocked_getSessionPin (extId : jsstring) (store : storage Meta)
  (now : Z) :
  snd (isSessionUnlocked store now) = snd (getSessionPin extId store now)
  /\ fst (isSessionUnlocked store now) = session_valid store now.
Proof.
  unfold isSessionUnlocked, getSessionPin, session_valid.
  destruct (rf_pin_session store) as [s|]; [|split; reflexivity].
  destruct (now >? expiry s); [split; reflexivity|].
  destruct (negb (truthy (ep s))); split; reflexivity.
Qed.

End Purging.

(** ** Enrollment on examples

    ["1234"] confirmed by ["1234"] is enrolled and unlocks; ["12a4"] is
    refused as not numeric, ["123"] and ["1234567"] as too short and too
    long, and nothing is stored for them. *)
Lemma enroll_examples :
  let try pin confirmPin :=
    enroll (W := Toy.crypto) Example.extId pin confirmPin 0
      Example.locked_popup Example.empty_storage in
  (let '(err, ui, store) := try Example.pin Example.pin in
   err = None /\ pinUnlocked ui = true
   /\ rf_pin_hash store = Some (hashPin (W := Toy.crypto) Example.pin)
   /\ fst (getSessionPin Example.extId store 1) = Some Example.pin)
  /\ try [49; 50; 97; 52] [49; 50; 97; 52]
     = (Some PinMustContainOnlyNumbers, Example.locked_popup, Example.empty_storage)
  /\ try [49; 50; 51] [49; 50; 51]
     = (Some PinMustBe4To6Digits, Example.locked_popup, Example.empty_storage)
  /\ try [49; 50; 51; 52; 53; 54; 55] [49; 50; 51; 52; 53; 54; 55]
     = (Some PinMustBe4To6Digits, Example.locked_popup, Example.empty_storage)
  /\ try Example.pin Example.other_pin
     = (Some PinsDoNotMatch, Example.locked_popup, Example.empty_storage).
Proof. vm_compute. repeat split. Qed.

(** * The event log *)

Lemma jsstring_eqb_eq (a b : jsstring) : jsstring_eqb a b = true <-> a = b.
Proof.
  revert b. induction a as [|x a IH]; intros [|y b]; cbn; split;
    try congruence; try reflexivity.
  - intros H. apply andb_true_iff in H as [H1 H2].
    apply Z.eqb_eq in H1. apply IH in H2. congruence.
  - intros [= -> ->]. rewrite Z.eqb_refl. now apply IH.
Qed.

Lemma firstn_app_firstn {A : Type} (n : nat) (l1 l2 : list A) :
  firstn n (l1 ++ firstn n l2) = firstn n (l1 ++ l2).
Proof.
  rewrite !firstn_app, firstn_firstn. f_equal. f_equal. lia.
Qed.

Lemma event_eqb_distinct (e : option jsstring) (a b : jsstring) :
  event_eqb e (Some a) = true -> jsstring_eqb a b = false ->
  event_eqb e (Some b) = false.
Proof.
  intros H D. destruct e as [x|]; cbn in *; [|discriminate].
  apply jsstring_eqb_eq in H. subst x. exact D.
Qed.

(** Once an entry is known to be of one type, the tests for the other
    types are false; [one_event] goes through the types in turn. *)
Ltac others_false E :=
  repeat match goal with
  | |- context [event_eqb ?e (Some ?b)] =>
      match type of E with
      | event_eqb _ (Some ?a) = true =>
          rewrite (event_eqb_distinct e a b E eq_refl)
      end
  end.

Ltac one_event :=
  repeat match goal with
  | |- context [event_eqb ?e (Some ?a)] =>
      let E := fresh "E" in
      destruct (event_eqb e (Some a)) eqn:E; [others_false E|]
  end.

Section EventLogFacts.

Context {Data : Type}.

Implicit Types (logs : option (list (log_entry Data))) (l : list (log_entry Data)).

Lemma logEvent_firstn eventType (data : Data) ident now logs :
  logEvent eventType data ident now logs
  = firstn MAX_LOGS
      ({| log_id := ident; log_timestamp := now; log_event := eventType;
          log_data := data |} :: stored_logs logs).
Proof.
  unfold logEvent. cbv zeta.
  destruct (Nat.ltb_spec MAX_LOGS
              (length ({| log_id := ident; log_timestamp := now;
                          log_event := eventType; log_data := data |}
                       :: stored_logs logs))) as [H|H].
  - reflexivity.
  - symmetry. apply firstn_all2. exact H.
Qed.

Lemma logEvent_room eventType (data : Data) ident now logs :
  (length (stored_logs logs) < MAX_LOGS)%nat ->
  logEvent eventType data ident now logs
  = {| log_id := ident; log_timestamp := now; log_event := eventType;
       log_data := data |} :: stored_logs logs.
Proof.
  intros H. rewrite logEvent_firstn. apply firstn_all2. cbn [length]. lia.
Qed.

(** X1.  After one or more calls of [logEvent], each reading what the one
    before wrote, [rf_event_logs] holds the entries of the calls, newest
    first, in front of what was stored, cut to the first [MAX_LOGS] = 500:
    the log never grows past 500 entries, the oldest go first, and after
    500 calls nothing older is left.  A missing or non-array value counts
    as the empty log. *)
Theorem logEvents_keeps_newest (c : log_call Data) calls logs :
  logEvents (c :: calls) logs
  = Some (firstn MAX_LOGS (rev (map entry_of (c :: calls)) ++ stored_logs logs)).
Proof.
  revert c logs. induction calls as [|c' calls IH]; intros c logs.
  - cbn [logEvents map rev app]. now rewrite logEvent_firstn.
  - change (logEvents (c :: c' :: calls) logs)
      with (logEvents (c' :: calls)
              (Some (logEvent (call_event c) (call_data c) (call_id c)
                       (call_now c) logs))).
    rewrite IH. cbn [stored_logs]. rewrite logEvent_firstn.
    rewrite firstn_app_firstn.
    change (map entry_of (c :: c' :: calls))
      with (entry_of c :: map entry_of (c' :: calls)).
    cbn [rev]. rewrite <- app_assoc. reflexivity.
Qed.

Lemma count_events_disjoint l :
  count_event EventTypes.PASSWORD_SAVED l
  + count_event EventTypes.PASSWORD_DELETED l
  + count_event EventTypes.PASSWORD_AUTOFILLED l
  + count_event EventTypes.PHISHING_DETECTED l
  + count_event EventTypes.AUTOFILL_BLOCKED l
  + count_event EventTypes.SITE_VERIFIED_SAFE l
  + count_event EventTypes.PIN_FAILED l
  <= Z.of_nat (length l).
Proof.
  unfold count_event. induction l as [|e l IH]; [cbn; lia|].
  cbn [filter]. one_event; cbn [length]; lia.
Qed.

(** X2.  The seven counters of [getLogStats] count disjoint sets of
    entries: their sum never exceeds [totalLogs].  The difference is the
    entries of the types that have no counter. *)
Theorem getLogStats_counters_disjoint logs :
  let st := getLogStats logs in
  passwordsSaved st + passwordsDeleted st + autofillsPerformed st
  + phishingDetections st + autofillsBlocked st + safeSitesVerified st
  + pinFailures st <= totalLogs st.
Proof.
  cbv zeta. unfold getLogStats. cbn [passwordsSaved passwordsDeleted
    autofillsPerformed phishingDetections autofillsBlocked safeSitesVerified
    pinFailures totalLogs]. apply count_events_disjoint.
Qed.

(** X3.  [getSecurityLogs] returns as many entries as [getLogStats]
    counts under [phishingDetections], [autofillsBlocked] and
    [pinFailures] together. *)
Theorem getSecurityLogs_counted logs :
  let st := getLogStats logs in
  Z.of_nat (length (getSecurityLogs logs))
  = phishingDetections st + autofillsBlocked st + pinFailures st.
Proof.
  cbv zeta. unfold getLogStats, getSecurityLogs, getLogsByType, count_event.
  cbn [phishingDetections autofillsBlocked pinFailures].
  cbn [existsb].
  induction (getEventLogs logs) as [|e l IH]; [reflexivity|].
  cbn [filter]. one_event; cbn [orb length]; lia.
Qed.

(** X4.  The popup logs a rejected or purged credential under
    [EventTypes.SECURITY_THREAT], which [EventTypes] does not define, so
    the entry has no event type.  While the log has room, such an entry
    adds one to [totalLogs] and nothing else: no query by defined types
    returns it, [getSecurityLogs] is unchanged, and so is every
    counter. *)
Theorem security_threat_not_counted (data : Data) ident now logs :
  (length (stored_logs logs) < MAX_LOGS)%nat ->
  let logs' := Some (logEvent EventTypes.SECURITY_THREAT data ident now logs) in
  (forall types, existsb (event_eqb None) types = false ->
     getLogsByType types logs' = getLogsByType types logs)
  /\ getSecurityLogs logs' = getSecurityLogs logs
  /\ getLogStats logs'
     = {| totalLogs := totalLogs (getLogStats logs) + 1;
          passwordsSaved := passwordsSaved (getLogStats logs);
          passwordsDeleted := passwordsDeleted (getLogStats logs);
          autofillsPerformed := autofillsPerformed (getLogStats logs);
          phishingDetections := phishingDetections (getLogStats logs);
          autofillsBlocked := autofillsBlocked (getLogStats logs);
          safeSitesVerified := safeSitesVerified (getLogStats logs);
          pinFailures := pinFailures (getLogStats logs) |}.
Proof.
  intros H. cbv zeta. rewrite (logEvent_room _ _ _ _ _ H).
  split; [|split].
  - intros types Ht. unfold getLogsByType, getEventLogs.
    cbn [stored_logs filter log_event].
    unfold EventTypes.SECURITY_THREAT. now rewrite Ht.
  - reflexivity.
  - unfold getLogStats, getEventLogs, count_event.
    cbn [stored_logs filter log_event length
      totalLogs passwordsSaved passwordsDeleted autofillsPerformed
      phishingDetections autofillsBlocked safeSitesVerified pinFailures].
    unfold EventTypes.SECURITY_THREAT. cbn [event_eqb]. f_equal. lia.
Qed.

End EventLogFacts.

Lemma security_threat_not_counted_witness :
  let logs : option (list (log_entry unit)) :=
    Some [{| log_id := [49]; log_timestamp := 5;
             log_event := Some EventTypes.PIN_FAILED; log_data := tt |}] in
  let logs' := Some (logEvent EventTypes.SECURITY_THREAT tt [50] 9 logs) in
  getSecurityLogs logs' = getSecurityLogs logs
  /\ totalLogs (getLogStats logs') = 2
  /\ pinFailures (getLogStats logs') = 1.
Proof.
  intros logs logs'.
  destruct (security_threat_not_counted tt [50] 9 logs) as (_ & S & T).
  - cbn. unfold MAX_LOGS. lia.
  - split; [exact S|]. fold logs' in T. rewrite T. split; reflexivity.
Defined.

(** * The unlock prompt *)

Section UnlockFacts.

Context {W : WebCrypto} {Meta Data : Type}.
Variable extId : jsstring.
Variable no_data : Data.

Implicit Types (pin : jsstring) (ui : popup Meta) (store : storage Meta)
  (logs : option (list (log_entry Data))) (w : prompt_world Meta Data)
  (tries : list (jsstring * Z * Z * jsstring)).

Lemma verifyPin_true pin (h : option jsstring) :
  verifyPin pin h = true <-> h = Some (hashPin pin).
Proof.
  destruct h as [h|]; cbn; [|split; discriminate].
  rewrite jsstring_eqb_eq. split; congruence.
Qed.

Lemma unlock_decrypt_spec pin (stored : list (credential Meta)) :
  forall decryptedList,
    unlock_decrypt pin stored decryptedList
    = decryptedList ++ map (saved_as pin) stored.
Proof.
  induction stored as [|c stored IH]; intros acc; cbn [unlock_decrypt map].
  - now rewrite app_nil_r.
  - unfold saved_as at 1.
    destruct (is_encrypted c); [destruct (decryptCredential c pin)|];
      rewrite IH, <- app_assoc; reflexivity.
Qed.

Lemma shown_rejected_length pin (stored : list (credential Meta)) :
  (length (flat_map (shown_as pin) stored) + length (filter (rejected pin) stored))%nat
  = length stored.
Proof.
  induction stored as [|c stored IH]; [reflexivity|].
  cbn [flat_map filter]. rewrite length_app. unfold shown_as at 1, rejected at 1.
  destruct (is_encrypted c); [destruct (decryptCredential c pin)|];
    cbn [andb length]; lia.
Qed.


(** X6.  After an accepted PIN the display list set by [handlePinUnlock]
    has one entry for every stored record, in stored order: decrypted
    where the PIN opens the record, the stored record itself otherwise.
    It is therefore as long as the list the load effect shows plus the
    records the load effect rejects. *)
Theorem handlePinUnlock_display pin now log_now ident ui store logs g :
  rf_pin_hash store = Some (hashPin pin) ->
  let r := handlePinUnlock extId no_data pin now log_now ident ui store logs in
  let l := load pin (stored_list store) g in
  credentials (unlock_popup r) = map (saved_as pin) (stored_list store)
  /\ Z.of_nat (length (credentials (unlock_popup r)))
     = Z.of_nat (length (visible l)) + tampered l.
Proof.
  intros H. cbv zeta. unfold handlePinUnlock.
  apply verifyPin_true in H. rewrite H. cbn [unlock_popup credentials].
  assert (E : match stored_list store with
              | _ :: _ => unlock_decrypt pin (stored_list store) []
              | [] => []
              end = map (saved_as pin) (stored_list store)).
  { destruct (stored_list store) eqn:S; [reflexivity|].
    now rewrite unlock_decrypt_spec. }
  rewrite E. split; [reflexivity|].
  rewrite load_visible, load_tampered, length_map.
  rewrite <- (shown_rejected_length pin (stored_list store)). lia.
Qed.

Lemma type_and_submit_refused pin now log_now ident w :
  verifyPin pin (rf_pin_hash (w_storage w)) = false ->
  type_and_submit extId no_data pin now log_now ident w
  = if truthy pin then
      {| w_prompt :=
           prompt_after {| prompt_pin := pin;
                           prompt_error_shown := prompt_error_shown (w_prompt w);
                           attempts := attempts (w_prompt w);
                           cancel_scheduled := cancel_scheduled (w_prompt w) |}
                        false;
         w_popup := w_popup w;
         w_storage := w_storage w;
         w_logs := Some (logEvent (Some EventTypes.PIN_FAILED) no_data ident
                           log_now (w_logs w)) |}
    else
      {| w_prompt := {| prompt_pin := pin;
                        prompt_error_shown := Some PleaseEnterYourPin;
                        attempts := attempts (w_prompt w);
                        cancel_scheduled := cancel_scheduled (w_prompt w) |};
         w_popup := w_popup w; w_storage := w_storage w; w_logs := w_logs w |}.
Proof.
  intros H. unfold type_and_submit, PinPrompt_handleSubmit.
  cbn [w_prompt prompt_pin w_popup w_storage w_logs attempts cancel_scheduled].
  destruct (truthy pin); cbn [negb]; [|reflexivity].
  unfold handlePinUnlock. now rewrite H.
Qed.


(** X8.  Wrong PINs typed one after the other into a prompt whose
    closing is pending exactly when its counter is at 3 or more, as in a
    prompt that has just opened: after each, the field is cleared and the
    counter has gone up by one.  While the counter is
    below 3 the prompt shows "Incorrect PIN (n/3 attempts)" with the new
    count; from 3 on it shows "Too many failed attempts", its input and
    button are disabled and the closing of the prompt is scheduled. *)
Theorem wrong_pins_disable_prompt tries w :
  cancel_scheduled (w_prompt w) = (attempts (w_prompt w) >=? 3) ->
  Forall (fun t => truthy (try_pin t) = true /\ refused_try (w_storage w) t) tries ->
  (0 < length tries)%nat ->
  let p := w_prompt (submissions extId no_data tries w) in
  let n := attempts (w_prompt w) + Z.of_nat (length tries) in
  attempts p = n
  /\ prompt_pin p = []
  /\ prompt_error_shown p
     = Some (if n >=? 3 then TooManyFailedAttempts else IncorrectPin n)
  /\ prompt_disabled p = (n >=? 3)
  /\ cancel_scheduled p = (n >=? 3).
Proof.
  cbv zeta. intros C H N. destruct tries as [|t tries]; [cbn in N; lia|]. clear N.
  revert t w C H.
  induction tries as [|t' tries IH]; intros [[[pin now] log_now] ident] w C H;
    inversion H as [|? ? [T R] F]; subst; unfold refused_try in R;
    cbn [try_pin] in T, R;
    pose proof (type_and_submit_refused pin now log_now ident w R) as E;
    rewrite T in E.
  - cbn [submissions length]. rewrite E. cbn [w_prompt]. unfold prompt_after.
    replace (attempts (w_prompt w) + Z.of_nat 1) with (attempts (w_prompt w) + 1)
      by lia.
    unfold prompt_disabled. cbn [attempts].
    destruct (attempts (w_prompt w) + 1 >=? 3) eqn:G;
      cbn [attempts prompt_pin prompt_error_shown cancel_scheduled];
      rewrite ?G; repeat split.
    rewrite C. destruct (Z.geb_spec (attempts (w_prompt w)) 3);
      destruct (Z.geb_spec (attempts (w_prompt w) + 1) 3); try reflexivity; try lia;
      discriminate.
  - change (submissions extId no_data
              ((pin, now, log_now, ident) :: t' :: tries) w)
      with (submissions extId no_data (t' :: tries)
              (type_and_submit extId no_data pin now log_now ident w)).
    set (w1 := type_and_submit extId no_data pin now log_now ident w) in *.
    assert (S1 : w_storage w1 = w_storage w) by (rewrite E; reflexivity).
    assert (A1 : attempts (w_prompt w1) = attempts (w_prompt w) + 1).
    { rewrite E. cbn [w_prompt]. unfold prompt_after. cbn [attempts].
      destruct (attempts (w_prompt w) + 1 >=? 3); reflexivity. }
    assert (C1 : cancel_scheduled (w_prompt w1) = (attempts (w_prompt w1) >=? 3)).
    { rewrite A1. rewrite E. cbn [w_prompt]. unfold prompt_after. cbn [attempts].
      destruct (attempts (w_prompt w) + 1 >=? 3) eqn:G; cbn [cancel_scheduled];
        [reflexivity|]. rewrite C.
      destruct (Z.geb_spec (attempts (w_prompt w)) 3); [|reflexivity].
      destruct (Z.geb_spec (attempts (w_prompt w) + 1) 3); [discriminate|lia]. }
    rewrite <- S1 in F. specialize (IH t' w1 C1 F).
    rewrite A1 in IH.
    replace (attempts (w_prompt w)
             + Z.of_nat (length ((pin, now, log_now, ident) :: t' :: tries)))
      with (attempts (w_prompt w) + 1 + Z.of_nat (length (t' :: tries)))
      by (cbn [length]; lia).
    exact IH.
Qed.

(** X9.  Every refused submission that typed something leaves one
    [pin_failed] entry: while the log has room for them, [pinFailures] and
    [totalLogs] of [getLogStats] both go up by their number. *)
Theorem refused_submissions_logged tries w :
  Forall (refused_try (w_storage w)) tries ->
  let n := length (filter (fun t => truthy (try_pin t)) tries) in
  (length (stored_logs (w_logs w)) + n <= MAX_LOGS)%nat ->
  let before := getLogStats (w_logs w) in
  let after := getLogStats (w_logs (submissions extId no_data tries w)) in
  pinFailures after = pinFailures before + Z.of_nat n
  /\ totalLogs after = totalLogs before + Z.of_nat n.
Proof.
  cbv zeta. revert w. induction tries as [|[[[pin now] log_now] ident] tries IH];
    intros w H L.
  - cbn. lia.
  - inversion H as [|? ? R F]; subst. unfold refused_try in R. cbn [try_pin] in R.
    cbn [submissions filter try_pin] in *.
    pose proof (type_and_submit_refused pin now log_now ident w R) as E.
    set (w1 := type_and_submit extId no_data pin now log_now ident w) in *.
    assert (S1 : w_storage w1 = w_storage w)
      by (rewrite E; destruct (truthy pin); reflexivity).
    rewrite <- S1 in F. specialize (IH w1 F).
    destruct (truthy pin) eqn:T.
    + cbn [length] in L |- *.
      assert (L1 : stored_logs (w_logs w1)
                   = {| log_id := ident; log_timestamp := log_now;
                        log_event := Some EventTypes.PIN_FAILED;
                        log_data := no_data |} :: stored_logs (w_logs w)).
      { rewrite E. cbn [w_logs stored_logs]. apply logEvent_room. lia. }
      destruct IH as [IH1 IH2]; [rewrite L1; cbn [length]; lia|].
      rewrite IH1, IH2. unfold getLogStats, getEventLogs, count_event.
      cbn [pinFailures totalLogs]. rewrite L1. cbn [filter log_event length].
      replace (event_eqb (Some EventTypes.PIN_FAILED) (Some EventTypes.PIN_FAILED))
        with true by reflexivity.
      cbn [length]. lia.
    + assert (L1 : w_logs w1 = w_logs w) by (rewrite E; reflexivity).
      rewrite L1 in IH. apply IH. exact L.
Qed.

(** X10.  A PIN enrolled through the setup form opens the vault again
    after the popup was closed (which clears the session): the same PIN
    is accepted, [getSessionPin] then hands it out up to and including 30
    minutes after the unlock and not later, and a PIN with another digest
    is refused.  The extension id is any string of at most 32768 code
    units. *)
Theorem unlock_after_enroll pin (now0 now log_now : Z) ident
  (ui0 ui : popup Meta) store logs :
  wf_jsstring extId -> Z.of_nat (length extId) <= 32768 ->
  pin_policy pin = true ->
  let store1 := clearSession (snd (enroll extId pin pin now0 ui0 store)) in
  let r := handlePinUnlock extId no_data pin now log_now ident ui store1 logs in
  unlock_valid r = true
  /\ (forall t, t <= now + 30 * 60 * 1000 ->
        fst (getSessionPin extId (unlock_storage r) t) = Some pin)
  /\ (forall t, now + 30 * 60 * 1000 < t ->
        fst (getSessionPin extId (unlock_storage r) t) = None)
  /\ (forall pin', hashPin pin' <> hashPin pin ->
        unlock_valid
          (handlePinUnlock extId no_data pin' now log_now ident ui store1 logs)
        = false).
Proof.
  intros Hw Hl P. cbv zeta.
  pose proof (getSessionKey_nonneg extId Hw Hl) as K.
  assert (E : enroll extId pin pin now0 ui0 store
              = (None, fst (handlePinSetup extId pin now0 ui0 store),
                 snd (handlePinSetup extId pin now0 ui0 store))).
  { unfold enroll. rewrite handleSubmit_policy, P.
    replace (jsstring_eqb pin pin) with true
      by (symmetry; now apply jsstring_eqb_eq).
    now destruct (handlePinSetup extId pin now0 ui0 store). }
  rewrite E. cbn [snd].
  set (store1 := clearSession (snd (handlePinSetup extId pin now0 ui0 store))).
  assert (H1 : rf_pin_hash store1 = Some (hashPin pin)) by reflexivity.
  unfold handlePinUnlock. rewrite H1.
  replace (verifyPin pin (Some (hashPin pin))) with true
    by (symmetry; now apply verifyPin_true).
  cbn [unlock_valid unlock_storage].
  pose proof (pin_policy_bytes pin P) as B.
  pose proof (pin_policy_truthy pin P) as T.
  split; [reflexivity|]. split; [|split].
  - intros t Ht. rewrite getSessionPin_cases.
    cbn [createSession set_session rf_pin_session expiry ep].
    unfold SESSION_DURATION_MINUTES.
    destruct (Z.leb_spec t (now + 30 * 60 * 1000)); [|lia].
    rewrite (encryptSessionPin_truthy extId pin K B T).
    cbn [fst]. now rewrite decryptSessionPin_encryptSessionPin.
  - intros t Ht. rewrite getSessionPin_cases.
    cbn [createSession set_session rf_pin_session expiry ep].
    unfold SESSION_DURATION_MINUTES.
    destruct (Z.leb_spec t (now + 30 * 60 * 1000)); [lia|reflexivity].
  - intros pin' D.
    destruct (verifyPin pin' (Some (hashPin pin))) eqn:V; [|reflexivity].
    apply verifyPin_true in V. congruence.
Qed.

End UnlockFacts.

Lemma handlePinUnlock_display_witness :
  let store := Sample.enrolled [Example.foreign; Sample.own] in
  let r := handlePinUnlock (W := Toy.crypto) Example.extId tt Example.pin 7 8 []
             Example.locked_popup store None in
  let l := load (W := Toy.crypto) Example.pin (stored_list store)
             Example.generator in
  credentials (unlock_popup r)
  = map (saved_as (W := Toy.crypto) Example.pin) (stored_list store)
  /\ Z.of_nat (length (credentials (unlock_popup r)))
     = Z.of_nat (length (visible l)) + tampered l.
Proof.
  apply (handlePinUnlock_display (W := Toy.crypto) Example.extId tt Example.pin
           7 8 [] Example.locked_popup
           (Sample.enrolled [Example.foreign; Sample.own]) None Example.generator).
  reflexivity.
Defined.


Lemma wrong_pins_disable_prompt_witness :
  let p := w_prompt (submissions (W := Toy.crypto) Example.extId tt
                       Sample.wrong_tries (Sample.prompt [Sample.own])) in
  attempts p = 0 + 3
  /\ prompt_pin p = []
  /\ prompt_error_shown p = Some TooManyFailedAttempts
  /\ prompt_disabled p = true
  /\ cancel_scheduled p = true.
Proof.
  apply (wrong_pins_disable_prompt (W := Toy.crypto) Example.extId tt
           Sample.wrong_tries (Sample.prompt [Sample.own])).
  - reflexivity.
  - repeat constructor.
  - cbn. lia.
Defined.

Lemma refused_submissions_logged_witness :
  let w := Sample.prompt [Sample.own] in
  let after := getLogStats (w_logs (submissions (W := Toy.crypto) Example.extId tt
                                      Sample.tries_with_empty w)) in
  pinFailures after = 0 + 2 /\ totalLogs after = 0 + 2.
Proof.
  apply (refused_submissions_logged (W := Toy.crypto) Example.extId tt
           Sample.tries_with_empty (Sample.prompt [Sample.own])).
  - repeat constructor.
  - cbn. unfold MAX_LOGS. lia.
Defined.

Lemma unlock_after_enroll_witness :
  let store1 := clearSession
                  (snd (enroll (W := Toy.crypto) Example.extId Example.pin
                          Example.pin 0 Example.locked_popup
                          Example.empty_storage)) in
  let r := handlePinUnlock (W := Toy.crypto) Example.extId tt Example.pin
             100 101 [] Example.locked_popup store1 None in
  unlock_valid r = true
  /\ fst (getSessionPin Example.extId (unlock_storage r) 1800100)
     = Some Example.pin
  /\ fst (getSessionPin Example.extId (unlock_storage r) 1800101) = None.
Proof.
  intros store1 r.
  destruct (unlock_after_enroll (W := Toy.crypto) Example.extId tt Example.pin
              0 100 101 [] Example.locked_popup Example.locked_popup
              Example.empty_storage None) as (V & G & N & _).
  - repeat constructor; unfold is_code_unit; lia.
  - cbn. lia.
  - reflexivity.
  - split; [exact V|]. split; [apply G; lia|apply N; lia].
Defined.

(** * Deleting and saving *)

Section DeleteSaveFacts.

Context {W : WebCrypto} {Meta Data : Type}.

Implicit Types (pin : jsstring) (ui : popup Meta) (store : storage Meta)
  (logs : option (list (log_entry Data))) (stored : list (credential Meta))
  (g : rng).

Lemma shown_as_filter_id pin (i : Z) stored :
  flat_map (shown_as pin) (filter (fun c => negb (id c =? i)) stored)
  = filter (fun c => negb (id c =? i)) (flat_map (shown_as pin) stored).
Proof.
  induction stored as [|c stored IH]; [reflexivity|].
  cbn [filter flat_map]. rewrite filter_app, <- IH.
  assert (S : forall d, In d (shown_as pin c) -> id d = id c)
    by (intros d; apply shown_as_id).
  destruct (negb (id c =? i)) eqn:K; cbn [flat_map]; f_equal.
  - symmetry. apply forallb_filter_id. apply forallb_forall.
    intros d Hd. now rewrite (S d Hd).
  - symmetry.
    destruct (filter (fun c0 => negb (id c0 =? i)) (shown_as pin c)) as [|d l] eqn:F;
      [reflexivity|].
    assert (Hd : In d (filter (fun c0 => negb (id c0 =? i)) (shown_as pin c)))
      by (rewrite F; now left).
    apply filter_In in Hd as [Hd Kd]. rewrite (S d Hd) in Kd. congruence.
Qed.

(** X11.  [onDelete] keeps the display in step with the storage: when
    the display list is what the load effect shows for the stored list,
    the display list after the deletion is what the load effect shows for
    the list that [onDelete] has written, and no record with the deleted
    id is left in either. *)
Theorem onDelete_in_step (i : Z) log_ident (now : Z) (domain_data : jsstring -> Data)
  ui store logs pin g g' :
  credentials ui = visible (load pin (stored_list store) g) ->
  let '(ui', store', _) := onDelete i log_ident now domain_data ui store logs in
  credentials ui' = visible (load pin (stored_list store') g')
  /\ Forall (fun c => id c <> i) (credentials ui')
  /\ Forall (fun c => id c <> i) (stored_list store').
Proof.
  intros H. unfold onDelete. cbn [credentials].
  rewrite H, !load_visible.
  unfold write_creds, stored_list at 3 5. cbn [rf_creds].
  split; [|split].
  - symmetry. apply shown_as_filter_id.
  - apply Forall_forall. intros c Hc. apply filter_In in Hc as [_ Hc].
    apply negb_true_iff, Z.eqb_neq in Hc. exact Hc.
  - apply Forall_forall. intros c Hc. apply filter_In in Hc as [_ Hc].
    apply negb_true_iff, Z.eqb_neq in Hc. exact Hc.
Qed.

(** X12.  [onDelete] removes every record that has the id, from the
    stored list and from the display list, and keeps every other record;
    [rf_pin_hash] and the session are not touched.  An id that no stored
    record has leaves the stored list as it is, and an id that no
    displayed record has leaves the display and the event log as they
    are. *)
Theorem onDelete_other_records (i : Z) log_ident (now : Z)
  (domain_data : jsstring -> Data) ui store logs :
  let '(ui', store', logs') := onDelete i log_ident now domain_data ui store logs in
  (forall c, In c (stored_list store') <-> In c (stored_list store) /\ id c <> i)
  /\ (forall c, In c (credentials ui') <-> In c (credentials ui) /\ id c <> i)
  /\ rf_pin_hash store' = rf_pin_hash store
  /\ rf_pin_session store' = rf_pin_session store
  /\ (Forall (fun c => id c <> i) (stored_list store) ->
      stored_list store' = stored_list store)
  /\ (Forall (fun c => id c <> i) (credentials ui) ->
      credentials ui' = credentials ui /\ logs' = logs).
Proof.
  unfold onDelete. cbn [credentials]. unfold write_creds, stored_list at 1 4.
  cbn [rf_creds rf_pin_hash rf_pin_session].
  assert (K : forall c : credential Meta,
             negb (id c =? i) = true <-> id c <> i).
  { intros c. rewrite negb_true_iff. apply Z.eqb_neq. }
  assert (In_filter : forall (l : list (credential Meta)) c,
             In c (filter (fun c => negb (id c =? i)) l) <-> In c l /\ id c <> i).
  { intros l c. rewrite filter_In, K. reflexivity. }
  assert (filter_all : forall l : list (credential Meta),
             Forall (fun c => id c <> i) l ->
             filter (fun c => negb (id c =? i)) l = l).
  { intros l F. apply forallb_filter_id. apply forallb_forall. intros c Hc.
    apply K. rewrite Forall_forall in F. now apply F. }
  split; [intros c; apply In_filter|].
  split; [intros c; apply In_filter|].
  split; [reflexivity|]. split; [reflexivity|].
  split; [apply filter_all|].
  intros F. split; [now apply filter_all|].
  destruct (find (fun c => id c =? i) (credentials ui)) as [c|] eqn:E;
    [|reflexivity].
  apply find_some in E as [Hc Hi]. apply Z.eqb_eq in Hi.
  rewrite Forall_forall in F. now apply F in Hc.
Qed.

(** X13.  A save whose password passes the check puts the encrypted new
    record in front of the stored list and leaves the stored records as
    they are, for 28 bytes of randomness.  For fields that [TextEncoder]
    and [TextDecoder] carry unchanged, the new record is first in the
    list handed to [setCredentials], and a load of the written list shows
    it in front of what a load showed before, with the same count of
    rejected records. *)
Theorem performSave_then_load (f : form) (normalizedSite favicon_url : jsstring)
  (score factors : Meta) pin (now : Z) store g :
  password_accepted (form_password f) = true ->
  text_safe normalizedSite -> text_safe (form_username f) ->
  text_safe (form_password f) ->
  let newCred := {| id := now; site := normalizedSite;
                    username := form_username f; password := form_password f;
                    iv := None; salt := None; favicon := favicon_url;
                    riskScore := score; riskFactors := factors |} in
  exists encryptedCred shown g',
    performSave f normalizedSite favicon_url score factors pin now store g
    = (Some (encryptedCred :: stored_list store, shown), g')
    /\ drawn g' = (drawn g + 28)%nat
    /\ is_encrypted encryptedCred = true
    /\ shown = newCred :: map (saved_as pin) (stored_list store)
    /\ visible (load pin (encryptedCred :: stored_list store) g')
       = newCred :: visible (load pin (stored_list store) g')
    /\ tampered (load pin (encryptedCred :: stored_list store) g')
       = tampered (load pin (stored_list store) g').
Proof.
  intros A (Ws & Fs & Bs) (Wu & Fu & Bu) (Wp & Fp & Bp). cbv zeta.
  rewrite performSave_spec, A. cbn [negb]. cbv zeta.
  set (c := {| id := now; site := normalizedSite;
               username := form_username f; password := form_password f;
               iv := None; salt := None; favicon := favicon_url;
               riskScore := score; riskFactors := factors |}).
  set (salt_bytes := fst (getRandomValues 16 g)).
  set (nonce := fst (getRandomValues 12 (snd (getRandomValues 16 g)))).
  assert (Ln : length nonce = 12%nat) by apply getRandomValues_length.
  assert (Ls : length salt_bytes = 16%nat) by apply getRandomValues_length.
  assert (E : is_encrypted (encrypted_with c pin salt_bytes nonce) = true).
  { apply encrypted_with_is_encrypted.
    - intros N. rewrite N in Ls. discriminate.
    - intros N. rewrite N in Ln. discriminate. }
  assert (D : decryptCredential (encrypted_with c pin salt_bytes nonce) pin = Some c).
  { rewrite decryptCredential_encrypted_with by exact Ln.
    rewrite !TextDecoder_decode_encode by assumption. reflexivity. }
  eexists _, _, _. split; [reflexivity|].
  split; [cbn; lia|]. split; [exact E|]. split; [|split].
  - cbn [map]. unfold saved_as at 1. now rewrite E, D.
  - rewrite !load_visible. cbn [flat_map]. unfold shown_as at 1.
    now rewrite E, D.
  - rewrite !load_tampered. cbn [filter]. unfold rejected at 1.
    now rewrite E, D.
Qed.

End DeleteSaveFacts.

Lemma onDelete_in_step_witness :
  let '(ui', store', _) :=
    onDelete (Data := unit) 1 [] 9 (fun _ => tt)
      (Sample.open_popup [Example.legacy]) (Sample.vault [Sample.own]) None in
  credentials ui'
  = visible (load (W := Toy.crypto) Example.pin (stored_list store')
               Example.generator)
  /\ Forall (fun c => id c <> 1) (credentials ui')
  /\ Forall (fun c => id c <> 1) (stored_list store').
Proof.
  apply (onDelete_in_step (W := Toy.crypto) (Data := unit) 1 [] 9 (fun _ => tt)
           (Sample.open_popup [Example.legacy]) (Sample.vault [Sample.own]) None
           Example.pin Example.generator Example.generator).
  reflexivity.
Defined.

Lemma performSave_then_load_witness :
  exists encryptedCred shown g',
    performSave (W := Toy.crypto) Example.save_form (site Example.legacy) []
      tt tt Example.pin 1 (Sample.vault [Example.garbled]) Example.generator
    = (Some (encryptedCred :: [Example.garbled], shown), g')
    /\ visible (load (W := Toy.crypto) Example.pin
                  (encryptedCred :: [Example.garbled]) g')
       = [Example.legacy]
    /\ tampered (load (W := Toy.crypto) Example.pin
                   (encryptedCred :: [Example.garbled]) g') = 1.
Proof.
  destruct (performSave_then_load (W := Toy.crypto) Example.save_form
              (site Example.legacy) [] tt tt Example.pin 1
              (Sample.vault [Example.garbled]) Example.generator)
    as (e & shown & g' & P & _ & _ & _ & V & T).
  - reflexivity.
  - repeat split; try reflexivity. repeat constructor; unfold is_code_unit; lia.
  - repeat split; try reflexivity. repeat constructor; unfold is_code_unit; lia.
  - repeat split; try reflexivity. repeat constructor; unfold is_code_unit; lia.
  - exists e, shown, g'. split; [exact P|]. split.
    + etransitivity; [exact V|]. rewrite load_visible. reflexivity.
    + etransitivity; [exact T|]. rewrite load_tampered. reflexivity.
Defined.

(** * The gate in front of [performSave] *)

Section GateFacts.

Context {W : WebCrypto} {Meta : Type}.
Variable extId : jsstring.

Implicit Types (f : form) (ui : popup Meta) (store : storage Meta)
  (siteRisk : option site_risk).

Lemma truthy_length (s : jsstring) : truthy s = negb (Z.of_nat (length s) =? 0).
Proof. destruct s; reflexivity. Qed.

Lemma getSessionPin_some store now pin :
  fst (getSessionPin extId store now) = Some pin ->
  truthy pin = true /\ snd (getSessionPin extId store now) = store.
Proof.
  rewrite getSessionPin_cases. destruct (rf_pin_session store) as [s|];
    [|discriminate].
  destruct (now <=? expiry s); [|discriminate].
  destruct (truthy (ep s)) eqn:T; [|discriminate].
  cbn [fst snd]. intros [= <-]. split; [|reflexivity].
  now apply decryptSessionPin_truthy.
Qed.

(** X14.  [onSaveCredential] goes on to [performSave] only when autofill
    is enabled, no site check is running, a check has returned without
    the server being offline, the site is not blank, and the Save button
    of the Add page is enabled ([canSave]).  The PIN it passes is not
    empty; it is the session's PIN, or the one in the component's state
    when the session gives none.  [performSave] then does not refuse the
    password. *)
Theorem onSaveCredential_reaches_performSave f (autofillEnabled siteChecking : bool)
  siteRisk ui store now pin :
  onSaveCredential extId f autofillEnabled siteChecking siteRisk ui store now
  = PerformSave pin ->
  autofillEnabled = true /\ siteChecking = false
  /\ (exists risk, siteRisk = Some risk /\ risk_serverOffline risk = false)
  /\ truthy (trim (form_site f)) = true
  /\ canSave (form_username f) (form_password f) siteRisk = true
  /\ truthy pin = true
  /\ (fst (getSessionPin extId store now) = Some pin
      \/ (fst (getSessionPin extId store now) = None /\ currentPin ui = Some pin))
  /\ forall normalizedSite favicon_url (score factors : Meta) now' store' g,
       fst (performSave f normalizedSite favicon_url score factors pin now' store' g)
       <> None.
Proof.
  unfold onSaveCredential. cbv zeta.
  destruct autofillEnabled; cbn [negb andb]; [|discriminate].
  destruct (truthy (trim (form_site f))) eqn:S; cbn [negb andb]; [|discriminate].
  destruct (truthy (trim (form_password f))) eqn:P; cbn [negb]; [|discriminate].
  destruct (truthy (trim (form_username f))) eqn:U; cbn [negb]; [|discriminate].
  destruct (Z.of_nat (length (trim (form_password f))) <? 6) eqn:L; [discriminate|].
  destruct (existsb is_digit (trim (form_password f))) eqn:N; cbn [negb];
    [|discriminate].
  destruct (existsb (fun c => negb (is_alphanumeric c)) (trim (form_password f)))
    eqn:C; cbn [negb]; [|discriminate].
  destruct siteRisk as [risk|]; cbn [no_risk server_offline andb];
    [|destruct siteChecking; discriminate].
  destruct siteChecking; [discriminate|].
  destruct (risk_serverOffline risk) eqn:O; [discriminate|].
  intros H.
  assert (A : password_accepted (form_password f) = true).
  { unfold password_accepted. cbv zeta. rewrite P, N, C.
    apply Z.ltb_ge in L. apply Z.leb_le in L. now rewrite L. }
  assert (CS : canSave (form_username f) (form_password f) (Some risk) = true).
  { unfold canSave. cbv zeta. cbn [server_offline]. rewrite O, N, C, L.
    rewrite truthy_length in P, U. rewrite negb_true_iff in P, U.
    rewrite P, U. cbn [negb andb orb]. now rewrite !andb_false_r. }
  assert (PS : forall p,
             forall normalizedSite favicon_url (score factors : Meta) now' store' g,
               fst (performSave f normalizedSite favicon_url score factors p
                      now' store' g) <> None).
  { intros p ? ? ? ? ? ? ?. rewrite performSave_spec, A. discriminate. }
  destruct (getSessionPin extId store now) as [session_pin store1] eqn:G.
  assert (G1 : fst (getSessionPin extId store now) = session_pin)
    by now rewrite G.
  cbn [fst].
  assert (from_state :
    match currentPin ui with
    | Some pin0 =>
        if truthy pin0 then PerformSave pin0
        else if negb (fst (isSessionUnlocked store1 now))
             then SessionExpiredPrompt else KeyUnavailable
    | None =>
        if negb (fst (isSessionUnlocked store1 now))
        then SessionExpiredPrompt else KeyUnavailable
    end = PerformSave pin -> currentPin ui = Some pin /\ truthy pin = true).
  { destruct (currentPin ui) as [cp|].
    - destruct (truthy cp) eqn:T.
      + intros [= <-]. now split.
      + destruct (negb _); discriminate.
    - destruct (negb _); discriminate. }
  destruct session_pin as [sp|].
  - destruct (getSessionPin_some store now sp G1) as [T _]. rewrite T in H.
    injection H as <-. repeat split; eauto.
  - apply from_state in H as [Hc T]. repeat split; eauto.
Qed.

(** X15.  The verdict of the model does not enter [onSaveCredential]: with
    the [siteRisk] that [onCheckSite] leaves after a verdict, phishing or
    legitimate, a submission ends where it ends with the [siteRisk] left
    by a check that failed with an unknown error.  Of the outcomes of a
    check, only an offline server and a timeout hold a save back. *)
Theorem onSaveCredential_ignores_verdict f (url : jsstring)
  (autofillEnabled siteChecking isPhishing : bool) ui store now :
  onSaveCredential extId f autofillEnabled siteChecking
    (onCheckSite url autofillEnabled (Verdict isPhishing)) ui store now
  = onSaveCredential extId f autofillEnabled siteChecking
      (onCheckSite url autofillEnabled OtherFailure) ui store now.
Proof.
  unfold onCheckSite. cbv zeta.
  destruct (negb (truthy (trim url))); [reflexivity|].
  destruct (negb autofillEnabled); reflexivity.
Qed.

(** X16.  The message "Phishing check required before saving" is never
    shown: whenever [siteRisk] is missing, one of the two tests before it
    has already returned. *)
Theorem onSaveCredential_check_required_unreachable f
  (autofillEnabled siteChecking : bool) siteRisk ui store now :
  match onSaveCredential extId f autofillEnabled siteChecking siteRisk ui store now
  with
  | PhishingCheckRequired => False
  | _ => True
  end.
Proof.
  unfold onSaveCredential. cbv zeta.
  destruct autofillEnabled; cbn [negb andb]; [|exact I].
  destruct (truthy (trim (form_site f))); cbn [negb andb]; [|exact I].
  destruct (truthy (trim (form_password f))); cbn [negb]; [|exact I].
  destruct (truthy (trim (form_username f))); cbn [negb]; [|exact I].
  destruct (Z.of_nat (length (trim (form_password f))) <? 6); [exact I|].
  destruct (existsb is_digit (trim (form_password f))); cbn [negb];
    [|exact I].
  destruct (existsb (fun c => negb (is_alphanumeric c)) (trim (form_password f)));
    cbn [negb]; [|exact I].
  destruct siteRisk as [risk|]; cbn [no_risk server_offline andb];
    [|destruct siteChecking; exact I].
  destruct siteChecking; [exact I|].
  destruct (risk_serverOffline risk); [exact I|].
  destruct (getSessionPin extId store now) as [session_pin store1].
  destruct session_pin as [sp|]; [destruct (truthy sp); [exact I|]|];
    (destruct (currentPin ui) as [cp|]; [destruct (truthy cp); [exact I|]|]);
    destruct (negb _); exact I.
Qed.

(** X17.  The Save button and the handler agree on the fields: when
    [canSave] of the Add page is true, [onSaveCredential] raises none of
    its messages about the user name, the password or the offline
    server. *)
Theorem canSave_passes_field_checks f (autofillEnabled siteChecking : bool)
  siteRisk ui store now :
  canSave (form_username f) (form_password f) siteRisk = true ->
  let outcome :=
    onSaveCredential extId f autofillEnabled siteChecking siteRisk ui store now in
  outcome <> PleaseEnterThePassword /\ outcome <> PleaseEnterTheUsername
  /\ outcome <> PasswordTooShort /\ outcome <> PasswordNeedsNumber
  /\ outcome <> PasswordNeedsSpecial /\ outcome <> ServerIsOffline.
Proof.
  unfold canSave. cbv zeta. rewrite <- !truthy_length.
  intros H. repeat (apply andb_true_iff in H as [H ?]).
  rewrite !negb_true_iff in *.
  assert (P : truthy (trim (form_password f)) = true)
    by now destruct (truthy (trim (form_password f))).
  assert (U : truthy (trim (form_username f)) = true)
    by now destruct (truthy (trim (form_username f))).
  assert (T : (Z.of_nat (length (trim (form_password f))) >? 0) = true).
  { rewrite truthy_length in P. apply negb_true_iff, Z.eqb_neq in P.
    apply Z.gtb_lt. lia. }
  match goal with
  | K : (_ >? 0) && (_ || _ || _) = false |- _ =>
      rewrite T in K; cbn [andb] in K;
      apply orb_false_iff in K as [K MS]; apply orb_false_iff in K as [TS MN]
  end.
  apply negb_false_iff in MN, MS.
  unfold onSaveCredential. cbv zeta. rewrite P, U, TS, MN, MS. cbn [negb].
  destruct autofillEnabled; cbn [negb andb];
    [|repeat split; discriminate].
  destruct (truthy (trim (form_site f))); cbn [negb andb];
    [|repeat split; discriminate].
  destruct siteRisk as [risk|]; cbn [no_risk server_offline andb] in *;
    [|destruct siteChecking; repeat split; discriminate].
  destruct siteChecking; [repeat split; discriminate|].
  match goal with K : risk_serverOffline risk = false |- _ => rewrite K end.
  destruct (getSessionPin extId store now) as [session_pin store1].
  destruct session_pin as [sp|]; [destruct (truthy sp); [repeat split; discriminate|]|];
    (destruct (currentPin ui) as [cp|];
     [destruct (truthy cp); [repeat split; discriminate|]|]);
    destruct (negb _); repeat split; discriminate.
Qed.

End GateFacts.

Lemma onSaveCredential_reaches_performSave_witness :
  canSave (form_username Example.save_form) (form_password Example.save_form)
    Sample.phishing_risk = true
  /\ truthy Example.pin = true
  /\ fst (performSave (W := Toy.crypto) Example.save_form (site Example.legacy)
            [] tt tt Example.pin 5 (Sample.vault []) Example.generator)
     <> None.
Proof.
  destruct (onSaveCredential_reaches_performSave (W := Toy.crypto) Example.extId
              Example.save_form true false Sample.phishing_risk
              (Sample.open_popup []) (Sample.vault []) 5 Example.pin)
    as (_ & _ & _ & _ & C & T & _ & P).
  - reflexivity.
  - split; [exact C|]. split; [exact T|]. apply P.
Defined.

Lemma canSave_passes_field_checks_witness :
  let outcome :=
    onSaveCredential Example.extId Example.save_form true false
      Sample.phishing_risk (Sample.open_popup []) (Sample.vault []) 5 in
  outcome <> PleaseEnterThePassword /\ outcome <> PleaseEnterTheUsername
  /\ outcome <> PasswordTooShort /\ outcome <> PasswordNeedsNumber
  /\ outcome <> PasswordNeedsSpecial /\ outcome <> ServerIsOffline.
Proof.
  apply (canSave_passes_field_checks Example.extId Example.save_form true false
           Sample.phishing_risk (Sample.open_popup []) (Sample.vault []) 5).
  reflexivity.
Defined.

(** * The login score of the content script *)

(** X18.  The score of a page lies between 0 and 7, whatever the page
    holds. *)
Theorem scorePage_range (pwCount : Z) (userFound loginKeyword signupKeyword : bool) :
  0 <= scorePage pwCount userFound loginKeyword signupKeyword <= 7.
Proof.
  unfold scorePage. destruct (pwCount =? 0); [lia|].
  destruct userFound, loginKeyword, signupKeyword; lia.
Qed.

(** X19.  What [checkAndNotify] reports, by cases.  A page with no
    visible password input is never a login page.  With one, it is a
    login page when a user-name field is found and there is a login
    keyword or no sign-up keyword, or when there is a login keyword and no
    sign-up keyword.  With two or more, a user-name field, a login
    keyword, or the absence of a sign-up keyword is enough. *)
Theorem checkAndNotify_table (pwCount : Z)
  (userFound loginKeyword signupKeyword : bool) :
  0 <= pwCount ->
  checkAndNotify pwCount userFound loginKeyword signupKeyword
  = if pwCount =? 0 then false
    else if pwCount =? 1
         then (userFound && (loginKeyword || negb signupKeyword))
              || (loginKeyword && negb signupKeyword)
         else userFound || loginKeyword || negb signupKeyword.
Proof.
  intros H. unfold checkAndNotify, scorePage.
  destruct (Z.eqb_spec pwCount 0); [reflexivity|].
  destruct (Z.eqb_spec pwCount 1).
  - subst. destruct userFound, loginKeyword, signupKeyword; reflexivity.
  - replace (Z.min 4 (pwCount * 2)) with 4 by lia.
    destruct userFound, loginKeyword, signupKeyword; reflexivity.
Qed.

Lemma checkAndNotify_table_witness :
  checkAndNotify 2 false false true = false
  /\ checkAndNotify 1 true false true = false
  /\ checkAndNotify 1 true true true = true.
Proof.
  rewrite !checkAndNotify_table by lia. repeat split.
Defined.

(** * The session, the load effect without it, and the clean-up *)

Section EffectFacts.

Context {W : WebCrypto} {Meta : Type}.
Variable extId : jsstring.

Implicit Types (pin : jsstring) (ui : popup Meta) (store : storage Meta) (g : rng).

(** X20.  [getSessionPin] never hands out an empty PIN.  When it hands
    one out, the storage is left as it was, [isSessionUnlocked] answers
    true at the same instant, and the PIN is the stored [ep] of an
    unexpired session, de-obfuscated. *)
Theorem getSessionPin_never_empty store now pin :
  fst (getSessionPin extId store now) = Some pin ->
  truthy pin = true
  /\ snd (getSessionPin extId store now) = store
  /\ fst (isSessionUnlocked store now) = true
  /\ exists s, rf_pin_session store = Some s /\ now <= expiry s
               /\ pin = decryptSessionPin extId (ep s).
Proof.
  rewrite getSessionPin_cases. unfold isSessionUnlocked.
  destruct (rf_pin_session store) as [s|]; [|discriminate].
  destruct (Z.leb_spec now (expiry s)) as [L|L]; [|discriminate].
  destruct (truthy (ep s)) eqn:T; [|discriminate].
  cbn [fst snd]. intros [= <-].
  split; [now apply decryptSessionPin_truthy|]. split; [reflexivity|].
  split.
  - destruct (Z.gtb_spec now (expiry s)); [lia|reflexivity].
  - exists s. auto.
Qed.

(** X21.  Once the session is missing or has expired, the load effect
    decrypts nothing and writes nothing to [rf_creds]: the stored list,
    the PIN hash, the generator, the PIN in the component's state and the
    count of rejected records stay as they are, and an expired session is
    deleted.  With an encrypted record in the store it opens the prompt
    and leaves the display alone; with none it shows the stored list. *)
Theorem loadEffect_without_session ui store now g :
  pinUnlocked ui = true -> session_valid store now = false ->
  let '(ui', store', g') := loadEffect extId ui store now g in
  rf_creds store' = rf_creds store /\ rf_pin_hash store' = rf_pin_hash store
  /\ rf_pin_session store' = None /\ g' = g
  /\ currentPin ui' = currentPin ui /\ tamperedCount ui' = tamperedCount ui
  /\ (if existsb is_encrypted (stored_list store)
      then pinPromptVisible ui' = true /\ credentials ui' = credentials ui
      else pinPromptVisible ui' = pinPromptVisible ui
           /\ credentials ui' = stored_list store).
Proof.
  intros U V. unfold loadEffect. rewrite U. cbn [negb].
  rewrite getSessionPin_cases. unfold session_valid in V.
  destruct (rf_pin_session store) as [s|] eqn:S.
  - apply negb_false_iff in V. apply Z.gtb_lt in V.
    destruct (Z.leb_spec now (expiry s)); [lia|].
    destruct (existsb is_encrypted (stored_list store)); cbn; repeat split.
  - destruct (existsb is_encrypted (stored_list store)); cbn; rewrite ?S;
      repeat split.
Qed.

Lemma getSessionPin_write_creds store now (l : list (credential Meta)) :
  getSessionPin extId (write_creds (Some l) store) now
  = (fst (getSessionPin extId store now),
     write_creds (Some l) (snd (getSessionPin extId store now))).
Proof.
  unfold getSessionPin, write_creds. cbn [rf_pin_session].
  destruct (rf_pin_session store) as [s|] eqn:S.
  - destruct (now >? expiry s); [reflexivity|].
    destruct (negb (truthy (ep s))); cbn [fst snd]; now rewrite S.
  - cbn [fst snd]. now rewrite S.
Qed.

(** X22.  [onClearCorrupted] on an unlocked popup, with the session
    handing out the PIN at both readings of the clock: the records the PIN does not open are taken out of [rf_creds]
    and nothing else is (the list written is the one a load writes for the
    remaining records, and it is shorter by the number of rejected
    records); the display is what a load of the old list shows; the count
    of rejected records is back at 0; the PIN hash and the session are
    kept. *)
Theorem onClearCorrupted_cleans ui store now now' g pin :
  pinUnlocked ui = true ->
  fst (getSessionPin extId store now) = Some pin ->
  fst (getSessionPin extId store now') = Some pin ->
  let stored := stored_list store in
  let kept := filter (fun c => negb (rejected pin c)) stored in
  let '(ui', store', _) := onClearCorrupted extId ui store now now' g in
  tamperedCount ui' = 0
  /\ credentials ui' = visible (load pin stored g)
  /\ stored_list store' = persisted_after kept (load pin kept g)
  /\ Z.of_nat (length (stored_list store'))
     = Z.of_nat (length stored) - tampered (load pin stored g)
  /\ rf_pin_hash store' = rf_pin_hash store
  /\ rf_pin_session store' = rf_pin_session store.
Proof.
  intros U G G'. cbv zeta.
  destruct (getSessionPin_some extId store now pin G) as (T & S1).
  destruct (getSessionPin_some extId store now' pin G') as (_ & S1').
  unfold onClearCorrupted.
  destruct (getSessionPin extId store now) as [session_pin store1] eqn:E.
  cbn [fst snd] in G, S1. subst session_pin store1. rewrite T.
  rewrite purge_spec. cbn [app].
  set (kept := filter (fun c => negb (rejected pin c)) (stored_list store)).
  set (ui1 := {| pinSetupRequired := pinSetupRequired ui;
                 pinUnlocked := pinUnlocked ui;
                 pinPromptVisible := pinPromptVisible ui;
                 currentPin := currentPin ui;
                 credentials := credentials ui;
                 tamperedCount := 0 |}).
  set (store2 := write_creds (Some kept) store).
  assert (G2 : getSessionPin extId store2 now' = (Some pin, store2)).
  { unfold store2. rewrite getSessionPin_write_creds, G', S1'. reflexivity. }
  assert (K : stored_list store2 = kept) by reflexivity.
  destruct (purge_then_load pin (stored_list store) g) as (_ & _ & T0 & V0).
  fold kept in T0, V0. rewrite purge_spec in T0, V0. cbn [app fst] in T0, V0.
  fold kept in T0, V0.
  unfold loadEffect. replace (pinUnlocked ui1) with true by (symmetry; exact U).
  cbn [negb]. rewrite G2, T, K. cbn [tamperedCount credentials].
  rewrite T0. cbn [Z.gtb Z.compare].
  split; [reflexivity|]. split; [exact V0|].
  assert (P : stored_list (write_creds (migrated (load pin kept g)) store2)
              = persisted_after kept (load pin kept g)).
  { unfold persisted_after, write_creds.
    destruct (migrated (load pin kept g)); [reflexivity|exact K]. }
  split; [exact P|]. split.
  - rewrite P. destruct (persisted_after_load pin kept g) as (es & -> & _).
    rewrite length_map, load_tampered. unfold kept.
    pose proof (filter_length (rejected pin) (stored_list store)) as L.
    lia.
  - unfold write_creds. destruct (migrated (load pin kept g)); split; reflexivity.
Qed.

End EffectFacts.

Lemma getSessionPin_never_empty_witness :
  truthy Example.pin = true
  /\ snd (getSessionPin Example.extId (Sample.vault []) 1800000) = Sample.vault []
  /\ fst (isSessionUnlocked (Sample.vault []) 1800000) = true.
Proof.
  destruct (getSessionPin_never_empty Example.extId (Sample.vault []) 1800000
              Example.pin) as (T & S & U & _).
  - reflexivity.
  - split; [exact T|]. split; [exact S|exact U].
Defined.

Lemma loadEffect_without_session_witness :
  let '(ui', store', g') :=
    loadEffect (W := Toy.crypto) Example.extId (Sample.open_popup [])
      (Sample.vault [Sample.own]) 1800001 Example.generator in
  rf_creds store' = Some [Sample.own]
  /\ rf_pin_hash store' = rf_pin_hash (Sample.vault [Sample.own])
  /\ rf_pin_session store' = None /\ g' = Example.generator
  /\ currentPin ui' = None /\ tamperedCount ui' = 0
  /\ pinPromptVisible ui' = true /\ credentials ui' = [].
Proof.
  apply (loadEffect_without_session (W := Toy.crypto) Example.extId
           (Sample.open_popup []) (Sample.vault [Sample.own]) 1800001
           Example.generator).
  - reflexivity.
  - reflexivity.
Defined.

Lemma onClearCorrupted_cleans_witness :
  let '(ui', store', _) :=
    onClearCorrupted (W := Toy.crypto) Example.extId (Sample.open_popup [])
      (Sample.vault [Example.garbled; Sample.own; Example.foreign]) 10 11
      Example.generator in
  tamperedCount ui' = 0
  /\ credentials ui' = [Example.legacy]
  /\ stored_list store' = [Sample.own].
Proof.
  pose proof (onClearCorrupted_cleans (W := Toy.crypto) Example.extId
                (Sample.open_popup [])
                (Sample.vault [Example.garbled; Sample.own; Example.foreign])
                10 11 Example.generator Example.pin eq_refl eq_refl eq_refl) as H.
  cbv zeta in H.
  destruct (onClearCorrupted (W := Toy.crypto) Example.extId (Sample.open_popup [])
              (Sample.vault [Example.garbled; Sample.own; Example.foreign]) 10 11
              Example.generator) as [[ui' store'] g'].
  destruct H as (T & C & S & _).
  split; [exact T|]. split.
  - etransitivity; [exact C|]. reflexivity.
  - etransitivity; [exact S|]. reflexivity.
Defined.

(** * Conversions *)

Lemma lower_hex_pair (a b : Z) :
  is_lower_hex a = true -> is_lower_hex b = true ->
  exists x, hex_of_byte x = [a; b].
Proof.
  unfold is_lower_hex. intros Ha Hb.
  pose (da := if a <=? 57 then a - 48 else a - 87).
  pose (db := if b <=? 57 then b - 48 else b - 87).
  assert (Ra : 0 <= da < 16 /\ hex_char da = a).
  { unfold da, hex_char. revert Ha. split_tests; cbn; try discriminate; lia. }
  assert (Rb : 0 <= db < 16 /\ hex_char db = b).
  { unfold db, hex_char. revert Hb. split_tests; cbn; try discriminate; lia. }
  destruct Ra as [Ra Ea], Rb as [Rb Eb].
  exists (byte_of_Z (16 * da + db)).
  rewrite hex_of_byte_digits, byte_to_of_Z by lia.
  replace ((16 * da + db) / 16) with da by (Z.div_mod_to_equations; lia).
  replace ((16 * da + db) mod 16) with db by (Z.div_mod_to_equations; lia).
  now rewrite Ea, Eb.
Qed.

(** X23.  [arrayBufferToHex] undoes [hexToUint8Array] on the strings it
    writes itself: an even number of digits among [0-9a-f]. *)
Theorem arrayBufferToHex_hexToUint8Array (hex : jsstring) :
  forallb is_lower_hex hex = true -> Nat.even (length hex) = true ->
  arrayBufferToHex (hexToUint8Array hex) = hex.
Proof.
  induction hex as [| a | a b hex IH _] using list_ind2; intros H E.
  - reflexivity.
  - discriminate.
  - cbn [forallb] in H. apply andb_prop in H as [Ha H].
    apply andb_prop in H as [Hb H].
    destruct (lower_hex_pair a b Ha Hb) as [x Ex].
    cbn [hexToUint8Array]. rewrite <- Ex, parseInt16_hex_of_byte.
    cbn [nan_to_zero]. rewrite byte_of_to_Z, arrayBufferToHex_cons, Ex.
    cbn [app]. now rewrite IH.
Qed.

Lemma arrayBufferToHex_hexToUint8Array_witness :
  arrayBufferToHex (hexToUint8Array [48; 98; 51; 48; 102; 102])
  = [48; 98; 51; 48; 102; 102].
Proof.
  apply arrayBufferToHex_hexToUint8Array; reflexivity.
Defined.

Lemma code_points_scalar_all (s : jsstring) :
  wf_jsstring s -> Forall is_scalar_value (code_points s).
Proof.
  unfold wf_jsstring.
  induction s as [| c | c d s IH0 IH1] using list_ind2; intros Hw.
  - constructor.
  - inversion Hw as [|? ? Hc _]; subst. unfold is_code_unit in Hc.
    cbn [code_points].
    unfold is_lead_surrogate, is_trail_surrogate, is_scalar_value.
    split_tests; cbn; repeat constructor; lia.
  - inversion Hw as [|? ? Hc Hw']; subst.
    inversion Hw' as [|? ? Hd Hw'']; subst.
    unfold is_code_unit in Hc, Hd.
    change (code_points (c :: d :: s))
      with (if is_lead_surrogate c then
              if is_trail_surrogate d
              then (65536 + (c - 55296) * 1024 + (d - 56320)) :: code_points s
              else 65533 :: code_points (d :: s)
            else if is_trail_surrogate c then 65533 :: code_points (d :: s)
            else c :: code_points (d :: s)).
    specialize (IH0 Hw''). specialize (IH1 Hw').
    destruct (is_lead_surrogate c) eqn:Lc; [destruct (is_trail_surrogate d) eqn:Td|
      destruct (is_trail_surrogate c) eqn:Tc];
      unfold is_lead_surrogate, is_trail_surrogate in *;
      constructor; try assumption; unfold is_scalar_value; lia.
Qed.

Lemma strip_bom_code_points (cps : list Z) :
  Forall is_scalar_value cps ->
  strip_bom (flat_map utf8_encode_code_point cps)
  = flat_map utf8_encode_code_point (drop_bom cps).
Proof.
  intros S. destruct cps as [|cp cps]; [reflexivity|].
  cbn [drop_bom]. destruct (Z.eqb_spec cp 65279) as [->|N].
  - reflexivity.
  - cbn [flat_map]. inversion S; subst. now apply strip_bom_code_point.
Qed.

Lemma TextDecoder_decode_encode_any (s : jsstring) :
  wf_jsstring s ->
  TextDecoder_decode (TextEncoder_encode s) = toWellFormed_without_bom s.
Proof.
  intros Hw. unfold TextDecoder_decode, TextEncoder_encode, toWellFormed_without_bom.
  pose proof (code_points_scalar_all s Hw) as S.
  rewrite strip_bom_code_points by exact S.
  rewrite utf8_run_code_points; [reflexivity|].
  destruct (code_points s) as [|cp cps]; [constructor|].
  cbn [drop_bom]. destruct (cp =? 65279); [now inversion S|exact S].
Qed.

(** X24.  [encryptText] succeeds on every string, and [decryptText] on
    its result, with the same key and a 12-byte nonce, returns the string
    as [TextEncoder] and [TextDecoder] pass it on: every unpaired
    surrogate replaced by U+FFFD and one U+FEFF in front dropped, nothing
    else changed. *)
Theorem decryptText_encryptText {W : WebCrypto} (text : jsstring) (key : CryptoKey)
  (nonce : list byte) :
  length nonce = 12%nat -> wf_jsstring text ->
  exists encryptedText,
    encryptText text key nonce = Some encryptedText
    /\ decryptText encryptedText key nonce = Some (toWellFormed_without_bom text).
Proof.
  intros Hn Hw. eexists. split; [apply encryptText_total|].
  rewrite decryptText_encrypted by exact Hn.
  now rewrite TextDecoder_decode_encode_any.
Qed.

Lemma decryptText_encryptText_witness :
  exists encryptedText,
    encryptText (W := Toy.crypto) [65279; 97; 56320; 98] [x01]
      (fst (getRandomValues 12 Example.generator)) = Some encryptedText
    /\ decryptText (W := Toy.crypto) encryptedText [x01]
         (fst (getRandomValues 12 Example.generator))
       = Some [97; 65533; 98].
Proof.
  apply (decryptText_encryptText (W := Toy.crypto) [65279; 97; 56320; 98] [x01]
           (fst (getRandomValues 12 Example.generator))).
  - reflexivity.
  - repeat constructor; unfold is_code_unit; lia.
Defined.

Lemma base64_indices_bad (c : Z) (s : jsstring) :
  In c s -> base64_index c = None -> base64_indices s = None.
Proof.
  intros Hc Hn. induction s as [|x s IH]; [contradiction|].
  cbn [base64_indices]. destruct Hc as [->|Hc].
  - now rewrite Hn.
  - rewrite (IH Hc). now destruct (base64_index x).
Qed.

Lemma strip_padding_keeps (c : Z) (s : jsstring) :
  In c s -> c <> 61 -> In c (strip_padding s).
Proof.
  intros Hc Hn. induction s as [|x s IH]; [contradiction|].
  cbn [strip_padding]. destruct (is_padding (x :: s)) eqn:P.
  - exfalso. destruct s as [|y [|z s]]; cbn in P.
    + apply Z.eqb_eq in P. destruct Hc as [->|[]]. lia.
    + apply andb_prop in P as [Px Py]. apply Z.eqb_eq in Px, Py.
      destruct Hc as [->|[->|[]]]; lia.
    + discriminate.
  - destruct Hc as [->|Hc]; [now left|right; now apply IH].
Qed.

Lemma atob_bad_char (data : jsstring) :
  existsb not_base64 data = true -> atob data = None.
Proof.
  intros H. apply existsb_exists in H as (c & Hc & N).
  unfold not_base64 in N. destruct (base64_index c) eqn:B; [discriminate|].
  apply andb_prop in N as [Nw Np]. apply negb_true_iff, Z.eqb_neq in Np.
  unfold atob. cbv zeta.
  set (d1 := filter (fun c => negb (is_ascii_whitespace c)) data).
  assert (H1 : In c d1) by (apply filter_In; now split).
  set (d2 := if Z.of_nat (length d1) mod 4 =? 0 then strip_padding d1 else d1).
  assert (H2 : In c d2).
  { unfold d2. destruct (_ =? 0); [now apply strip_padding_keeps|exact H1]. }
  destruct (_ =? 1); [reflexivity|].
  now rewrite (base64_indices_bad c d2 H2 B).
Qed.

(** X25.  A stored record with truthy [iv] and [salt] whose [site],
    [username] or [password] holds a character that is neither base64,
    nor ASCII whitespace, nor [=], is rejected whatever the PIN and
    whatever the cipher: [decryptCredential] fails on it, and a load of a
    list that holds it counts at least one rejected record and shows
    fewer records than are stored. *)
Theorem load_rejects_non_base64 {W : WebCrypto} {Meta : Type}
  (c : credential Meta) (pin : jsstring) (stored : list (credential Meta)) (g : rng) :
  is_encrypted c = true ->
  existsb not_base64 (site c) || existsb not_base64 (username c)
  || existsb not_base64 (password c) = true ->
  In c stored ->
  decryptCredential c pin = None
  /\ 0 < tampered (load pin stored g)
  /\ Z.of_nat (length (visible (load pin stored g))) < Z.of_nat (length stored).
Proof.
  intros E B Hc.
  assert (D : decryptCredential c pin = None).
  { unfold decryptCredential.
    destruct (iv c) as [iv_hex|]; [|reflexivity].
    destruct (salt c) as [salt_hex|]; [|reflexivity]. cbv zeta.
    unfold decryptText, base64ToArrayBuffer.
    apply orb_prop in B as [B|B]; [apply orb_prop in B as [B|B]|].
    - now rewrite (atob_bad_char _ B).
    - rewrite (atob_bad_char (username c) B).
      destruct (atob (site c)) as [b|]; [|reflexivity].
      now destruct (aes_gcm_decrypt _ _ b).
    - rewrite (atob_bad_char (password c) B).
      destruct (atob (site c)) as [b|]; [|reflexivity].
      destruct (aes_gcm_decrypt _ _ b); [|reflexivity].
      destruct (atob (username c)) as [b'|]; [|reflexivity].
      now destruct (aes_gcm_decrypt _ _ b'). }
  assert (R : In c (filter (rejected pin) stored)).
  { apply filter_In. split; [exact Hc|]. unfold rejected. now rewrite E, D. }
  split; [exact D|].
  rewrite load_tampered, load_visible.
  destruct (filter (rejected pin) stored) as [|r rs] eqn:F; [contradiction|].
  pose proof (shown_rejected_length pin stored) as L. rewrite F in L.
  cbn [length] in *. lia.
Qed.

Lemma load_rejects_non_base64_witness :
  decryptCredential (W := Toy.crypto) Sample.scribbled Example.pin = None
  /\ 0 < tampered (load (W := Toy.crypto) Example.pin
                     [Sample.own; Sample.scribbled] Example.generator)
  /\ Z.of_nat (length (visible (load (W := Toy.crypto) Example.pin
                                  [Sample.own; Sample.scribbled]
                                  Example.generator)))
     < Z.of_nat (length [Sample.own; Sample.scribbled]).
Proof.
  apply (load_rejects_non_base64 (W := Toy.crypto) Sample.scribbled Example.pin
           [Sample.own; Sample.scribbled] Example.generator).
  - reflexivity.
  - reflexivity.
  - right. left. reflexivity.
Defined.

(** * The background worker *)

Lemma setBadge_fold_tabs (tabs : list Z) (st : background) :
  let st' := fold_left (fun s t => setBadge t false s) tabs st in
  tabState st' = tabState st /\ phishingState st' = phishingState st
  /\ bg_autofillEnabled st' = bg_autofillEnabled st.
Proof.
  cbv zeta. revert st. induction tabs as [|t tabs IH]; intros st; [now cbn|].
  cbn [fold_left]. destruct (IH (setBadge t false st)) as (A & B & C).
  rewrite A, B, C. now cbn.
Qed.

Lemma bg_step_keeps_empty (tabId : Z) (e : bg_event) (st : background) :
  tabState st tabId = None -> no_detection_for tabId e = true ->
  tabState (bg_step e st) tabId = None.
Proof.
  intros H N. destruct e as [en tabs|en tabs|t f b|t s|t|t]; cbn [bg_step].
  - unfold switch_autofill. destruct (negb en); [|exact H].
    now rewrite (proj1 (setBadge_fold_tabs tabs _)).
  - unfold switch_autofill. destruct (negb en); [|exact H].
    now rewrite (proj1 (setBadge_fold_tabs tabs _)).
  - cbn [no_detection_for] in N. apply negb_true_iff in N.
    rewrite Z.eqb_sym in N.
    destruct (negb (bg_autofillEnabled st)); cbn [setBadge tabState]; now rewrite N.
  - destruct (t =? 0); [exact H|]. exact H.
  - cbn [setBadge tabState]. now destruct (tabId =? t).
  - cbn [tabState]. now destruct (tabId =? t).
Qed.

Lemma bg_run_keeps_empty (tabId : Z) (events : list bg_event) (st : background) :
  tabState st tabId = None -> forallb (no_detection_for tabId) events = true ->
  tabState (bg_run events st) tabId = None.
Proof.
  unfold bg_run. revert st. induction events as [|e events IH]; intros st H F.
  - exact H.
  - cbn [forallb] in F. apply andb_prop in F as [N F]. cbn [fold_left].
    apply IH; [|exact F]. now apply bg_step_keeps_empty.
Qed.

(** X26.  Once autofill is switched off, or a tab starts loading or is
    closed, the login reports that the frames of the tab had sent are
    gone: [query-login-state] for the tab answers false until a frame of
    that tab reports again, whatever else happens in between, switching
    autofill back on included. *)
Theorem stale_detections_dropped (tabId : Z) (e : bg_event)
  (events : list bg_event) (st : background) :
  forgets_tab tabId e = true ->
  forallb (no_detection_for tabId) events = true ->
  query_login_state (bg_run events (bg_step e st)) tabId = false.
Proof.
  intros R F. unfold query_login_state, computeTabLogin.
  rewrite (bg_run_keeps_empty tabId events (bg_step e st)); [apply andb_false_r| |exact F].
  destruct e as [en tabs|en tabs|t f b|t s|t|t]; cbn [forgets_tab] in R;
    try discriminate; cbn [bg_step].
  - unfold switch_autofill. rewrite R.
    now rewrite (proj1 (setBadge_fold_tabs tabs _)).
  - unfold switch_autofill. rewrite R.
    now rewrite (proj1 (setBadge_fold_tabs tabs _)).
  - cbn [setBadge tabState]. rewrite Z.eqb_sym. now rewrite R.
  - cbn [tabState]. rewrite Z.eqb_sym. now rewrite R.
Qed.

Lemma stale_detections_dropped_witness :
  query_login_state
    (bg_run [SetAutofillEnabled true []; LoginDetection 8 0 true;
             UpdatePhishingStatus 7 StatusLegit]
       (bg_step (SetAutofillEnabled false [7; 8])
          (bg_step (LoginDetection 7 0 true) bg_initial))) 7 = false.
Proof.
  apply stale_detections_dropped; reflexivity.
Defined.

Lemma frames_set_keys (f : Z) (b : bool) (frames : list (Z * bool)) (k : Z) :
  In k (map fst (frames_set f b frames)) <-> k = f \/ In k (map fst frames).
Proof.
  induction frames as [|[k' v] frames IH]; cbn [frames_set map fst In].
  - split; [intros [H|[]]; auto | intros [H|[]]; auto].
  - destruct (Z.eqb_spec k' f) as [->|N]; cbn [map fst In].
    + intuition congruence.
    + rewrite IH. tauto.
Qed.

Lemma frames_set_NoDup (f : Z) (b : bool) (frames : list (Z * bool)) :
  NoDup (map fst frames) -> NoDup (map fst (frames_set f b frames)).
Proof.
  induction frames as [|[k v] frames IH]; cbn [frames_set map fst]; intros H.
  - constructor; [intros []|constructor].
  - inversion H as [|? ? Hk Hr]; subst.
    destruct (Z.eqb_spec k f) as [->|N]; cbn [map fst].
    + now constructor.
    + constructor; [|now apply IH].
      rewrite frames_set_keys. intros [E|I]; [congruence|contradiction].
Qed.

Lemma frames_set_existsb (f : Z) (b : bool) (frames : list (Z * bool)) :
  NoDup (map fst frames) ->
  existsb snd (frames_set f b frames)
  = b || existsb snd (filter (fun kv => negb (fst kv =? f)) frames).
Proof.
  induction frames as [|[k v] frames IH]; cbn [frames_set map fst]; intros H.
  - cbn. now rewrite orb_false_r.
  - inversion H as [|? ? Hk Hr]; subst. cbn [filter fst].
    destruct (Z.eqb_spec k f) as [->|N]; cbn [negb existsb snd].
    + f_equal. f_equal. symmetry. apply forallb_filter_id. apply forallb_forall.
      intros [k' v'] Hin. cbn [fst]. apply negb_true_iff, Z.eqb_neq.
      intros ->. apply Hk. now apply (in_map fst) in Hin.
    + rewrite IH by exact Hr. now destruct b, v.
Qed.

Lemma bg_step_wf (e : bg_event) (st : background) :
  frames_wf st -> frames_wf (bg_step e st).
Proof.
  unfold frames_wf. intros H.
  destruct e as [en tabs|en tabs|t f b|t s|t|t]; cbn [bg_step]; intros t' fr.
  - unfold switch_autofill. destruct (negb en); [|apply H].
    rewrite (proj1 (setBadge_fold_tabs tabs _)). discriminate.
  - unfold switch_autofill. destruct (negb en); [|apply H].
    rewrite (proj1 (setBadge_fold_tabs tabs _)). discriminate.
  - destruct (negb (bg_autofillEnabled st)); cbn [setBadge tabState].
    + destruct (t' =? t); [discriminate|apply H].
    + destruct (t' =? t); [|apply H]. intros [= <-].
      apply frames_set_NoDup.
      destruct (tabState st t) as [frames|] eqn:E; [now apply (H t)|constructor].
  - destruct (t =? 0); apply H.
  - cbn [setBadge tabState]. destruct (t' =? t); [discriminate|apply H].
  - cbn [tabState]. destruct (t' =? t); [discriminate|apply H].
Qed.

Lemma bg_run_wf (events : list bg_event) (st : background) :
  frames_wf st -> frames_wf (bg_run events st).
Proof.
  unfold bg_run. revert st. induction events as [|e events IH]; intros st H;
    [exact H|].
  cbn [fold_left]. apply IH. now apply bg_step_wf.
Qed.

(** X27.  In any state the worker reaches, with autofill enabled, a
    login report of a frame makes the tab a login page when the report is
    true or another frame of the tab has last reported true: one frame
    that sees a login form is enough, and a frame that reports false
    withdraws only its own report. *)
Theorem login_detection_any_frame (events : list bg_event) (tabId frameId : Z)
  (login : bool) :
  let st := bg_run events bg_initial in
  bg_autofillEnabled st = true ->
  query_login_state (bg_step (LoginDetection tabId frameId login) st) tabId
  = login || existsb snd (other_frames st tabId frameId).
Proof.
  cbv zeta. intros A.
  assert (Wf : frames_wf (bg_run events bg_initial)).
  { apply bg_run_wf. intros t frames. discriminate. }
  set (st := bg_run events bg_initial) in *.
  unfold query_login_state, computeTabLogin, other_frames. cbn [bg_step].
  rewrite A. cbn [negb setBadge tabState bg_autofillEnabled andb].
  rewrite Z.eqb_refl.
  destruct (tabState st tabId) as [frames|] eqn:E.
  - apply frames_set_existsb. now apply (Wf tabId).
  - cbn. now rewrite orb_false_r.
Qed.

Lemma login_detection_any_frame_witness :
  query_login_state
    (bg_step (LoginDetection 7 0 false)
       (bg_run [LoginDetection 7 0 true; LoginDetection 7 3 true] bg_initial)) 7
  = true.
Proof.
  rewrite (login_detection_any_frame
             [LoginDetection 7 0 true; LoginDetection 7 3 true] 7 0 false);
    reflexivity.
Defined.

Lemma setBadge_fold_badge (tabs : list Z) (t : Z) (st : background) :
  phishingState st t = Some StatusPhishing ->
  badges st t = Some BadgeWarning ->
  badges (fold_left (fun s t => setBadge t false s) tabs st) t = Some BadgeWarning.
Proof.
  revert st. induction tabs as [|t' tabs IH]; intros st P B; [exact B|].
  cbn [fold_left]. apply IH; [exact P|].
  cbn [setBadge badges]. destruct (Z.eqb_spec t t') as [<-|N]; [|exact B].
  now rewrite P.
Qed.

Lemma bg_step_keeps_warning (t : Z) (e : bg_event) (st : background) :
  keeps_verdict t e = true ->
  phishingState st t = Some StatusPhishing /\ badges st t = Some BadgeWarning ->
  phishingState (bg_step e st) t = Some StatusPhishing
  /\ badges (bg_step e st) t = Some BadgeWarning.
Proof.
  intros K [P B].
  destruct e as [en tabs|en tabs|t' f b|t' s|t'|t']; cbn [bg_step keeps_verdict] in *.
  - unfold switch_autofill. destruct (negb en); [|now split].
    split.
    + now rewrite (proj1 (proj2 (setBadge_fold_tabs tabs _))).
    + now apply setBadge_fold_badge.
  - unfold switch_autofill. destruct (negb en); [|now split].
    split.
    + now rewrite (proj1 (proj2 (setBadge_fold_tabs tabs _))).
    + now apply setBadge_fold_badge.
  - destruct (negb (bg_autofillEnabled st));
      cbn [setBadge phishingState badges]; (split; [exact P|]);
      (destruct (Z.eqb_spec t t') as [<-|N]; [now rewrite P|exact B]).
  - apply negb_true_iff in K. rewrite Z.eqb_sym in K.
    destruct (t' =? 0); [now split|].
    cbn [setBadge phishingState badges]. rewrite K. now split.
  - apply negb_true_iff in K. rewrite Z.eqb_sym in K.
    cbn [setBadge phishingState badges]. rewrite K. now split.
  - apply negb_true_iff in K. rewrite Z.eqb_sym in K.
    cbn [phishingState badges]. rewrite K. now split.
Qed.

(** X28.  Once the popup has reported a tab as phishing, the badge of
    the tab is the red warning and stays so through login reports,
    through turning autofill off and on, and through what happens on
    other tabs, until the tab loads again, is closed, or gets a new
    verdict. *)
Theorem phishing_badge_stays (t : Z) (events : list bg_event) (st : background) :
  t <> 0 ->
  forallb (keeps_verdict t) events = true ->
  badges (bg_run events (bg_step (UpdatePhishingStatus t StatusPhishing) st)) t
  = Some BadgeWarning.
Proof.
  intros N F.
  assert (I : phishingState (bg_step (UpdatePhishingStatus t StatusPhishing) st) t
              = Some StatusPhishing
              /\ badges (bg_step (UpdatePhishingStatus t StatusPhishing) st) t
                 = Some BadgeWarning).
  { cbn [bg_step]. apply Z.eqb_neq in N. rewrite N.
    cbn [setBadge phishingState badges]. rewrite Z.eqb_refl. now split. }
  revert I. generalize (bg_step (UpdatePhishingStatus t StatusPhishing) st).
  unfold bg_run. induction events as [|e events IH]; intros s I.
  - apply I.
  - cbn [forallb] in F. apply andb_prop in F as [K F]. cbn [fold_left].
    apply IH; [exact F|]. now apply bg_step_keeps_warning.
Qed.

Lemma phishing_badge_stays_witness :
  badges
    (bg_run [LoginDetection 7 0 true; SetAutofillEnabled false [7; 8];
             TabLoading 8; SetAutofillEnabled true []]
       (bg_step (UpdatePhishingStatus 7 StatusPhishing) bg_initial)) 7
  = Some BadgeWarning.
Proof.
  apply phishing_badge_stays; [lia|reflexivity].
Defined.
